(** * The performance-comparison command

    A shallow embedding of the statistics helpers ([average], [median],
    [formatTime]), of [curateResults], and of the orchestration function
    [runPerformanceTests], followed by the properties the specification
    states about them and by further properties of the code.

    Conventions of the embedding.
    - A JavaScript number is a rational or one of the three special values
      [Infinity], [-Infinity], [NaN]. The operators [+], [*] and [/] and the
      decimal literals round to the nearest binary64 value, a tie going to
      the even significand, with gradual underflow and with overflow to an
      infinity, so that on binary64 operands they return what IEEE 754
      arithmetic returns; the special values follow the IEEE rules the code
      relies on (0/0, the empty [Math.min] / [Math.max]). The sign of zero
      is not represented.
    - A JavaScript object used as a dictionary is a [gmap] with string keys;
      reading an absent property yields [None] (JavaScript's [undefined]).
    - A thrown exception is the left injection of a sum; the external world
      (child processes, git, the file system, the prompt) is an oracle that
      answers each call from the history of calls made so far, and the
      history is threaded through as state. *)

From Stdlib Require Import QArith Qcanon Qround Qpower Qabs Lqa Ascii String.
From Stdlib Require Import PrimFloat SpecFloat FloatOps.
From stdpp Require Import gmap strings list fin_maps sorting numbers.

Close Scope Qc_scope.
Close Scope Q_scope.

(* ===================================================================== *)
(** ** JavaScript numbers *)
(* ===================================================================== *)

Inductive number :=
  | Fin (q : Qc)
  | PosInf
  | NegInf
  | NaN.

Global Instance number_eq_dec : EqDecision number.
Proof. solve_decision. Defined.

Global Instance number_inhabited : Inhabited number := populate NaN.

(** *** Rounding to binary64

    A finite binary64 value is [m * 2^e] for an integer significand of at
    most 53 bits and an exponent [e] from [-1074] up, below [2^1024]. *)
Module Binary64.

(** The nearest integer, a tie going to the even one. *)
Definition nearest_even (x : Q) : Z :=
  let f := Qfloor x in
  match (x - inject_Z f ?= 1 # 2)%Q with
  | Lt => f
  | Gt => (f + 1)%Z
  | Eq => if Z.even f then f else (f + 1)%Z
  end.

(** [floor( log2( x ) )] of a positive rational. *)
Definition ilog2 (x : Q) : Z :=
  let k := (Z.log2 (Qnum x) - Z.log2 (Zpos (Qden x)))%Z in
  if Qle_bool (2 ^ k)%Q x then k else (k - 1)%Z.

(** The exponent of the last bit of the significand for a positive [x]:
    53 bits from the leading one, and never below the subnormal exponent
    [-1074]. *)
Definition exponent (x : Q) : Z := Z.max (ilog2 x - 52) (-1074).

(** A positive rational rounded to nearest, ties to even, the exponent
    not yet bounded from above. *)
Definition rounded (x : Q) : Q :=
  let e := exponent x in
  (inject_Z (nearest_even (x / 2 ^ e)) * 2 ^ e)%Q.

(** A rounded value of [2^1024] or more overflows. *)
Definition round_positive (x : Q) : number :=
  let r := rounded x in
  if Qle_bool (2 ^ 1024)%Q r then PosInf else Fin (Q2Qc r).

(** Rounding is symmetric around zero. *)
Definition round (q : Qc) : number :=
  match (q ?= 0)%Qc with
  | Eq => Fin 0%Qc
  | Gt => round_positive q
  | Lt => match round_positive (- q)%Qc with
          | Fin r => Fin (- r)%Qc
          | _ => NegInf
          end
  end.

(** The rounding of a sum or a difference. Two binary64 values are
    multiples of [2^-1074], and so is their sum: below [2^-1022] in
    magnitude it is a binary64 value itself, and no rounding takes place. *)
Definition round_sum (q : Qc) : number :=
  if Qle_bool (2 ^ (-1022))%Q (Qabs q) then round q else Fin q.

End Binary64.

(** Decimal literals denote the nearest binary64 value; the integer
    literals and the integers the code computes are values as they are. *)
Definition lit (q : Q) : number := Binary64.round (Q2Qc q).
Definition of_nat (n : nat) : number := Fin (Q2Qc (inject_Z (Z.of_nat n))).
Definition of_Z (z : Z) : number := Fin (Q2Qc (inject_Z z)).

Definition isFinite (x : number) : bool :=
  match x with Fin _ => true | _ => false end.

Module Num.

Definition neg (x : number) : number :=
  match x with
  | Fin q => Fin (- q)%Qc
  | PosInf => NegInf
  | NegInf => PosInf
  | NaN => NaN
  end.

(** [a + b] *)
Definition add (a b : number) : number :=
  match a, b with
  | NaN, _ | _, NaN => NaN
  | Fin x, Fin y => Binary64.round_sum (x + y)%Qc
  | PosInf, NegInf | NegInf, PosInf => NaN
  | PosInf, _ | _, PosInf => PosInf
  | NegInf, _ | _, NegInf => NegInf
  end.

(** [a - b] *)
Definition sub (a b : number) : number := add a (neg b).

(** Sign of a rational as a comparison with zero. *)
Definition sgn (q : Qc) : comparison := (q ?= 0)%Qc.

(** [a * b] *)
Definition mul (a b : number) : number :=
  match a, b with
  | NaN, _ | _, NaN => NaN
  | Fin x, Fin y => Binary64.round (x * y)%Qc
  | Fin x, PosInf | PosInf, Fin x =>
      match sgn x with Eq => NaN | Gt => PosInf | Lt => NegInf end
  | Fin x, NegInf | NegInf, Fin x =>
      match sgn x with Eq => NaN | Gt => NegInf | Lt => PosInf end
  | PosInf, PosInf | NegInf, NegInf => PosInf
  | PosInf, NegInf | NegInf, PosInf => NegInf
  end.

(** [a / b]; a zero divisor is the positive zero. *)
Definition div (a b : number) : number :=
  match a, b with
  | NaN, _ | _, NaN => NaN
  | Fin x, Fin y =>
      match sgn y with
      | Eq => match sgn x with Eq => NaN | Gt => PosInf | Lt => NegInf end
      | _ => Binary64.round (x / y)%Qc
      end
  | Fin _, (PosInf | NegInf) => Fin 0%Qc
  | (PosInf | NegInf), (PosInf | NegInf) => NaN
  | PosInf, Fin y => match sgn y with Lt => NegInf | _ => PosInf end
  | NegInf, Fin y => match sgn y with Lt => PosInf | _ => NegInf end
  end.

(** [a <= b] on numbers; false as soon as one side is [NaN]. *)
Definition leb (a b : number) : bool :=
  match a, b with
  | NaN, _ | _, NaN => false
  | NegInf, _ | _, PosInf => true
  | Fin x, Fin y => bool_decide (x <= y)%Qc
  | _, _ => false
  end.

End Num.

Declare Scope js_scope.
Delimit Scope js_scope with js.
Bind Scope js_scope with number.
Infix "+" := Num.add : js_scope.
Infix "-" := Num.sub : js_scope.
Infix "*" := Num.mul : js_scope.
Infix "/" := Num.div : js_scope.

(** The [Math] object. *)
Module Math.

(** [Math.min( a, b )] for two arguments. *)
Definition min2 (a b : number) : number :=
  match a, b with
  | NaN, _ | _, NaN => NaN
  | _, _ => if Num.leb a b then a else b
  end.

Definition max2 (a b : number) : number :=
  match a, b with
  | NaN, _ | _, NaN => NaN
  | _, _ => if Num.leb a b then b else a
  end.

(** [Math.min( ...args )]: the fold starts from [Infinity]. *)
Definition min (args : list number) : number := foldl min2 PosInf args.

(** [Math.max( ...args )]: the fold starts from [-Infinity]. *)
Definition max (args : list number) : number := foldl max2 NegInf args.

(** [Math.round( x )]: the nearest integer, a tie going towards
    [+Infinity], that is [floor( x + 0.5 )]. *)
Definition round (x : number) : number :=
  match x with
  | Fin q => of_Z (Qfloor (q + Q2Qc (1 # 2))%Qc)
  | _ => x
  end.

(** [Math.pow( 10, n )] for a natural exponent. *)
Definition pow10 (n : nat) : number := of_Z (10 ^ Z.of_nat n).

End Math.

(** *** The primitive floats as a reference

    Rocq's primitive floats are the binary64 values with the operations
    of IEEE 754. A float is read as a number, and an operator of the model
    agrees with an operation on floats at two floats when it returns the
    number the operation's result reads as. *)
Definition of_float (f : float) : number :=
  match Prim2SF f with
  | S754_zero _ => Fin 0%Qc
  | S754_finite sign m e =>
      Fin (Q2Qc ((if sign then -1 else 1) * inject_Z (Zpos m) * 2 ^ e)%Q)
  | S754_infinity sign => if sign then NegInf else PosInf
  | S754_nan => NaN
  end.

Definition agrees (op : number → number → number)
    (operation : float → float → float) (a b : float) : bool :=
  bool_decide (op (of_float a) (of_float b) = of_float (operation a b)).

#[local] Set Warnings "-inexact-float".

(** Pairs of floats to compare on: the examples of the specification,
    ties, sums that round, overflow, and subnormal results. *)
Definition float_samples : list (float * float) :=
  [ (12.345, 100); (12.344, 100); (1235, 100); (1234, 100);
    (0.015, 100); (2.675, 100); (10.235, 100); (-0.125, 100);
    (0.1, 0.2); (0.1, 0.1); (0.2, 0.1); (0.30000000000000004, 3);
    (0.7, 0.7); (1.4, 0.7); (2.0999999999999996, 3); (1, 3); (2, 3);
    (41302020883375.586, 100); (4130202088337559, 100);
    (1e308, 100); (-1e308, 100); (1e308, 1e308); (1e308, -1e308);
    (1.7976931348623157e308, 1.7976931348623157e308);
    (1.7976931348623157e308, 9.9792015476735991e291);
    (1.7976931348623157e308, 9.9792015476735972e291);
    (5e-324, 2); (5e-324, 4); (1.5e-323, 2); (2.5e-323, 2);
    (2.2250738585072014e-308, 3); (2.2250738585072014e-308, 0.9999999999999999);
    (1e-200, 1e-200); (1e-160, 1e-164); (9007199254740993, 3);
    (infinity, 100); (neg_infinity, 100); (infinity, infinity);
    (infinity, neg_infinity); (100, infinity) ]%float.

(* ===================================================================== *)
(** ** Arrays *)
(* ===================================================================== *)

(** [array[ i ]] read as a number: an index out of range (negative
    included) gives [undefined], which every arithmetic operator turns into
    [NaN]. *)
Definition at_index (array : list number) (i : Z) : number :=
  if bool_decide (i < 0)%Z then NaN else default NaN (array !! Z.to_nat i).

(** Result of the comparator [( a, b ) => a - b] as the sort uses it: [a]
    may stay before [b] when the result is not positive; a [NaN] result
    counts as zero. *)
Definition by_difference (a b : number) : Prop :=
  match (a - b)%js with
  | Fin d => (d <= 0)%Qc
  | PosInf => False
  | NegInf | NaN => True
  end.

Global Instance by_difference_dec a b : Decision (by_difference a b).
Proof. unfold by_difference. destruct (a - b)%js; apply _. Defined.

(** [array.sort( ( a, b ) => a - b )] on the contents of the array, as a
    merge sort driven by the comparator. Where the comparator is a total
    order (no [NaN] among the elements) the result is the one sorted
    arrangement; otherwise the order JavaScript leaves is up to the engine,
    and nothing is claimed about it here. *)
Definition sort_numeric (array : list number) : list number :=
  merge_sort by_difference array.

(* ===================================================================== *)
(** ** Statistics helpers *)
(* ===================================================================== *)

(** [function average( array )] *)
Definition average (array : list number) : number :=
  (foldl Num.add (of_nat 0) array / of_nat (length array))%js.

(** [function median( array )] *)
Definition median (array : list number) : number :=
  let mid := (Z.of_nat (length array) / 2)%Z in
  let numbers := sort_numeric array in
  if negb (Z.of_nat (length array) mod 2 =? 0)%Z
  then at_index numbers mid
  else ((at_index numbers (mid - 1) + at_index numbers mid) / of_nat 2)%js.

(** [function formatTime( number )] *)
Definition formatTime (n : number) : number :=
  let factor := Math.pow10 2 in
  (Math.round (n * factor) / factor)%js.

(** *** [median] on arrays in a store

    [median] copies its argument ([[ ...array ]]) and sorts the copy in
    place. Arrays are references into a store here, so that the copy and
    the in-place sort are visible. *)
Module Heap.

Abbreviation loc := positive.
Abbreviation heap := (gmap positive (list number)).

(** [[ ...array ]]: a fresh array with the same elements. *)
Definition spread_copy (array : loc) (h : heap) : option (loc * heap) :=
  xs ← h !! array;
  let copy := fresh (dom h) in
  Some (copy, <[copy := xs]> h).

(** [array.sort( ( a, b ) => a - b )]: sorts in place and returns the
    same array. *)
Definition sort (array : loc) (h : heap) : option (loc * heap) :=
  xs ← h !! array;
  Some (array, <[array := sort_numeric xs]> h).

Definition length (array : loc) (h : heap) : option nat :=
  List.length <$> h !! array.

Definition median (array : loc) (h : heap) : option (number * heap) :=
  n ← length array h;
  let mid := (Z.of_nat n / 2)%Z in
  '(copy, h) ← spread_copy array h;
  '(numbers, h) ← sort copy h;
  n ← length array h;
  ys ← h !! numbers;
  Some (if negb (Z.of_nat n mod 2 =? 0)%Z
        then at_index ys mid
        else ((at_index ys (mid - 1) + at_index ys mid) / of_nat 2)%js,
        h).

End Heap.

(* ===================================================================== *)
(** ** Result bundles *)
(* ===================================================================== *)

(** [WPRawPerformanceResults]: the parsed JSON file a suite leaves
    behind, metric name to samples; a key may be absent. *)
Abbreviation WPRawPerformanceResults := (gmap string (list number)).

(** The shape of the object literals of [curateResults] and of the
    median computation: the twelve metrics, six of them with a minimum and
    a maximum. *)
Record PerMetric (A : Type) := mkPerMetric {
  serverResponse : A;
  firstPaint : A;
  domContentLoaded : A;
  loaded : A;
  firstContentfulPaint : A;
  firstBlock : A;
  type : A;
  minType : A;
  maxType : A;
  focus : A;
  minFocus : A;
  maxFocus : A;
  inserterOpen : A;
  minInserterOpen : A;
  maxInserterOpen : A;
  inserterSearch : A;
  minInserterSearch : A;
  maxInserterSearch : A;
  inserterHover : A;
  minInserterHover : A;
  maxInserterHover : A;
  listViewOpen : A;
  minListViewOpen : A;
  maxListViewOpen : A;
}.

Arguments mkPerMetric {A}.
Arguments serverResponse {A}.
Arguments firstPaint {A}.
Arguments domContentLoaded {A}.
Arguments loaded {A}.
Arguments firstContentfulPaint {A}.
Arguments firstBlock {A}.
Arguments type {A}.
Arguments minType {A}.
Arguments maxType {A}.
Arguments focus {A}.
Arguments minFocus {A}.
Arguments maxFocus {A}.
Arguments inserterOpen {A}.
Arguments minInserterOpen {A}.
Arguments maxInserterOpen {A}.
Arguments inserterSearch {A}.
Arguments minInserterSearch {A}.
Arguments maxInserterSearch {A}.
Arguments inserterHover {A}.
Arguments minInserterHover {A}.
Arguments maxInserterHover {A}.
Arguments listViewOpen {A}.
Arguments minListViewOpen {A}.
Arguments maxListViewOpen {A}.

(** [WPPerformanceResults] *)
Abbreviation WPPerformanceResults := (PerMetric number).

Global Instance PerMetric_eq_dec `{EqDecision A} : EqDecision (PerMetric A).
Proof. solve_decision. Defined.

(** [Object.entries( o )], in the order of the object literal. *)
Definition entries {A} (o : PerMetric A) : list (string * A) :=
  [ ("serverResponse", serverResponse o);
    ("firstPaint", firstPaint o);
    ("domContentLoaded", domContentLoaded o);
    ("loaded", loaded o);
    ("firstContentfulPaint", firstContentfulPaint o);
    ("firstBlock", firstBlock o);
    ("type", type o);
    ("minType", minType o);
    ("maxType", maxType o);
    ("focus", focus o);
    ("minFocus", minFocus o);
    ("maxFocus", maxFocus o);
    ("inserterOpen", inserterOpen o);
    ("minInserterOpen", minInserterOpen o);
    ("maxInserterOpen", maxInserterOpen o);
    ("inserterSearch", inserterSearch o);
    ("minInserterSearch", minInserterSearch o);
    ("maxInserterSearch", maxInserterSearch o);
    ("inserterHover", inserterHover o);
    ("minInserterHover", minInserterHover o);
    ("maxInserterHover", maxInserterHover o);
    ("listViewOpen", listViewOpen o);
    ("minListViewOpen", minListViewOpen o);
    ("maxListViewOpen", maxListViewOpen o) ].

(** [Object.keys( o )] *)
Definition keys {A} (o : PerMetric A) : list string := (entries o).*1.

(** [o[ name ]] *)
Definition prop {A} (o : PerMetric A) (name : string) : option A :=
  (list_to_map (entries o) : gmap string A) !! name.

(** lodash's [mapValues( o, f )] *)
Definition mapValues {A B} (o : PerMetric A) (f : A → B) : PerMetric B :=
  {| serverResponse := f (serverResponse o);
     firstPaint := f (firstPaint o);
     domContentLoaded := f (domContentLoaded o);
     loaded := f (loaded o);
     firstContentfulPaint := f (firstContentfulPaint o);
     firstBlock := f (firstBlock o);
     type := f (type o);
     minType := f (minType o);
     maxType := f (maxType o);
     focus := f (focus o);
     minFocus := f (minFocus o);
     maxFocus := f (maxFocus o);
     inserterOpen := f (inserterOpen o);
     minInserterOpen := f (minInserterOpen o);
     maxInserterOpen := f (maxInserterOpen o);
     inserterSearch := f (inserterSearch o);
     minInserterSearch := f (minInserterSearch o);
     maxInserterSearch := f (maxInserterSearch o);
     inserterHover := f (inserterHover o);
     minInserterHover := f (minInserterHover o);
     maxInserterHover := f (maxInserterHover o);
     listViewOpen := f (listViewOpen o);
     minListViewOpen := f (minListViewOpen o);
     maxListViewOpen := f (maxListViewOpen o) |}.

(* ===================================================================== *)
(** ** Calls to the collaborators *)
(* ===================================================================== *)

(** A value that is a string or [undefined] (an unset environment
    variable, an absent option). *)
Abbreviation jsstring := (option string).

(** How such a value appears inside a template literal or under [+]. *)
Definition to_s (v : jsstring) : string := default "undefined" v.

(** The value as a property key. *)
Definition key (v : jsstring) : string := to_s v.

(** [!! v] *)
Definition truthy (v : jsstring) : bool :=
  match v with
  | Some s => negb (bool_decide (s = ""))
  | None => false
  end.

(** [values.join( sep )]; [undefined] joins as the empty string. *)
Fixpoint join (sep : string) (values : list jsstring) : string :=
  match values with
  | [] => ""
  | [v] => default "" v
  | v :: rest => default "" v +:+ sep +:+ join sep rest
  end.

(** A member of the environment configuration file: the only member the
    code writes is a string; the others are carried along as they are. *)
Inductive json :=
  | JString (s : string)
  | JOther (text : string).

Global Instance json_eq_dec : EqDecision json.
Proof. solve_decision. Defined.

(** What is handed to [fs.writeFileSync]: [JSON.stringify( value, null, 2 )]
    of a configuration or of a suite's result table, kept as the value that
    is serialised. *)
Inductive file_data :=
  | StringifiedConf (conf : gmap string json)
  | StringifiedResults (table : gmap string WPPerformanceResults).

(** The calls the command makes to its collaborators. [log] only prints
    and is left out. *)
Inductive call :=
  | AskForConfirmation (message : string)
  | GetRandomTemporaryPath
  | MkdirSync (path : string)
  | RunShellScript (script : string) (cwd : jsstring)
  | GitRaw (baseDir : string) (args : list jsstring)
  | GitReset (baseDir : string) (mode : string)
  | GitCheckout (baseDir : string) (ref : jsstring)
  | ReadJSONFile (fileName : string)
  | WriteFileSync (file : string) (data : file_data)
  | ConsoleTable (tabularData : gmap string (gmap string string)).

Global Instance file_data_eq_dec : EqDecision file_data.
Proof. solve_decision. Defined.
Global Instance call_eq_dec : EqDecision call.
Proof. solve_decision. Defined.

(* ===================================================================== *)
(** ** Exceptions *)
(* ===================================================================== *)

Inductive exn :=
  | TypeError (message : string)
  | Error (message : string)
  | Rejected (c : call).

Global Instance exn_eq_dec : EqDecision exn.
Proof. solve_decision. Defined.

(** A computation that returns a value or throws. *)
Definition result (A : Type) : Type := exn + A.

Global Instance result_ret : MRet result := λ A x, inr x.
Global Instance result_bind : MBind result := λ A B f m,
  match m with
  | inl e => inl e
  | inr x => f x
  end.
Global Instance result_fmap : FMap result := λ A B f m,
  match m with
  | inl e => inl e
  | inr x => inr (f x)
  end.

Definition throw {A} (e : exn) : result A := inl e.

(** [receiver.name] where [receiver] may be [undefined]. *)
Definition property_of {A} (name : string) (receiver : option A) : result A :=
  match receiver with
  | Some v => mret v
  | None =>
      throw (TypeError
        ("Cannot read properties of undefined (reading '" +:+ name +:+ "')"))
  end.

(** [...iterable] in an argument list where [iterable] may be
    [undefined]. *)
Definition spread {A} (iterable : option (list A)) : result (list A) :=
  match iterable with
  | Some xs => mret xs
  | None =>
      throw (TypeError
        "undefined is not iterable (cannot read property Symbol(Symbol.iterator))")
  end.

(* ===================================================================== *)
(** ** Curation *)
(* ===================================================================== *)

(** [average( array )] at a call site whose argument may be [undefined]:
    the body's first step, [array.reduce], throws on [undefined]. *)
Definition call_average (array : option (list number)) : result number :=
  xs ← property_of "reduce" array;
  mret (average xs).

(** [function curateResults( results )] *)
Definition curateResults (results : WPRawPerformanceResults)
  : result WPPerformanceResults :=
  serverResponse ← call_average (results !! "serverResponse");
  firstPaint ← call_average (results !! "firstPaint");
  domContentLoaded ← call_average (results !! "domContentLoaded");
  loaded ← call_average (results !! "loaded");
  firstContentfulPaint ← call_average (results !! "firstContentfulPaint");
  firstBlock ← call_average (results !! "firstBlock");
  type ← call_average (results !! "type");
  minType ← Math.min <$> spread (results !! "type");
  maxType ← Math.max <$> spread (results !! "type");
  focus ← call_average (results !! "focus");
  minFocus ← Math.min <$> spread (results !! "focus");
  maxFocus ← Math.max <$> spread (results !! "focus");
  inserterOpen ← call_average (results !! "inserterOpen");
  minInserterOpen ← Math.min <$> spread (results !! "inserterOpen");
  maxInserterOpen ← Math.max <$> spread (results !! "inserterOpen");
  inserterSearch ← call_average (results !! "inserterSearch");
  minInserterSearch ← Math.min <$> spread (results !! "inserterSearch");
  maxInserterSearch ← Math.max <$> spread (results !! "inserterSearch");
  inserterHover ← call_average (results !! "inserterHover");
  minInserterHover ← Math.min <$> spread (results !! "inserterHover");
  maxInserterHover ← Math.max <$> spread (results !! "inserterHover");
  listViewOpen ← call_average (results !! "listViewOpen");
  minListViewOpen ← Math.min <$> spread (results !! "listViewOpen");
  maxListViewOpen ← Math.max <$> spread (results !! "listViewOpen");
  mret (mkPerMetric
          serverResponse firstPaint domContentLoaded loaded
          firstContentfulPaint firstBlock
          type minType maxType
          focus minFocus maxFocus
          inserterOpen minInserterOpen maxInserterOpen
          inserterSearch minInserterSearch maxInserterSearch
          inserterHover minInserterHover maxInserterHover
          listViewOpen minListViewOpen maxListViewOpen).

(* ===================================================================== *)
(** ** The version pattern [/^(\d+\.\d+).0/] *)
(* ===================================================================== *)

(** A backtracking matcher for the fragment of regular expressions the
    pattern uses. A position is the pair of the characters consumed so far
    (latest first) and the characters still ahead. A character is one
    character of the JavaScript string, which the pattern (it has no [u]
    flag) takes by UTF-16 code units: the matcher is the pattern on the
    strings whose code units are below 256, one per character, and so on
    every string written in ASCII; a string with other characters is not
    represented. *)
Module Regex.

Inductive regex :=
  | Digit                        (* \d *)
  | AnyChar                      (* .  *)
  | Char (c : ascii)             (* a literal character *)
  | Seq (r1 r2 : regex)
  | Plus (r : regex)             (* r+, greedy *)
  | Group (r : regex).           (* ( r ), the capture group *)

Definition is_digit (c : ascii) : bool :=
  (48 <=? nat_of_ascii c)%nat && (nat_of_ascii c <=? 57)%nat.

(** [.] matches every character but a line terminator (of the four
    JavaScript knows, the two below 256: LF and CR). *)
Definition is_line_terminator (c : ascii) : bool :=
  (nat_of_ascii c =? 10)%nat || (nat_of_ascii c =? 13)%nat.

Record position := mkPosition {
  consumed : list ascii;
  ahead : list ascii;
  capture : option (list ascii);
}.

Definition step (accepts : ascii → bool) (p : position) : option position :=
  match ahead p with
  | c :: rest =>
      if accepts c
      then Some (mkPosition (c :: consumed p) rest (capture p))
      else None
  | [] => None
  end.

(** [run r fuel p k]: match [r] at [p], then the continuation [k]; the
    first success in backtracking order wins. [fuel] bounds the
    iterations of [+], each of which consumes a character here. *)
Fixpoint run {A} (r : regex) (fuel : nat) (p : position)
    (k : position → option A) {struct r} : option A :=
  match r with
  | Digit => step is_digit p ≫= k
  | AnyChar => step (λ c, negb (is_line_terminator c)) p ≫= k
  | Char c => step (λ c', bool_decide (c' = c)) p ≫= k
  | Seq r1 r2 => run r1 fuel p (λ p1, run r2 fuel p1 k)
  | Group r1 =>
      let start := length (consumed p) in
      run r1 fuel p (λ p1,
        let matched :=
          reverse (take (length (consumed p1) - start) (consumed p1)) in
        k (mkPosition (consumed p1) (ahead p1) (Some matched)))
  | Plus r1 =>
      (fix plus (fuel : nat) (p : position) (k : position → option A)
         : option A :=
         match fuel with
         | O => None
         | S fuel' =>
             run r1 fuel' p (λ p1,
               match plus fuel' p1 k with
               | Some res => Some res
               | None => k p1
               end)
         end) fuel p k
  end.

(** A match anchored at the start of the input ([^]). *)
Definition match_start (r : regex) (input : string) : option position :=
  let cs := list_ascii_of_string input in
  run r (S (length cs)) (mkPosition [] cs None) Some.

(** [input.replace( /^r/, '$1' )] *)
Definition replace_with_group (r : regex) (input : string) : string :=
  match match_start r input with
  | Some p =>
      string_of_list_ascii (default [] (capture p) ++ ahead p)
  | None => input
  end.

End Regex.

(** [/^(\d+\.\d+).0/] *)
Definition patch_zero_pattern : Regex.regex :=
  Regex.Seq
    (Regex.Group
       (Regex.Seq (Regex.Plus Regex.Digit)
          (Regex.Seq (Regex.Char "."%char) (Regex.Plus Regex.Digit))))
    (Regex.Seq Regex.AnyChar (Regex.Char "0"%char)).

(** [options.wpVersion.replace( /^(\d+\.\d+).0/, '$1' )] *)
Definition zipVersion (wpVersion : string) : string :=
  Regex.replace_with_group patch_zero_pattern wpVersion.

Definition zipUrl (wpVersion : string) : string :=
  "https://wordpress.org/wordpress-" +:+ zipVersion wpVersion +:+ ".zip".

(* ===================================================================== *)
(** ** The outside world *)
(* ===================================================================== *)

(** The collaborators: an oracle that answers a call from the history of
    calls (the call itself last), and the pure helpers the command imports
    ([lodash], [path], [../config]). *)
Record World := mkWorld {
  completes : list call → bool;
  randomTemporaryPath : list call → string;
  parsedResults : list call → WPRawPerformanceResults;
  parsedConf : list call → gmap string json;
  kebabCase : jsstring → string;
  path_resolve : list string → string;
  path_join : list string → string;
  dirname : string;
  gitRepositoryURL : string;
  number_toString : number → string;
}.

(** Computations over the history of calls that may throw. *)
Definition M (A : Type) : Type := list call → result A * list call.

Global Instance M_ret : MRet M := λ A x h, (inr x, h).
Global Instance M_bind : MBind M := λ A B f m h,
  match m h with
  | (inl e, h') => (inl e, h')
  | (inr x, h') => f x h'
  end.

Definition lift {A} (r : result A) : M A := λ h, (r, h).

Definition when (b : bool) (m : M ()) : M () := if b then m else mret ().

(** [for ( const x of xs ) body], the loop's variables passed along. *)
Fixpoint for_of {A S} (xs : list A) (body : A → S → M S) (s : S) : M S :=
  match xs with
  | [] => mret s
  | x :: rest => s' ← body x s; for_of rest body s'
  end.

(** [rawResults[ i ] = value] on an array; the loop only ever writes at
    an index below the length or at the length itself (an append). *)
Definition array_set {A} (array : list A) (i : nat) (value : A) : list A :=
  if bool_decide (i < length array) then <[i := value]> array
  else array ++ [value].

(** [object[ name ] = value] on the own properties of a plain object
    used as a dictionary. The name ["__proto__"] is the accessor of
    [Object.prototype]: an assignment through it replaces the prototype of
    the object (or does nothing, when the value is not an object) and
    creates no own property. A later read [object[ "__proto__" ]] yields
    the prototype, not a property. *)
Definition assign {A} (object : gmap string A) (name : string) (value : A) :
    gmap string A :=
  if decide (name = "__proto__") then object else <[name := value]> object.

(** [table[ outer ][ inner ] = value], the table being read afterwards
    through its own properties ([Object.entries], [JSON.stringify]). *)
Definition set_nested {A} (table : gmap string (gmap string A))
    (outer inner : string) (value : A) : result (gmap string (gmap string A)) :=
  match table !! outer with
  | Some row => mret (<[outer := assign row inner value]> table)
  | None =>
      throw (TypeError
        ("Cannot set properties of undefined (setting '" +:+ inner +:+ "')"))
  end.

(** [array[ i ][ inner ] = value], the rows being read afterwards by
    [row[ inner ]] only: for ["__proto__"] the value becomes the prototype
    of the row, and that read returns it. A row holds what [row[ inner ]]
    returns. *)
Definition set_row {A} (array : list (gmap string A)) (i : nat)
    (inner : string) (value : A) : result (list (gmap string A)) :=
  match array !! i with
  | Some row => mret (<[i := <[inner := value]> row]> array)
  | None =>
      throw (TypeError
        ("Cannot set properties of undefined (setting '" +:+ inner +:+ "')"))
  end.

Section Command.

Context (W : World).

(** An awaited call: it is recorded, then it completes or rejects. *)
Definition perform (c : call) : M () := λ h,
  let h' := h ++ [c] in
  if completes W h' then (inr (), h') else (inl (Rejected c), h').

(** A call whose promise is dropped: recorded, its outcome unobserved. *)
Definition detached (c : call) : M () := λ h, (inr (), h ++ [c]).

Definition runShellScript (script : string) (cwd : jsstring) : M () :=
  perform (RunShellScript script cwd).

Definition askForConfirmation (message : string) : M () :=
  perform (AskForConfirmation message).

Definition getRandomTemporaryPath : M string := λ h,
  let h' := h ++ [GetRandomTemporaryPath] in
  (inr (randomTemporaryPath W h'), h').

(** [readJSONFile( fileName )] where a result bundle is expected. *)
Definition readJSONFile_results (fileName : string)
  : M WPRawPerformanceResults := λ h,
  let h' := h ++ [ReadJSONFile fileName] in
  if completes W h' then (inr (parsedResults W h'), h')
  else (inl (Rejected (ReadJSONFile fileName)), h').

(** [readJSONFile( fileName )] where a configuration is expected. *)
Definition readJSONFile_conf (fileName : string)
  : M (gmap string json) := λ h,
  let h' := h ++ [ReadJSONFile fileName] in
  if completes W h' then (inr (parsedConf W h'), h')
  else (inl (Rejected (ReadJSONFile fileName)), h').

Definition gitRaw (baseDir : string) (args : list jsstring) : M () :=
  perform (GitRaw baseDir args).

(** [async function runTestSuite( testSuite, performanceTestDirectory )] *)
Definition runTestSuite (testSuite performanceTestDirectory : string)
  : M WPPerformanceResults :=
  runShellScript
    ("npm run test:performance -- packages/e2e-tests/specs/performance/"
       +:+ testSuite +:+ ".test.js")
    (Some performanceTestDirectory);;
  rawResults ← readJSONFile_results
    (path_join W
       [ performanceTestDirectory;
         "packages/e2e-tests/specs/performance/"
           +:+ testSuite +:+ ".test.results.json" ]);
  lift (curateResults rawResults).

(** *** [runPerformanceTests], step by step *)

Record WPPerformanceCommandOptions := mkOptions {
  ci : option bool;
  testsBranch : jsstring;
  wpVersion : jsstring;
}.

(** [process.env] *)
Record ProcessEnv := mkEnv {
  CI : jsstring;
  GITHUB_SHA : jsstring;
  GITHUB_BASE_REF : jsstring;
}.

(** The refs to compare (lines 178-204, the prompt apart). *)
Definition resolveRefs (env : ProcessEnv) (branches : list string)
  : list jsstring :=
  let branchesWereSpecified := bool_decide (0 < length branches) in
  let runningInCI := truthy (CI env) in
  let inferTestBranches := runningInCI && negb branchesWereSpecified in
  let mergeRef := GITHUB_SHA env in
  let baseRef := GITHUB_BASE_REF env in
  let branches :=
    if bool_decide (length branches = 0) then ["trunk"] else branches in
  if inferTestBranches then [mergeRef; baseRef] else Some <$> branches.

(** The guard on the number of refs. *)
Definition checkRefs (refs : list jsstring) : M () :=
  if bool_decide (length refs <= 0)
  then lift (throw (Error
         ("Need at least two git refs to run: given " +:+ join ", " refs)))
  else mret ().

(** 1- Preparing the tests directory: the clone, then the copy that
    holds the performance tests. Returns [baseDirectory],
    [rootDirectory] and [performanceTestDirectory]. *)
Definition prepareTestsDirectory (refs : list jsstring)
  : M (string * string * string) :=
  baseDirectory ← getRandomTemporaryPath;
  perform (MkdirSync baseDirectory);;
  detached (RunShellScript ("cd " +:+ baseDirectory) None);;
  gitRaw baseDirectory [Some "init"];;
  gitRaw baseDirectory
    [Some "remote"; Some "add"; Some "origin"; Some (gitRepositoryURL W)];;
  for_of refs (λ ref _,
    gitRaw baseDirectory
      [Some "fetch"; Some "--depth=1"; Some "origin"; ref]) ();;
  gitRaw baseDirectory [Some "checkout"; mjoin (refs !! 0%nat)];;
  rootDirectory ← getRandomTemporaryPath;
  let performanceTestDirectory := rootDirectory +:+ "/tests" in
  runShellScript ("mkdir -p " +:+ rootDirectory) None;;
  runShellScript
    ("cp -R " +:+ baseDirectory +:+ " " +:+ performanceTestDirectory) None;;
  runShellScript "npm ci && npm run build:packages"
    (Some performanceTestDirectory);;
  runShellScript ("mkdir -p " +:+ rootDirectory +:+ "/envs") None;;
  mret (baseDirectory, rootDirectory, performanceTestDirectory).

(** The patch of [.wp-env.json] when [options.wpVersion] is given
    (lines 276-304). *)
Definition patchConf (wpVersion : string) (conf : gmap string json)
  : gmap string json :=
  <["core" := JString (zipUrl wpVersion)]> conf.

Definition useWordPressVersion (options : WPPerformanceCommandOptions)
    (environmentDirectory : string) : M () :=
  if truthy (wpVersion options) then
    let confPath := environmentDirectory +:+ "/.wp-env.json" in
    original ← readJSONFile_conf confPath;
    let conf := patchConf (default "" (wpVersion options)) original in
    perform (WriteFileSync confPath (StringifiedConf conf))
  else mret ().

(** 2- Preparing the environment directory of one branch (the body of
    the loop of lines 247-305). *)
Definition prepareEnvironment (options : WPPerformanceCommandOptions)
    (baseDirectory rootDirectory performanceTestDirectory : string)
    (ref : jsstring) (branchDirectories : gmap string string)
  : M (gmap string string) :=
  let environmentDirectory :=
    rootDirectory +:+ "/envs/" +:+ kebabCase W ref in
  let branchDirectories :=
    assign branchDirectories (key ref) environmentDirectory in
  runShellScript ("mkdir " +:+ environmentDirectory) None;;
  runShellScript
    ("cp -R " +:+ baseDirectory +:+ " "
       +:+ environmentDirectory +:+ "/plugin") None;;
  perform (GitReset (environmentDirectory +:+ "/plugin") "hard");;
  perform (GitCheckout (environmentDirectory +:+ "/plugin") ref);;
  runShellScript "npm ci && npm run build" (Some environmentDirectory);;
  runShellScript
    ("cp "
       +:+ path_resolve W
             [ performanceTestDirectory;
               "bin/plugin/utils/.wp-env.performance.json" ]
       +:+ " " +:+ environmentDirectory +:+ "/.wp-env.json") None;;
  useWordPressVersion options environmentDirectory;;
  mret branchDirectories.

(** 4- Running the tests. *)

Definition testSuites : list string := ["post-editor"; "site-editor"].

Definition startCommand : string :=
  "../../tests/node_modules/.bin/wp-env start".
Definition stopCommand : string :=
  "../../tests/node_modules/.bin/wp-env stop".

(** One suite execution: the body of the innermost loop
    (lines 335-352). *)
Definition runOnBranch (branchDirectories : gmap string string)
    (performanceTestDirectory testSuite : string) (i : nat)
    (ref : jsstring) (rawResults : list (gmap string WPPerformanceResults))
  : M (list (gmap string WPPerformanceResults)) :=
  let environmentDirectory := branchDirectories !! key ref in
  runShellScript startCommand environmentDirectory;;
  curated ← runTestSuite testSuite performanceTestDirectory;
  rawResults ← lift (set_row rawResults i (key ref) curated);
  runShellScript stopCommand environmentDirectory;;
  mret rawResults.

(** [for ( let i = 0; i < 3; i++ )] (lines 330-354): returns
    [rawResults]. *)
Definition runRounds (refs : list jsstring)
    (branchDirectories : gmap string string)
    (performanceTestDirectory testSuite : string)
  : M (list (gmap string WPPerformanceResults)) :=
  for_of (seq 0 3) (λ i rawResults,
    let rawResults := array_set rawResults i ∅ in
    for_of refs
      (runOnBranch branchDirectories performanceTestDirectory testSuite i)
      rawResults) [].

(** The object literal of lines 359-414: per metric, the values of the
    rounds, [rows] being the [r[ ref ]] of each round [r]. *)
Definition columns (rows : list WPPerformanceResults)
  : PerMetric (list number) :=
  {| serverResponse := serverResponse <$> rows;
     firstPaint := firstPaint <$> rows;
     domContentLoaded := domContentLoaded <$> rows;
     loaded := loaded <$> rows;
     firstContentfulPaint := firstContentfulPaint <$> rows;
     firstBlock := firstBlock <$> rows;
     type := type <$> rows;
     minType := minType <$> rows;
     maxType := maxType <$> rows;
     focus := focus <$> rows;
     minFocus := minFocus <$> rows;
     maxFocus := maxFocus <$> rows;
     inserterOpen := inserterOpen <$> rows;
     minInserterOpen := minInserterOpen <$> rows;
     maxInserterOpen := maxInserterOpen <$> rows;
     inserterSearch := inserterSearch <$> rows;
     minInserterSearch := minInserterSearch <$> rows;
     maxInserterSearch := maxInserterSearch <$> rows;
     inserterHover := inserterHover <$> rows;
     minInserterHover := minInserterHover <$> rows;
     maxInserterHover := maxInserterHover <$> rows;
     listViewOpen := listViewOpen <$> rows;
     minListViewOpen := minListViewOpen <$> rows;
     maxListViewOpen := maxListViewOpen <$> rows |}.

(** The reads [r[ ref ]] of that literal; [r[ ref ].serverResponse] is
    the first to throw when a round has no entry for [ref]. *)
Definition perRound (rawResults : list (gmap string WPPerformanceResults))
    (ref : jsstring) : result (PerMetric (list number)) :=
  rows ← mapM (λ r : gmap string WPPerformanceResults,
                 property_of "serverResponse" (r !! key ref)) rawResults;
  mret (columns rows).

(** Computing medians and formatting them (lines 357-420), for one
    ref. *)
Definition computeMedians (testSuite : string)
    (rawResults : list (gmap string WPPerformanceResults))
    (ref : jsstring)
    (results : gmap string (gmap string WPPerformanceResults))
  : result (gmap string (gmap string WPPerformanceResults)) :=
  columns ← perRound rawResults ref;
  let medians := mapValues columns median in
  set_nested results testSuite (key ref) (mapValues medians formatTime).

(** The body of [for ( const testSuite of testSuites )]
    (lines 327-421). *)
Definition runSuite (refs : list jsstring)
    (branchDirectories : gmap string string)
    (performanceTestDirectory testSuite : string)
    (results : gmap string (gmap string WPPerformanceResults))
  : M (gmap string (gmap string WPPerformanceResults)) :=
  let results := <[testSuite := ∅]> results in
  rawResults ← runRounds refs branchDirectories performanceTestDirectory
                 testSuite;
  for_of refs (λ ref results,
    lift (computeMedians testSuite rawResults ref results)) results.

Definition runTests (refs : list jsstring)
    (branchDirectories : gmap string string)
    (performanceTestDirectory : string)
  : M (gmap string (gmap string WPPerformanceResults)) :=
  for_of testSuites
    (runSuite refs branchDirectories performanceTestDirectory) ∅.

(** 5- Formatting the results. *)

(** One turn of the loop over [Object.keys( val )] (lines 437-446). *)
Definition invertEntry (revision : string)
    (acc : gmap string (gmap string string)) (e : string * number)
  : gmap string (gmap string string) :=
  let '(entry, value) := e in
  let acc :=
    if negb (bool_decide (is_Some (acc !! entry))) && isFinite value
    then <[entry := ∅]> acc else acc in
  if isFinite value
  then <[entry := <[revision := number_toString W value +:+ " ms"]>
                    (default ∅ (acc !! entry))]> acc
  else acc.

(** [Object.entries( results[ testSuite ] ).reduce( ..., invertedResult )].
    A cell is written once per revision and entry, so that the order in
    which the revisions are visited does not show in the resulting map. *)
Definition invertResults (table : gmap string WPPerformanceResults)
  : gmap string (gmap string string) :=
  map_fold (λ revision val acc,
              foldl (invertEntry revision) acc (entries val)) ∅ table.

Definition reportSuite
    (results : gmap string (gmap string WPPerformanceResults))
    (testSuite : string) (_ : ()) : M () :=
  table ← lift (match results !! testSuite with
                | Some table => mret table
                | None =>
                    throw (TypeError
                             "Cannot convert undefined or null to object")
                end);
  detached (ConsoleTable (invertResults table));;
  let resultsFilename := testSuite +:+ "-performance-results.json" in
  perform (WriteFileSync
             (path_resolve W [dirname W; "../../../"; resultsFilename])
             (StringifiedResults table)).

(** [async function runPerformanceTests( branches, options )]; the
    value of the model is the [results] table. *)
Definition runPerformanceTests (env : ProcessEnv) (branches : list string)
    (options : WPPerformanceCommandOptions)
  : M (gmap string (gmap string WPPerformanceResults)) :=
  let runningInCI := truthy (CI env) in
  when (negb runningInCI) (askForConfirmation "Ready to go? ");;
  let refs := resolveRefs env branches in
  checkRefs refs;;
  '(baseDirectory, rootDirectory, performanceTestDirectory) ←
    prepareTestsDirectory refs;
  branchDirectories ←
    for_of refs
      (prepareEnvironment options baseDirectory rootDirectory
         performanceTestDirectory) ∅;
  results ← runTests refs branchDirectories performanceTestDirectory;
  for_of testSuites (reportSuite results) ();;
  mret results.

End Command.

(* ===================================================================== *)
(** ** The calls of a suite execution *)
(* ===================================================================== *)

Section Calls.

Context (W : World).

(** The calls of [runTestSuite]. *)
Definition testCommand (testSuite performanceTestDirectory : string) : call :=
  RunShellScript
    ("npm run test:performance -- packages/e2e-tests/specs/performance/"
       +:+ testSuite +:+ ".test.js")
    (Some performanceTestDirectory).

Definition readResults (testSuite performanceTestDirectory : string) : call :=
  ReadJSONFile
    (path_join W
       [ performanceTestDirectory;
         "packages/e2e-tests/specs/performance/"
           +:+ testSuite +:+ ".test.results.json" ]).

Definition startCall (branchDirectories : gmap string string)
    (ref : jsstring) : call :=
  RunShellScript startCommand (branchDirectories !! key ref).

Definition stopCall (branchDirectories : gmap string string)
    (ref : jsstring) : call :=
  RunShellScript stopCommand (branchDirectories !! key ref).

(** The calls of one suite execution that completes. *)
Definition executionCalls (branchDirectories : gmap string string)
    (performanceTestDirectory testSuite : string) (ref : jsstring)
  : list call :=
  [ startCall branchDirectories ref;
    testCommand testSuite performanceTestDirectory;
    readResults testSuite performanceTestDirectory;
    stopCall branchDirectories ref ].

(** The calls of one round: every ref, in the order of [refs]. *)
Definition roundCalls (refs : list jsstring)
    (branchDirectories : gmap string string)
    (performanceTestDirectory testSuite : string) : list call :=
  concat (executionCalls branchDirectories performanceTestDirectory
            testSuite <$> refs).

(** The calls of the three rounds of a suite. *)
Definition trialCalls (refs : list jsstring)
    (branchDirectories : gmap string string)
    (performanceTestDirectory testSuite : string) : list call :=
  roundCalls refs branchDirectories performanceTestDirectory testSuite
  ++ roundCalls refs branchDirectories performanceTestDirectory testSuite
  ++ roundCalls refs branchDirectories performanceTestDirectory testSuite.

(** The history at which the execution for the [j]-th ref of round [i]
    runs its test, the suite's rounds having begun at [before]. *)
Definition testPoint (refs : list jsstring)
    (branchDirectories : gmap string string)
    (performanceTestDirectory testSuite : string)
    (before : list call) (i j : nat) (ref : jsstring) : list call :=
  before
  ++ concat (replicate i (roundCalls refs branchDirectories
                            performanceTestDirectory testSuite))
  ++ roundCalls (take j refs) branchDirectories performanceTestDirectory
       testSuite
  ++ [startCall branchDirectories ref].

End Calls.

(* ===================================================================== *)
(** ** Metric names, observations on runs, sample inputs *)
(* ===================================================================== *)

(** The twelve metrics of a result bundle. *)
Definition metric_names : list string :=
  [ "serverResponse"; "firstPaint"; "domContentLoaded"; "loaded";
    "firstContentfulPaint"; "firstBlock"; "type"; "focus"; "inserterOpen";
    "inserterSearch"; "inserterHover"; "listViewOpen" ].

(** The six metrics that also get a minimum and a maximum. *)
Definition minmax_names : list string :=
  [ "type"; "focus"; "inserterOpen"; "inserterSearch"; "inserterHover";
    "listViewOpen" ].

(** The keys of a curated bundle, in the order of the object literal. *)
Definition curated_keys : list string :=
  [ "serverResponse"; "firstPaint"; "domContentLoaded"; "loaded";
    "firstContentfulPaint"; "firstBlock";
    "type"; "minType"; "maxType";
    "focus"; "minFocus"; "maxFocus";
    "inserterOpen"; "minInserterOpen"; "maxInserterOpen";
    "inserterSearch"; "minInserterSearch"; "maxInserterSearch";
    "inserterHover"; "minInserterHover"; "maxInserterHover";
    "listViewOpen"; "minListViewOpen"; "maxListViewOpen" ].

(** [name] with its first letter in upper case, after [prefix]. *)
Definition prefixed (prefix name : string) : string :=
  match name with
  | EmptyString => prefix
  | String c rest =>
      let n := nat_of_ascii c in
      let upper :=
        if (97 <=? n)%nat && (n <=? 122)%nat then ascii_of_nat (n - 32) else c in
      prefix +:+ String upper rest
  end.

Definition min_key : string → string := prefixed "min".
Definition max_key : string → string := prefixed "max".

(** A bundle with the same samples under every metric. *)
Definition uniform_bundle (samples : list number) : WPRawPerformanceResults :=
  list_to_map ((λ name, (name, samples)) <$> metric_names).

(** The computation returned rather than threw. *)
Definition succeeded {A} (r : result A) : bool :=
  match r with
  | inr _ => true
  | inl _ => false
  end.

(** The run returned a value, and the value satisfies [P]. *)
Definition returns {A} (run : result A * list call) (P : A → Prop) : Prop :=
  ∃ x, run.1 = inr x ∧ P x.

Global Instance returns_dec {A} (run : result A * list call) (P : A → Prop)
  `{∀ x, Decision (P x)} : Decision (returns run P).
Proof.
  unfold returns. destruct run.1 as [e|x].
  - right. intros (x & Hx & _). discriminate.
  - destruct (decide (P x)) as [HP|HP].
    + left. by exists x.
    + right. intros (y & Hy & HPy). by injection Hy as ->.
Defined.

(** The calls that start, and that stop, an environment. *)
Definition is_start (c : call) : bool :=
  match c with
  | RunShellScript script _ => bool_decide (script = startCommand)
  | _ => false
  end.

Definition is_stop (c : call) : bool :=
  match c with
  | RunShellScript script _ => bool_decide (script = stopCommand)
  | _ => false
  end.

(** A world in which every call completes; suites report two samples per
    metric, the first of them the number of calls made so far. *)
Definition calm_world : World :=
  {| completes := λ _, true;
     randomTemporaryPath := λ h,
       "/tmp/" +:+ string_of_list_ascii (replicate (length h) "x"%char);
     parsedResults := λ h, uniform_bundle [of_nat (length h); of_nat 20];
     parsedConf := λ _, {[ "core" := JString "WordPress/WordPress" ]};
     kebabCase := λ v, default "" v;
     path_resolve := λ parts, foldr (λ a b, a +:+ "/" +:+ b) "" parts;
     path_join := λ parts, foldr (λ a b, a +:+ "/" +:+ b) "" parts;
     dirname := "/repo/bin/plugin/commands";
     gitRepositoryURL := "https://github.com/WordPress/gutenberg.git";
     number_toString := λ _, "n" |}.

(** The same world, except that the performance test command fails. *)
Definition failing_tests_world : World :=
  {| completes := λ h,
       match head (reverse h) with
       | Some (RunShellScript script _) =>
           negb (String.prefix "npm run test:performance" script)
       | _ => true
       end;
     randomTemporaryPath := randomTemporaryPath calm_world;
     parsedResults := parsedResults calm_world;
     parsedConf := parsedConf calm_world;
     kebabCase := kebabCase calm_world;
     path_resolve := path_resolve calm_world;
     path_join := path_join calm_world;
     dirname := dirname calm_world;
     gitRepositoryURL := gitRepositoryURL calm_world;
     number_toString := number_toString calm_world |}.

(** Two refs and their environment directories. *)
Definition two_refs : list jsstring := [Some "trunk"; Some "feature-x"].
Definition two_dirs : gmap string string :=
  {[ "trunk" := "/envs/trunk"; "feature-x" := "/envs/feature-x" ]}.

(** A ref named [__proto__] beside [trunk], and the directories the
    preparation leaves for them. *)
Definition proto_refs : list jsstring := [Some "trunk"; Some "__proto__"].
Definition proto_dirs : gmap string string := {[ "trunk" := "/envs/trunk" ]}.

(** Outside CI, no option given. *)
Definition local_env : ProcessEnv := mkEnv None None None.
Definition no_options : WPPerformanceCommandOptions := mkOptions None None None.

(* ===================================================================== *)
(** ** Notions the specification uses *)
(* ===================================================================== *)

(** Rounding half away from zero, as the specification words it. *)
Definition round_half_away (q : Qc) : Z :=
  if bool_decide (0 <= q)%Qc
  then Qfloor (q + Q2Qc (1 # 2))%Qc
  else (- Qfloor (- q + Q2Qc (1 # 2))%Qc)%Z.

(** [formatTime] as the specification words it: scale by 100, round half
    away from zero, divide by 100, with the product and the quotient of
    the code. *)
Definition formatTime_half_away (q : Qc) : number :=
  match (Fin q * Math.pow10 2)%js with
  | Fin p => (of_Z (round_half_away p) / Math.pow10 2)%js
  | product => (product / Math.pow10 2)%js
  end.

(** A time of at most [10^12] milliseconds in magnitude, or one of the
    special values; [fixed_bound] is that bound in hundredths. *)
Definition moderate (x : number) : Prop :=
  match x with
  | Fin q =>
      (Q2Qc (inject_Z (- 10 ^ 12)) <= q)%Qc ∧ (q <= Q2Qc (inject_Z (10 ^ 12)))%Qc
  | _ => True
  end.

Global Instance moderate_dec x : Decision (moderate x).
Proof. destruct x; simpl; apply _. Defined.

Definition fixed_bound : Z := 10 ^ 14.

(** Ascending order on numbers. *)
Definition ascending (a b : number) : Prop := Num.leb a b = true.

Global Instance ascending_dec a b : Decision (ascending a b).
Proof. unfold ascending. apply _. Defined.

(** A number that is not [NaN]. *)
Definition numeric (x : number) : Prop := x ≠ NaN.

(** The arithmetic mean of rationals. *)
Definition arithmetic_mean (qs : list Qc) : Qc :=
  (foldr Qcplus 0 qs / Q2Qc (inject_Z (Z.of_nat (length qs))))%Qc.

(** No step of the sum of [qs], added from left to right to [acc],
    rounds; no step of the average rounds, the division included. *)
Fixpoint exact_sum (acc : Qc) (qs : list Qc) : Prop :=
  match qs with
  | [] => True
  | q :: qs =>
      Binary64.round_sum (acc + q)%Qc = Fin (acc + q)%Qc
      ∧ exact_sum (acc + q)%Qc qs
  end.

Global Instance exact_sum_dec acc qs : Decision (exact_sum acc qs).
Proof. revert acc. induction qs as [|q qs IH]; intros acc; simpl; apply _. Defined.

Definition exact_average (qs : list Qc) : Prop :=
  exact_sum 0%Qc qs
  ∧ Binary64.round (arithmetic_mean qs) = Fin (arithmetic_mean qs).

Global Instance exact_average_dec qs : Decision (exact_average qs).
Proof. unfold exact_average. apply _. Defined.

(** The binary64 value of the literal [0.1]. *)
Definition tenth : Qc := Q2Qc (3602879701896397 # 36028797018963968).

(** [m] is the least (the greatest) element of [qs]. *)
Definition is_minimum (m : Qc) (qs : list Qc) : Prop :=
  m ∈ qs ∧ ∀ q, q ∈ qs → (m <= q)%Qc.
Definition is_maximum (m : Qc) (qs : list Qc) : Prop :=
  m ∈ qs ∧ ∀ q, q ∈ qs → (q <= m)%Qc.

(** A string written in ASCII: every character is below 128. There a
    character of the string is a character (a UTF-16 code unit) of the
    JavaScript string, whichever encoding the string is read in. *)
Definition ascii_only (s : string) : Prop :=
  Forall (λ c, (nat_of_ascii c < 128)%nat) (list_ascii_of_string s).

Global Instance ascii_only_dec s : Decision (ascii_only s).
Proof. unfold ascii_only. apply _. Defined.

(** A string of decimal digits. *)
Definition digits (cs : list ascii) : Prop :=
  Forall (λ c, Regex.is_digit c = true) cs.

(** The next character, if there is one, is not a digit. *)
Definition not_digit_ahead (rest : list ascii) : Prop :=
  match rest with
  | c :: _ => Regex.is_digit c = false
  | [] => True
  end.

(** [invertedResult[ entry ][ revision ]], absent when either level is. *)
Definition cell (view : gmap string (gmap string string))
    (entry revision : string) : option string :=
  view !! entry ≫= (.!! revision).

(** A curation error identifies the absent metric: some reading
    [name_of] of the error always yields a required metric that the bundle
    lacks. *)
Definition identifies_missing_metric (name_of : exn → string) : Prop :=
  ∀ results : WPRawPerformanceResults,
    (∃ name, name ∈ metric_names ∧ results !! name = None) →
    ∃ e, curateResults results = inl e
         ∧ name_of e ∈ metric_names
         ∧ results !! name_of e = None.

(** The error [undefined.reduce] raises. *)
Definition missing_reduce : exn :=
  TypeError "Cannot read properties of undefined (reading 'reduce')".

(* ===================================================================== *)
(** ** Observations on the stages of the command *)
(* ===================================================================== *)

(** The calls by what they are for. *)
Inductive kind :=
  | Prompt
  | Temporary
  | Git
  | Shell
  | Start
  | Stop
  | Read
  | Configure
  | Report.

Global Instance kind_eq_dec : EqDecision kind.
Proof. solve_decision. Defined.

Definition kind_of (c : call) : kind :=
  match c with
  | AskForConfirmation _ => Prompt
  | GetRandomTemporaryPath | MkdirSync _ => Temporary
  | RunShellScript _ _ =>
      if is_start c then Start else if is_stop c then Stop else Shell
  | GitRaw _ _ | GitReset _ _ | GitCheckout _ _ => Git
  | ReadJSONFile _ => Read
  | WriteFileSync _ (StringifiedConf _) => Configure
  | WriteFileSync _ (StringifiedResults _) | ConsoleTable _ => Report
  end.

(** Calls of one of the kinds [ks] only. *)
Definition of_kinds (ks : list kind) (calls : list call) : Prop :=
  Forall (λ c, kind_of c ∈ ks) calls.

(** How many environments the calls start, and stop. *)
Definition starts (calls : list call) : nat :=
  length (filter (λ c, is_start c) calls).
Definition stops (calls : list call) : nat :=
  length (filter (λ c, is_stop c) calls).

(** A failure as the command lets it through: the rejection of the call
    made last, or the [TypeError] of [curateResults] on the result file
    read last, which lacks a metric. *)
Definition failure (W : World) (e : exn) (h : list call) : Prop :=
  (∃ c, e = Rejected c ∧ head (reverse h) = Some c ∧ completes W h = false)
  ∨ (e = missing_reduce
     ∧ (∃ fileName, head (reverse h) = Some (ReadJSONFile fileName))
     ∧ ∃ name, name ∈ metric_names ∧ parsedResults W h !! name = None).

(** Run from the history [h], the computation [m] adds calls that satisfy
    [Ok] when it returns and [Err] when it throws, and what it throws is a
    [failure]. *)
Definition conforms {A} (W : World) (Ok Err : list call → Prop)
    (m : M A) (h : list call) : Prop :=
  ∃ added,
    (m h).2 = h ++ added
    ∧ match (m h).1 with
      | inr _ => Ok added
      | inl e => Err added ∧ failure W e (h ++ added)
      end.

(** The prompt, which only a run outside CI makes. *)
Definition promptCalls (env : ProcessEnv) : list call :=
  if truthy (CI env) then [] else [AskForConfirmation "Ready to go? "].

(** The kinds of calls of the preparation (steps 1 and 2): the
    configuration is read and written only when a WordPress version is
    asked for. *)
Definition provisionKinds (options : WPPerformanceCommandOptions)
  : list kind :=
  if truthy (wpVersion options)
  then [Temporary; Git; Shell; Read; Configure]
  else [Temporary; Git; Shell].

(** The kinds of calls of the trial loop (step 4). *)
Definition trialKinds : list kind := [Start; Shell; Read; Stop].

(** The file a suite's results are written to. *)
Definition resultsFile (W : World) (testSuite : string) : string :=
  path_resolve W
    [ dirname W; "../../../"; testSuite +:+ "-performance-results.json" ].

(** The calls that report a suite (step 5). *)
Definition reportCalls (W : World)
    (results : gmap string (gmap string WPPerformanceResults))
    (testSuite : string) : list call :=
  match results !! testSuite with
  | Some table =>
      [ ConsoleTable (invertResults W table);
        WriteFileSync (resultsFile W testSuite) (StringifiedResults table) ]
  | None => []
  end.

(** Whether an environment is running after the calls, given whether one
    was running before them; [None] when the calls start an environment
    while one is running, or stop one while none is. *)
Fixpoint running_after (running : bool) (calls : list call) : option bool :=
  match calls with
  | [] => Some running
  | c :: rest =>
      if is_start c
      then if running then None else running_after true rest
      else if is_stop c
      then if running then running_after false rest else None
      else running_after running rest
  end.

(** The calls start and stop environments in turn, and leave none
    running; or leave at most one running. *)
Definition all_stopped (calls : list call) : Prop :=
  running_after false calls = Some false.
Definition one_running_at_most (calls : list call) : Prop :=
  is_Some (running_after false calls).

(** What the trial loop adds when it returns, and when it throws. *)
Definition trialsOk (calls : list call) : Prop :=
  of_kinds trialKinds calls ∧ all_stopped calls.
Definition trialsErr (calls : list call) : Prop :=
  of_kinds trialKinds calls ∧ one_running_at_most calls.

(** A world in which the user declines the prompt. *)
Definition declining_world : World :=
  {| completes := λ h,
       match head (reverse h) with
       | Some (AskForConfirmation _) => false
       | _ => true
       end;
     randomTemporaryPath := randomTemporaryPath calm_world;
     parsedResults := parsedResults calm_world;
     parsedConf := parsedConf calm_world;
     kebabCase := kebabCase calm_world;
     path_resolve := path_resolve calm_world;
     path_join := path_join calm_world;
     dirname := dirname calm_world;
     gitRepositoryURL := gitRepositoryURL calm_world;
     number_toString := number_toString calm_world |}.

(** The directory of the environment of a ref. *)
Definition environmentDirectoryOf (W : World) (rootDirectory : string)
    (ref : jsstring) : string :=
  rootDirectory +:+ "/envs/" +:+ kebabCase W ref.

(** The shallow fetch of a ref into the clone. *)
Definition fetchCall (baseDirectory : string) (ref : jsstring) : call :=
  GitRaw baseDirectory
    [Some "fetch"; Some "--depth=1"; Some "origin"; ref].

(** The calls that prepare the tests directory (step 1), when they all
    complete. *)
Definition testsDirectoryCalls (W : World) (refs : list jsstring)
    (baseDirectory rootDirectory : string) : list call :=
  [ GetRandomTemporaryPath;
    MkdirSync baseDirectory;
    RunShellScript ("cd " +:+ baseDirectory) None;
    GitRaw baseDirectory [Some "init"];
    GitRaw baseDirectory
      [Some "remote"; Some "add"; Some "origin"; Some (gitRepositoryURL W)] ]
  ++ (fetchCall baseDirectory <$> refs)
  ++ [ GitRaw baseDirectory [Some "checkout"; mjoin (refs !! 0%nat)];
       GetRandomTemporaryPath;
       RunShellScript ("mkdir -p " +:+ rootDirectory) None;
       RunShellScript
         ("cp -R " +:+ baseDirectory +:+ " " +:+ rootDirectory +:+ "/tests")
         None;
       RunShellScript "npm ci && npm run build:packages"
         (Some (rootDirectory +:+ "/tests"));
       RunShellScript ("mkdir -p " +:+ rootDirectory +:+ "/envs") None ].

(** A curated bundle with the same value under every key. *)
Definition uniform_results (value : number) : WPPerformanceResults :=
  mapValues (columns []) (λ _, value).

(* ===================================================================== *)
(** * Properties *)
(* ===================================================================== *)

(** ** Arithmetic of the number model *)

(** *** Rounding to binary64 *)

Local Open Scope Q_scope.

Lemma nearest_even_near (x : Q) :
  inject_Z (Binary64.nearest_even x) - (1 # 2) <= x
  ∧ x <= inject_Z (Binary64.nearest_even x) + (1 # 2).
Proof.
  unfold Binary64.nearest_even.
  pose proof (Qfloor_le x) as Hle.
  pose proof (Qlt_floor x) as Hlt.
  rewrite inject_Z_plus in Hlt. change (inject_Z 1) with 1 in Hlt.
  destruct (Qcompare_spec (x - inject_Z (Qfloor x)) (1 # 2)) as [H|H|H].
  - destruct (Z.even (Qfloor x)); rewrite ?inject_Z_plus;
      change (inject_Z 1) with 1; split; lra.
  - split; lra.
  - rewrite inject_Z_plus. change (inject_Z 1) with 1. split; lra.
Qed.

Lemma nearest_even_mono (x y : Q) :
  x <= y → (Binary64.nearest_even x <= Binary64.nearest_even y)%Z.
Proof.
  intros Hxy. unfold Binary64.nearest_even.
  pose proof (Qfloor_resp_le x y Hxy) as Hf.
  pose proof (Qfloor_le x) as Hlx. pose proof (Qlt_floor x) as Hux.
  pose proof (Qfloor_le y) as Hly. pose proof (Qlt_floor y) as Huy.
  destruct (Z.eq_dec (Qfloor x) (Qfloor y)) as [E|E].
  - rewrite <- E in *.
    destruct (Qcompare_spec (x - inject_Z (Qfloor x)) (1 # 2)) as [Hx|Hx|Hx];
      destruct (Qcompare_spec (y - inject_Z (Qfloor x)) (1 # 2)) as [Hy|Hy|Hy];
      try (destruct (Z.even (Qfloor x))); try lia; exfalso; lra.
  - assert (Qfloor x + 1 <= Qfloor y)%Z by lia.
    destruct (x - inject_Z (Qfloor x) ?= 1 # 2);
      destruct (y - inject_Z (Qfloor y) ?= 1 # 2);
      try (destruct (Z.even (Qfloor x))); try (destruct (Z.even (Qfloor y)));
      lia.
Qed.

Lemma nearest_even_Z (n : Z) : Binary64.nearest_even (inject_Z n) = n.
Proof.
  unfold Binary64.nearest_even. rewrite Qfloor_Z.
  destruct (Qcompare_spec (inject_Z n - inject_Z n) (1 # 2)) as [H|H|H];
    [exfalso; lra | done | exfalso; lra].
Qed.

Lemma pow2_pos (e : Z) : 0 < 2 ^ e.
Proof. by apply Qpower_0_lt. Qed.

Lemma pow2_plus (a b : Z) : 2 ^ (a + b) == 2 ^ a * 2 ^ b.
Proof. by apply Qpower_plus. Qed.

Lemma pow2_succ (a : Z) : 2 ^ (a + 1) == 2 * 2 ^ a.
Proof. rewrite pow2_plus. change (2 ^ 1) with 2. ring. Qed.

Lemma pow2_le (a b : Z) : (a <= b)%Z → 2 ^ a <= 2 ^ b.
Proof. intros H. by apply Qpower_le_compat_l. Qed.

Lemma pow2_Z (a : Z) : (0 <= a)%Z → inject_Z (2 ^ a) == 2 ^ a.
Proof. intros H. by rewrite Zpower_Qpower. Qed.

Lemma ilog2_spec (x : Q) :
  0 < x → 2 ^ Binary64.ilog2 x <= x ∧ x < 2 ^ (Binary64.ilog2 x + 1).
Proof.
  intros Hx. unfold Binary64.ilog2.
  destruct x as [n d]. cbn [Qnum Qden].
  assert (0 < n)%Z as Hn by (unfold Qlt in Hx; simpl in Hx; lia).
  pose proof (Z.log2_spec n Hn) as [Hn1 Hn2].
  pose proof (Z.log2_spec (Z.pos d) (Pos2Z.is_pos d)) as [Hd1 Hd2].
  pose proof (Z.log2_nonneg n) as Ha. pose proof (Z.log2_nonneg (Z.pos d)) as Hb.
  set (a := Z.log2 n) in *. set (b := Z.log2 (Z.pos d)) in *.
  assert (n # d == inject_Z n / inject_Z (Z.pos d)) as Hq by apply Qmake_Qdiv.
  assert (0 < inject_Z (Z.pos d)) as Hdpos
    by (unfold Qlt; simpl; lia).
  assert ((n # d) * inject_Z (Z.pos d) == inject_Z n) as Hmul.
  { rewrite Hq. field. lra. }
  rewrite Zle_Qle in Hn1, Hd1. rewrite Zlt_Qlt in Hn2, Hd2.
  rewrite <- Z.add_1_r in Hn2, Hd2.
  rewrite pow2_Z in Hn1, Hd1, Hn2, Hd2 by lia.
  assert (2 ^ a == 2 ^ (a - b) * 2 ^ b) as Hab
    by (rewrite <- pow2_plus; f_equiv; lia).
  pose proof (pow2_succ a) as Ha1. pose proof (pow2_succ b) as Hb1.
  pose proof (pow2_succ (a - b)) as Hk1.
  assert (2 ^ (a - b) == 2 * 2 ^ (a - b - 1)) as Hk0.
  { rewrite <- pow2_succ. f_equiv. lia. }
  pose proof (pow2_pos a). pose proof (pow2_pos b). pose proof (pow2_pos (a - b)).
  pose proof (pow2_pos (a - b - 1)).
  set (x := n # d) in *.
  destruct (Qle_bool (2 ^ (a - b)) x) eqn:Hcmp.
  - apply Qle_bool_iff in Hcmp. split; [exact Hcmp|].
    rewrite Hk1. nra.
  - assert (x < 2 ^ (a - b)) as Hlt.
    { apply Qnot_le_lt. intros Hle. apply Qle_bool_iff in Hle. congruence. }
    replace (a - b - 1 + 1)%Z with (a - b)%Z by lia.
    split; [|exact Hlt]. nra.
Qed.

Lemma ilog2_mono (x y : Q) :
  0 < x → x <= y → (Binary64.ilog2 x <= Binary64.ilog2 y)%Z.
Proof.
  intros Hx Hxy.
  destruct (ilog2_spec x Hx) as [Hx1 _].
  destruct (ilog2_spec y) as [_ Hy2]; [lra|].
  destruct (Z_le_gt_dec (Binary64.ilog2 x) (Binary64.ilog2 y)) as [H|H]; [done|].
  pose proof (pow2_le (Binary64.ilog2 y + 1) (Binary64.ilog2 x)) as Hp.
  exfalso. specialize (Hp ltac:(lia)). lra.
Qed.

Lemma exponent_mono (x y : Q) :
  0 < x → x <= y → (Binary64.exponent x <= Binary64.exponent y)%Z.
Proof.
  intros Hx Hxy. unfold Binary64.exponent.
  pose proof (ilog2_mono x y Hx Hxy). lia.
Qed.

(** The significand has at most 53 bits, and exactly 53 above the
    subnormal range. *)
Lemma significand_upper (x : Q) :
  0 < x → (Binary64.nearest_even (x / 2 ^ Binary64.exponent x) <= 2 ^ 53)%Z.
Proof.
  intros Hx. rewrite <- (nearest_even_Z (2 ^ 53)).
  apply nearest_even_mono.
  apply Qle_shift_div_r; [apply pow2_pos|].
  destruct (ilog2_spec x Hx) as [_ Hup].
  pose proof (pow2_le (Binary64.ilog2 x + 1) (53 + Binary64.exponent x)) as Hp.
  rewrite (pow2_plus 53) in Hp. change (2 ^ 53) with (inject_Z (2 ^ 53)) in Hp.
  unfold Binary64.exponent in *. specialize (Hp ltac:(lia)). lra.
Qed.

Lemma significand_lower (x : Q) :
  0 < x → (-1022 <= Binary64.ilog2 x)%Z →
  (2 ^ 52 <= Binary64.nearest_even (x / 2 ^ Binary64.exponent x))%Z.
Proof.
  intros Hx Hnormal. rewrite <- (nearest_even_Z (2 ^ 52)).
  apply nearest_even_mono.
  apply Qle_shift_div_l; [apply pow2_pos|].
  destruct (ilog2_spec x Hx) as [Hlow _].
  assert (Binary64.exponent x = Binary64.ilog2 x - 52)%Z as ->
    by (unfold Binary64.exponent; lia).
  assert (2 ^ Binary64.ilog2 x == 2 ^ 52 * 2 ^ (Binary64.ilog2 x - 52)) as Hp
    by (rewrite <- pow2_plus; f_equiv; lia).
  change (2 ^ 52) with (inject_Z (2 ^ 52)) in Hp. lra.
Qed.

Lemma significand_nonneg (x : Q) (e : Z) :
  0 < x → (0 <= Binary64.nearest_even (x / 2 ^ e))%Z.
Proof.
  intros Hx. rewrite <- (nearest_even_Z 0).
  apply nearest_even_mono.
  apply Qle_shift_div_l; [apply pow2_pos|]. change (inject_Z 0) with 0. lra.
Qed.

Lemma round_positive_rounded (x : Q) :
  Binary64.round_positive x =
  if Qle_bool (2 ^ 1024) (Binary64.rounded x) then PosInf else Fin (Q2Qc (Binary64.rounded x)).
Proof. reflexivity. Qed.

Lemma rounded_mono (x y : Q) :
  0 < x → x <= y → Binary64.rounded x <= Binary64.rounded y.
Proof.
  intros Hx Hxy. unfold Binary64.rounded.
  pose proof (exponent_mono x y Hx Hxy) as He.
  pose proof (pow2_pos (Binary64.exponent x)) as Hpx.
  pose proof (pow2_pos (Binary64.exponent y)) as Hpy.
  destruct (Z.eq_dec (Binary64.exponent x) (Binary64.exponent y)) as [E|E].
  - rewrite <- E in *.
    apply Qmult_le_compat_r; [|lra].
    rewrite <- Zle_Qle. apply nearest_even_mono.
    apply Qmult_le_compat_r; [done|].
    apply Qlt_le_weak, Qinv_lt_0_compat, pow2_pos.
  - pose proof (significand_upper x Hx) as Hmx.
    assert (-1022 <= Binary64.ilog2 y)%Z as Hn
      by (unfold Binary64.exponent in *; lia).
    pose proof (significand_lower y ltac:(lra) Hn) as Hmy.
    rewrite Zle_Qle in Hmx, Hmy.
    set (mx := inject_Z (Binary64.nearest_even (x / 2 ^ Binary64.exponent x))) in *.
    set (my := inject_Z (Binary64.nearest_even (y / 2 ^ Binary64.exponent y))) in *.
    pose proof (pow2_le (Binary64.exponent x + 1) (Binary64.exponent y)) as Hp.
    specialize (Hp ltac:(lia)). rewrite pow2_succ in Hp.
    change (inject_Z (2 ^ 53)) with (2 * inject_Z (2 ^ 52)) in Hmx.
    set (c := inject_Z (2 ^ 52)) in *.
    assert (0 < c) by (subst c; reflexivity).
    clearbody mx my c.
    set (px := 2 ^ Binary64.exponent x) in *.
    set (py := 2 ^ Binary64.exponent y) in *.
    clearbody px py. nra.
Qed.

Lemma round_positive_mono (x y : Q) :
  0 < x → x <= y →
  Num.leb (Binary64.round_positive x) (Binary64.round_positive y) = true.
Proof.
  intros Hx Hxy. rewrite !round_positive_rounded.
  pose proof (rounded_mono x y Hx Hxy) as Hr.
  destruct (Qle_bool (2 ^ 1024) (Binary64.rounded y)) eqn:Hy.
  - by destruct (Qle_bool (2 ^ 1024) (Binary64.rounded x)).
  - destruct (Qle_bool (2 ^ 1024) (Binary64.rounded x)) eqn:Hx'.
    + apply Qle_bool_iff in Hx'.
      assert (Qle_bool (2 ^ 1024) (Binary64.rounded y) = true) as Hy'
        by (apply Qle_bool_iff; lra).
      congruence.
    + simpl. apply bool_decide_eq_true. unfold Qcle. simpl.
      by rewrite !Qred_correct.
Qed.

Lemma rounded_nonneg (x : Q) : 0 < x → 0 <= Binary64.rounded x.
Proof.
  intros Hx. unfold Binary64.rounded.
  pose proof (significand_nonneg x (Binary64.exponent x) Hx) as Hm.
  rewrite Zle_Qle in Hm. change (inject_Z 0) with 0 in Hm.
  pose proof (pow2_pos (Binary64.exponent x)). nra.
Qed.

Lemma rounded_normal_pos (x : Q) :
  0 < x → (-1022 <= Binary64.ilog2 x)%Z → 0 < Binary64.rounded x.
Proof.
  intros Hx Hn. unfold Binary64.rounded.
  pose proof (significand_lower x Hx Hn) as Hm.
  rewrite Zle_Qle in Hm.
  assert (0 < inject_Z (2 ^ 52)) by reflexivity.
  pose proof (pow2_pos (Binary64.exponent x)). nra.
Qed.

Lemma Qc_sign (q : Qc) :
  match (q ?= 0)%Qc with
  | Eq => q = 0%Qc
  | Lt => (this q < 0)%Q
  | Gt => (0 < this q)%Q
  end.
Proof.
  unfold Qccompare.
  destruct (Qcompare_spec q 0%Qc) as [H|H|H]; [by apply Qc_is_canon|done..].
Qed.

Lemma this_opp (q : Qc) : this (- q)%Qc == - this q.
Proof. simpl. apply Qred_correct. Qed.

Lemma this_Q2Qc (x : Q) : this (Q2Qc x) == x.
Proof. apply Qred_correct. Qed.

Lemma round_positive_cases (x : Q) :
  0 < x →
  Binary64.round_positive x = PosInf
  ∨ ∃ r : Qc, Binary64.round_positive x = Fin r ∧ (0 <= r)%Qc
              ∧ ((-1022 <= Binary64.ilog2 x)%Z → (0 < r)%Qc).
Proof.
  intros Hx. rewrite round_positive_rounded.
  destruct (Qle_bool (2 ^ 1024) (Binary64.rounded x)); [by left|right].
  exists (Q2Qc (Binary64.rounded x)). split_and!; [done|..].
  - unfold Qcle. rewrite !this_Q2Qc. by apply rounded_nonneg.
  - intros Hn. unfold Qclt. rewrite !this_Q2Qc.
    by apply rounded_normal_pos.
Qed.

Lemma round_mono (p q : Qc) :
  (p <= q)%Qc → Num.leb (Binary64.round p) (Binary64.round q) = true.
Proof.
  unfold Qcle. intros Hpq. unfold Binary64.round.
  pose proof (Qc_sign p) as Hp. pose proof (Qc_sign q) as Hq.
  pose proof (this_opp p) as Hop. pose proof (this_opp q) as Hoq.
  destruct (p ?= 0)%Qc, (q ?= 0)%Qc; subst;
    try (exfalso; change (this 0%Qc) with 0%Q in *; lra).
  - done.
  - destruct (round_positive_cases q Hq) as [->|(r & -> & Hr & _)]; [done|].
    by apply bool_decide_eq_true.
  - assert (0 < (- p)%Qc)%Q as Hnp by lra.
    destruct (round_positive_cases _ Hnp) as [->|(r & -> & Hr & _)]; [done|].
    apply bool_decide_eq_true. unfold Qcle in *. pose proof (this_opp r).
    change (this 0%Qc) with 0%Q in *. lra.
  - pose proof (round_positive_mono (- q)%Qc (- p)%Qc) as Hm.
    specialize (Hm ltac:(lra) ltac:(lra)).
    assert (0 < (- p)%Qc)%Q as Hnp by lra.
    assert (0 < (- q)%Qc)%Q as Hnq by lra.
    destruct (round_positive_cases _ Hnq) as [Eq|(r & Eq & _)];
      destruct (round_positive_cases _ Hnp) as [Ep|(s & Ep & _)];
      rewrite Eq, Ep in *; try done.
    simpl in Hm. apply bool_decide_eq_true in Hm.
    apply bool_decide_eq_true. unfold Qcle in *.
    pose proof (this_opp r). pose proof (this_opp s). lra.
  - assert (0 < (- p)%Qc)%Q as Hnp by lra.
    destruct (round_positive_cases _ Hnp) as [->|(r & -> & Hr & _)];
      destruct (round_positive_cases q Hq) as [->|(s & -> & Hs & _)]; try done.
    apply bool_decide_eq_true. unfold Qcle in *. pose proof (this_opp r).
    change (this 0%Qc) with 0%Q in *. lra.
  - by apply round_positive_mono.
Qed.

Lemma ilog2_normal (x : Q) :
  2 ^ (-1022) <= x → (-1022 <= Binary64.ilog2 x)%Z.
Proof.
  intros Hx. pose proof (pow2_pos (-1022)) as Hpos.
  destruct (ilog2_spec x) as [_ Hup]; [lra|].
  destruct (Z_le_gt_dec (-1022) (Binary64.ilog2 x)) as [H|H]; [done|].
  pose proof (pow2_le (Binary64.ilog2 x + 1) (-1022) ltac:(lia)). lra.
Qed.

(** The sign of a sum survives its rounding. *)
Lemma round_sum_sign (q : Qc) :
  match Binary64.round_sum q with
  | Fin d => (d <= 0)%Qc ↔ (q <= 0)%Qc
  | PosInf => (0 < q)%Qc
  | NegInf => (q < 0)%Qc
  | NaN => False
  end.
Proof.
  unfold Binary64.round_sum.
  destruct (Qle_bool (2 ^ (-1022)) (Qabs q)) eqn:Hbig; [|done].
  apply Qle_bool_iff in Hbig.
  pose proof (pow2_pos (-1022)) as Hpos.
  unfold Binary64.round. pose proof (Qc_sign q) as Hq.
  destruct (q ?= 0)%Qc.
  - subst. done.
  - assert (Qabs q == - q) as Habs by (apply Qabs_neg; lra).
    pose proof (this_opp q) as Hoq.
    assert (0 < (- q)%Qc)%Q as Hnq by lra.
    destruct (round_positive_cases _ Hnq) as [->|(r & -> & _ & Hr)]; [done|].
    specialize (Hr (ilog2_normal (- q)%Qc ltac:(lra))).
    unfold Qcle, Qclt in *. pose proof (this_opp r).
    change (this 0%Qc) with 0%Q in *. split; intros; lra.
  - assert (Qabs q == q) as Habs by (apply Qabs_pos; lra).
    destruct (round_positive_cases q Hq) as [->|(r & -> & _ & Hr)]; [done|].
    specialize (Hr (ilog2_normal q ltac:(lra))).
    unfold Qcle, Qclt in *.
    change (this 0%Qc) with 0%Q in *. split; intros; lra.
Qed.

Local Close Scope Q_scope.

(** *** Rounding keeps the sign *)

Lemma round_cases (q : Qc) :
  match Binary64.round q with
  | Fin r => ((0 <= q)%Qc → (0 <= r)%Qc) ∧ ((q <= 0)%Qc → (r <= 0)%Qc)
  | PosInf => (0 < q)%Qc
  | NegInf => (q < 0)%Qc
  | NaN => False
  end.
Proof.
  unfold Binary64.round. pose proof (Qc_sign q) as Hq.
  destruct (q ?= 0)%Qc.
  - subst. done.
  - assert (0 < (- q)%Qc)%Q as Hnq by (pose proof (this_opp q); lra).
    destruct (round_positive_cases _ Hnq) as [->|(r & -> & Hr & _)]; [done|].
    unfold Qcle, Qclt in *. pose proof (this_opp r).
    change (this 0%Qc) with 0%Q in *. split; intros; lra.
  - destruct (round_positive_cases q Hq) as [->|(r & -> & Hr & _)]; [done|].
    unfold Qcle, Qclt in *.
    change (this 0%Qc) with 0%Q in *. split; intros; lra.
Qed.

Lemma round_not_NaN (q : Qc) : Binary64.round q ≠ NaN.
Proof. pose proof (round_cases q) as H. by destruct (Binary64.round q). Qed.

(** ** [formatTime] *)

(** [formatTime] on a finite number whose product with 100 is finite. *)
Lemma formatTime_Fin (q p : Qc) :
  (Fin q * Math.pow10 2)%js = Fin p →
  formatTime (Fin q) =
  Binary64.round
    (Q2Qc (inject_Z (Qfloor (p + Q2Qc (1 # 2))%Qc)) / Q2Qc 100)%Qc.
Proof. intros Hp. unfold formatTime. rewrite Hp. reflexivity. Qed.

(** When the product overflows, the infinity is the result. *)
Lemma formatTime_overflow (q : Qc) :
  isFinite (Fin q * Math.pow10 2)%js = false →
  formatTime (Fin q) = (Fin q * Math.pow10 2)%js.
Proof.
  unfold formatTime. intros Hp.
  by destruct (Fin q * Math.pow10 2)%js.
Qed.

Lemma this_plus_half (p : Qc) :
  (this (p + Q2Qc (1 # 2))%Qc == this p + (1 # 2))%Q.
Proof.
  simpl. rewrite !Qred_correct. reflexivity.
Qed.

Lemma scaled_nonneg (q : Qc) :
  (0 <= q)%Qc →
  match (Fin q * Math.pow10 2)%js with
  | Fin p => (0 <= p)%Qc
  | PosInf => True
  | _ => False
  end.
Proof.
  intros Hq. change (Fin q * Math.pow10 2)%js
    with (Binary64.round (q * Q2Qc 100)%Qc).
  pose proof (round_cases (q * Q2Qc 100)%Qc) as Hr.
  assert (0 <= q * Q2Qc 100)%Qc as Hpos.
  { replace 0%Qc with (0 * Q2Qc 100)%Qc by (apply Qc_is_canon; reflexivity).
    apply Qcmult_le_compat_r; [done|]. compute_done. }
  destruct (Binary64.round (q * Q2Qc 100)%Qc) as [p| | |]; [|done|..|done].
  - by apply Hr.
  - by apply Qclt_not_le in Hr.
Qed.

(** C8, as stated, fails on a negative tie: [-0.125] scales to [-12.5],
    which [Math.round] takes to [-12] where rounding half away from zero
    gives [-13]. *)
Lemma formatTime_negative_tie :
  formatTime (lit (-0.125)) = lit (-0.12)
  ∧ formatTime_half_away (Q2Qc (-0.125)) = lit (-0.13)
  ∧ formatTime (lit (-0.125)) ≠ formatTime_half_away (Q2Qc (-0.125)).
Proof. split_and!; compute_done. Qed.

(** C8 (amended): [formatTime] scales by 100, rounds the product to the
    nearest integer with a tie going towards +Infinity ([Math.round]) and
    divides by 100, the product and the quotient being those of binary64
    arithmetic, so that the tie is decided on the rounded product (an
    infinite product is the result); on the non-negative numbers this is
    rounding half away from zero; [formatTime(12.345)] is [12.35] and
    [formatTime(12.344)] is [12.34], and [formatTime(0.015)], whose
    product is the tie [1.5], is [0.02]. *)
Theorem formatTime_rounds (q : Qc) :
  (∀ p : Qc,
     (Fin q * Math.pow10 2)%js = Fin p →
     ∃ z : Z,
       formatTime (Fin q) = (of_Z z / Math.pow10 2)%js
       ∧ (inject_Z z - (1 # 2) <= this p)%Q
       ∧ (this p < inject_Z z + (1 # 2))%Q)
  ∧ (isFinite (Fin q * Math.pow10 2)%js = false →
       formatTime (Fin q) = (Fin q * Math.pow10 2)%js)
  ∧ ((0 <= q)%Qc → formatTime (Fin q) = formatTime_half_away q)
  ∧ formatTime (lit 12.345) = lit 12.35
  ∧ formatTime (lit 12.344) = lit 12.34
  ∧ (lit 0.015 * Math.pow10 2)%js = lit 1.5
  ∧ formatTime (lit 0.015) = lit 0.02.
Proof.
  split_and!.
  - intros p Hp. exists (Qfloor (p + Q2Qc (1 # 2))%Qc).
    split; [by apply formatTime_Fin|].
    pose proof (Qfloor_le (p + Q2Qc (1 # 2))%Qc) as Hle.
    pose proof (Qlt_floor (p + Q2Qc (1 # 2))%Qc) as Hlt.
    pose proof (this_plus_half p) as Hx.
    pose proof (inject_Z_plus (Qfloor (p + Q2Qc (1 # 2))%Qc) 1) as H1.
    set (x := this (p + Q2Qc (1 # 2))%Qc) in *.
    set (z := inject_Z (Qfloor x)) in *.
    set (z1 := inject_Z (Qfloor x + 1)) in *.
    change (inject_Z 1) with 1%Q in H1.
    clearbody z1 z x. rewrite H1 in Hlt.
    split; lra.
  - apply formatTime_overflow.
  - intros Hq. pose proof (scaled_nonneg q Hq) as Hp.
    unfold formatTime, formatTime_half_away.
    destruct (Fin q * Math.pow10 2)%js as [p| | |]; [|done..].
    cbn [Math.round]. unfold round_half_away.
    by rewrite bool_decide_eq_true_2.
  - compute_done.
  - compute_done.
  - compute_done.
  - compute_done.
Qed.

(** The number [0.125], whose product with 100 is the tie [12.5], and the
    number [2^1023], whose product with 100 overflows. *)
Lemma formatTime_rounds_witness :
  ((Fin (Q2Qc 0.125) * Math.pow10 2)%js = Fin (Q2Qc 12.5)
   ∧ (0 <= Q2Qc 0.125)%Qc
   ∧ (∃ z : Z,
        formatTime (Fin (Q2Qc 0.125)) = (of_Z z / Math.pow10 2)%js
        ∧ (inject_Z z - (1 # 2) <= this (Q2Qc 12.5))%Q
        ∧ (this (Q2Qc 12.5) < inject_Z z + (1 # 2))%Q)
   ∧ formatTime (Fin (Q2Qc 0.125)) = formatTime_half_away (Q2Qc 0.125))
  ∧ isFinite (of_Z (2 ^ 1023) * Math.pow10 2)%js = false
  ∧ formatTime (of_Z (2 ^ 1023)) = (of_Z (2 ^ 1023) * Math.pow10 2)%js.
Proof.
  assert (Hp : (Fin (Q2Qc 0.125) * Math.pow10 2)%js = Fin (Q2Qc 12.5))
    by compute_done.
  assert (Hq : (0 <= Q2Qc 0.125)%Qc) by compute_done.
  assert (Hbig : isFinite (of_Z (2 ^ 1023) * Math.pow10 2)%js = false)
    by (vm_compute; reflexivity).
  split; [split_and!; [exact Hp | exact Hq | |] | split; [exact Hbig|]].
  - exact (proj1 (formatTime_rounds (Q2Qc 0.125)) _ Hp).
  - exact (proj1 (proj2 (proj2 (formatTime_rounds (Q2Qc 0.125)))) Hq).
  - exact (proj1 (proj2 (formatTime_rounds (Q2Qc (inject_Z (2 ^ 1023))))) Hbig).
Defined.

(** ** [median] *)

Lemma Qc_sub_nonpos (x y : Qc) : (x + - y <= 0)%Qc ↔ (x <= y)%Qc.
Proof.
  unfold Qcle. simpl. rewrite !Qred_correct. split; intros; lra.
Qed.

(** The comparator on finite numbers: the rounded difference has the
    sign of the exact one. *)
Lemma by_difference_Fin (x y : Qc) :
  by_difference (Fin x) (Fin y) ↔ (x <= y)%Qc.
Proof.
  unfold by_difference.
  change (Fin x - Fin y)%js with (Binary64.round_sum (x + - y)%Qc).
  pose proof (round_sum_sign (x + - y)%Qc) as Hs.
  destruct (Binary64.round_sum (x + - y)%Qc) as [d| | |].
  - rewrite Hs. apply Qc_sub_nonpos.
  - split; [done|]. intros H. apply Qc_sub_nonpos in H.
    by apply Qclt_not_le in Hs.
  - split; [|done]. intros _. apply Qc_sub_nonpos. by apply Qclt_le_weak.
  - done.
Qed.

Lemma by_difference_ascending (a b : number) :
  numeric a → numeric b → by_difference a b ↔ ascending a b.
Proof.
  unfold numeric, ascending.
  destruct a as [x| | |], b as [y| | |]; intros Ha Hb; try done.
  rewrite by_difference_Fin. simpl. by rewrite bool_decide_eq_true.
Qed.

Global Instance by_difference_total : Total by_difference.
Proof.
  intros a b.
  destruct a as [x| | |], b as [y| | |];
    try (left; reflexivity); try (right; reflexivity).
  rewrite !by_difference_Fin.
  destruct (Qclt_le_dec x y) as [H|H]; [left | right].
  - by apply Qclt_le_weak.
  - done.
Qed.

Global Instance ascending_trans : Transitive ascending.
Proof.
  unfold ascending.
  intros [x| | |] [y| | |] [z| | |]; simpl; try done.
  rewrite !bool_decide_eq_true. apply Qcle_trans.
Qed.

Global Instance ascending_antisymm : AntiSymm (=) ascending.
Proof.
  unfold ascending.
  intros [x| | |] [y| | |]; simpl; try done.
  rewrite !bool_decide_eq_true. intros H1 H2. f_equal. by apply Qcle_antisym.
Qed.

Lemma Sorted_by_difference_ascending (l : list number) :
  Forall numeric l → Sorted by_difference l → Sorted ascending l.
Proof.
  intros Hnum Hsorted. induction Hsorted as [|x l Hl IH Hhd]; [constructor|].
  inversion_clear Hnum as [|? ? Hx Hnum'].
  constructor; [by apply IH|].
  destruct Hhd as [|y l' Hxy]; constructor.
  inversion_clear Hnum' as [|? ? Hy _].
  by apply by_difference_ascending.
Qed.

(** The sort leaves a permutation in ascending order. *)
Lemma sort_numeric_sorted (l : list number) :
  Forall numeric l → sort_numeric l ≡ₚ l ∧ Sorted ascending (sort_numeric l).
Proof.
  intros Hnum. unfold sort_numeric.
  pose proof (merge_sort_Permutation by_difference l) as Hperm.
  split; [done|].
  apply Sorted_by_difference_ascending.
  - by rewrite Hperm.
  - apply (Sorted_merge_sort by_difference).
Qed.

Lemma sort_numeric_perm (l1 l2 : list number) :
  Forall numeric l1 → l1 ≡ₚ l2 → sort_numeric l1 = sort_numeric l2.
Proof.
  intros Hnum Hperm.
  assert (Forall numeric l2) as Hnum2 by by rewrite <- Hperm.
  destruct (sort_numeric_sorted l1 Hnum) as [Hp1 Hs1].
  destruct (sort_numeric_sorted l2 Hnum2) as [Hp2 Hs2].
  apply (Sorted_unique ascending); [done..|].
  by rewrite Hp1, Hp2.
Qed.

Lemma median_perm (l1 l2 : list number) :
  Forall numeric l1 → l1 ≡ₚ l2 → median l1 = median l2.
Proof.
  intros Hnum Hperm. unfold median.
  rewrite (sort_numeric_perm l1 l2 Hnum Hperm).
  by rewrite (Permutation_length Hperm).
Qed.

Lemma Z_odd_of_nat (n : nat) : Z.odd (Z.of_nat n) = Nat.odd n.
Proof.
  induction n as [|n IH]; [done|].
  rewrite Nat2Z.inj_succ, Z.odd_succ, Nat.odd_succ.
  by rewrite <- Z.negb_odd, IH, Nat.negb_odd.
Qed.

Lemma parity_test (n : nat) :
  negb (Z.of_nat n mod 2 =? 0)%Z = Nat.odd n.
Proof.
  rewrite Zmod_odd, Z_odd_of_nat. by destruct (Nat.odd n).
Qed.

(** What [median] returns, read off the sorted copy. *)
Lemma median_middle (xs : list number) :
  xs ≠ [] →
  let numbers := sort_numeric xs in
  if Nat.odd (length xs)
  then ∃ m, numbers !! (length xs / 2)%nat = Some m ∧ median xs = m
  else ∃ a b,
         numbers !! (length xs / 2 - 1)%nat = Some a
         ∧ numbers !! (length xs / 2)%nat = Some b
         ∧ median xs = ((a + b) / of_nat 2)%js.
Proof.
  intros Hne numbers.
  assert (length numbers = length xs) as Hlen
    by apply Permutation_length, merge_sort_Permutation.
  assert (0 < length xs) as Hpos by (destruct xs; [done | simpl; lia]).
  assert (length xs / 2 < length xs) as Hmid by (apply Nat.div_lt; lia).
  unfold median. fold numbers. rewrite parity_test.
  change 2%Z with (Z.of_nat 2). rewrite <- Nat2Z.inj_div.
  destruct (lookup_lt_is_Some_2 numbers (length xs / 2)) as [b Hb]; [lia|].
  destruct (Nat.odd (length xs)) eqn:Hodd.
  - exists b. split; [done|].
    unfold at_index. rewrite bool_decide_eq_false_2 by lia.
    by rewrite Nat2Z.id, Hb.
  - assert (1 <= length xs / 2) as Hge.
    { destruct (length xs) as [|[|n]] eqn:E; [lia|done|].
      replace (S (S n)) with (n + 1 * 2) by lia. rewrite Nat.div_add by lia. lia. }
    destruct (lookup_lt_is_Some_2 numbers (length xs / 2 - 1)) as [a Ha]; [lia|].
    exists a, b. split_and!; [done..|].
    unfold at_index. rewrite !bool_decide_eq_false_2 by lia.
    replace (Z.to_nat (Z.of_nat (length xs / 2) - 1))
      with (length xs / 2 - 1) by lia.
    by rewrite Nat2Z.id, Ha, Hb.
Qed.

Lemma Heap_median_spec (h : Heap.heap) (array : Heap.loc) (xs : list number) :
  h !! array = Some xs →
  ∃ copy, h !! copy = None
          ∧ Heap.median array h
            = Some (median xs, <[copy := sort_numeric xs]> h).
Proof.
  intros Hxs. exists (fresh (dom h)).
  assert (h !! fresh (dom h) = None) as Hfresh
    by apply not_elem_of_dom, is_fresh.
  split; [done|].
  assert (fresh (dom h) ≠ array) as Hneq by (intros E; congruence).
  unfold Heap.median, Heap.length, Heap.spread_copy, Heap.sort.
  rewrite Hxs. simpl.
  rewrite lookup_insert_eq. simpl.
  rewrite insert_insert_eq.
  rewrite lookup_insert_eq.
  rewrite lookup_insert_ne by exact Hneq.
  rewrite Hxs. reflexivity.
Qed.

(** C7: on a non-empty sequence of numbers (no [NaN]), [median] returns
    the middle element of an ascending permutation of the input when the
    length is odd and the mean of the two middle elements when it is even;
    the result does not change under a permutation of the input; run on an
    array in a store, it leaves that array (and every other array there)
    as it was; [median([1,2,3])] is [2] and [median([1,2,3,4])] is [2.5]. *)
Theorem median_sorted_middle (xs : list number) :
  xs ≠ [] →
  Forall numeric xs →
  (∃ numbers,
     numbers ≡ₚ xs
     ∧ Sorted ascending numbers
     ∧ if Nat.odd (length xs)
       then ∃ m, numbers !! (length xs / 2)%nat = Some m ∧ median xs = m
       else ∃ a b,
              numbers !! (length xs / 2 - 1)%nat = Some a
              ∧ numbers !! (length xs / 2)%nat = Some b
              ∧ median xs = ((a + b) / of_nat 2)%js)
  ∧ (∀ ys, ys ≡ₚ xs → median ys = median xs)
  ∧ (∀ (h : gmap positive (list number)) (array : positive),
       h !! array = Some xs →
       ∃ h', Heap.median array h = Some (median xs, h')
             ∧ h' !! array = Some xs
             ∧ ∀ other, is_Some (h !! other) → h' !! other = h !! other)
  ∧ median [of_nat 1; of_nat 2; of_nat 3] = of_nat 2
  ∧ median [of_nat 1; of_nat 2; of_nat 3; of_nat 4] = lit 2.5.
Proof.
  intros Hne Hnum. split_and!.
  - exists (sort_numeric xs).
    destruct (sort_numeric_sorted xs Hnum) as [Hperm Hsorted].
    split_and!; [done..|]. by apply median_middle.
  - intros ys Hperm. apply median_perm; [by rewrite Hperm | done].
  - intros h array Hxs.
    destruct (Heap_median_spec h array xs Hxs) as (copy & Hcopy & Hrun).
    exists (<[copy := sort_numeric xs]> h). split_and!; [done|..].
    + rewrite lookup_insert_ne; [done|]. intros ->. congruence.
    + intros other [ys Hys]. rewrite lookup_insert_ne; [done|].
      intros ->. congruence.
  - compute_done.
  - compute_done.
Qed.

(** The array [[3, 1, 2]] and a rearrangement of it. *)
Lemma median_sorted_middle_witness :
  [of_nat 3; of_nat 1; of_nat 2] ≠ []
  ∧ Forall numeric [of_nat 3; of_nat 1; of_nat 2]
  ∧ median [of_nat 2; of_nat 3; of_nat 1]
    = median [of_nat 3; of_nat 1; of_nat 2].
Proof.
  assert (Hne : [of_nat 3; of_nat 1; of_nat 2] ≠ []) by discriminate.
  assert (Hnum : Forall numeric [of_nat 3; of_nat 1; of_nat 2])
    by (repeat constructor; discriminate).
  split_and!; [exact Hne | exact Hnum |].
  refine (proj1 (proj2 (median_sorted_middle _ Hne Hnum)) _ _).
  apply (Permutation_cons_append [of_nat 3; of_nat 1] (of_nat 2)).
Defined.

(** ** [curateResults] *)

Lemma keys_curated {A} (o : PerMetric A) : keys o = curated_keys.
Proof. reflexivity. Qed.

Lemma curated_keys_NoDup : NoDup curated_keys.
Proof. compute_done. Qed.

Lemma prop_Some {A} (o : PerMetric A) (name : string) (v : A) :
  prop o name = Some v ↔ (name, v) ∈ entries o.
Proof.
  unfold prop. symmetry. apply elem_of_list_to_map.
  change ((entries o).*1) with (keys o). rewrite keys_curated.
  apply curated_keys_NoDup.
Qed.

Lemma prop_None {A} (o : PerMetric A) (name : string) :
  name ∉ curated_keys → prop o name = None.
Proof.
  intros Hname. unfold prop. apply not_elem_of_list_to_map_1.
  change ((entries o).*1) with (keys o). by rewrite keys_curated.
Qed.

Lemma elem_of_here_eq {A} (k : string) (v v' : A) (l : list (string * A)) :
  v' = v → (k, v) ∈ (k, v') :: l.
Proof. intros ->. apply list_elem_of_here. Qed.

(** Reduces [prop o name = Some v], for a literal [name], to [v] being
    the field of that name. *)
Ltac entry_here :=
  apply prop_Some; unfold entries; cbn [serverResponse firstPaint
    domContentLoaded loaded firstContentfulPaint firstBlock type minType
    maxType focus minFocus maxFocus inserterOpen minInserterOpen
    maxInserterOpen inserterSearch minInserterSearch maxInserterSearch
    inserterHover minInserterHover maxInserterHover listViewOpen
    minListViewOpen maxListViewOpen];
  repeat first [ apply elem_of_here_eq | apply list_elem_of_further ].

(** With every metric present, curation succeeds with these fields. *)
Lemma curateResults_present (results : WPRawPerformanceResults)
    (a1 a2 a3 a4 a5 a6 a7 a8 a9 a10 a11 a12 : list number) :
  results !! "serverResponse" = Some a1 →
  results !! "firstPaint" = Some a2 →
  results !! "domContentLoaded" = Some a3 →
  results !! "loaded" = Some a4 →
  results !! "firstContentfulPaint" = Some a5 →
  results !! "firstBlock" = Some a6 →
  results !! "type" = Some a7 →
  results !! "focus" = Some a8 →
  results !! "inserterOpen" = Some a9 →
  results !! "inserterSearch" = Some a10 →
  results !! "inserterHover" = Some a11 →
  results !! "listViewOpen" = Some a12 →
  curateResults results =
  inr (mkPerMetric
         (average a1) (average a2) (average a3) (average a4) (average a5)
         (average a6)
         (average a7) (Math.min a7) (Math.max a7)
         (average a8) (Math.min a8) (Math.max a8)
         (average a9) (Math.min a9) (Math.max a9)
         (average a10) (Math.min a10) (Math.max a10)
         (average a11) (Math.min a11) (Math.max a11)
         (average a12) (Math.min a12) (Math.max a12)).
Proof.
  intros H1 H2 H3 H4 H5 H6 H7 H8 H9 H10 H11 H12.
  unfold curateResults.
  rewrite H1, H2, H3, H4, H5, H6, H7, H8, H9, H10, H11, H12.
  reflexivity.
Qed.

Lemma of_nat_positive (n : nat) :
  0 < n → Num.sgn (Q2Qc (inject_Z (Z.of_nat n))) = Gt.
Proof.
  intros Hn. unfold Num.sgn. apply Qcgt_alt.
  change (0 < Qred (inject_Z (Z.of_nat n)))%Q. rewrite Qred_correct.
  unfold Qlt. simpl. lia.
Qed.

Lemma sum_exact (qs : list Qc) (a : Qc) :
  exact_sum a qs →
  foldl Num.add (Fin a) (Fin <$> qs) = Fin (a + foldr Qcplus 0 qs)%Qc.
Proof.
  revert a. induction qs as [|q qs IH]; intros a.
  - intros _. simpl. f_equal. ring.
  - intros [Hq Hqs]. cbn [fmap list_fmap foldl foldr].
    change (Num.add (Fin a) (Fin q)) with (Binary64.round_sum (a + q)%Qc).
    rewrite Hq. change (map Fin qs) with (Fin <$> qs).
    rewrite (IH _ Hqs). f_equal. ring.
Qed.

(** Where no step rounds, [average] is the arithmetic mean. *)
Lemma average_exact (qs : list Qc) :
  qs ≠ [] → exact_average qs →
  average (Fin <$> qs) = Fin (arithmetic_mean qs).
Proof.
  intros Hne [Hsum Hmean]. unfold average.
  change (of_nat 0) with (Fin 0%Qc). rewrite (sum_exact _ _ Hsum), length_fmap.
  unfold of_nat, Num.div. rewrite of_nat_positive.
  - rewrite <- Hmean. unfold arithmetic_mean. f_equal. f_equal. ring.
  - destruct qs; [done | simpl; lia].
Qed.

Lemma elem_of_skip {A} (x a q : A) (qs : list A) :
  x ∈ a :: qs → x ∈ a :: q :: qs.
Proof.
  intros [->|Hx]%elem_of_cons; [apply list_elem_of_here|].
  by do 2 apply list_elem_of_further.
Qed.

Lemma min_finite (qs : list Qc) (a : Qc) :
  ∃ m, foldl Math.min2 (Fin a) (Fin <$> qs) = Fin m ∧ is_minimum m (a :: qs).
Proof.
  unfold is_minimum. revert a. induction qs as [|q qs IH]; intros a; simpl.
  - exists a. split; [done|]. split; [apply list_elem_of_here|].
    intros x ->%list_elem_of_singleton. apply Qcle_refl.
  - destruct (decide (a <= q)%Qc) as [Hle|Hgt].
    + rewrite bool_decide_eq_true_2 by done.
      destruct (IH a) as (m & Heq & Hmem & Hmin). exists m.
      split; [exact Heq|]. split; [by apply elem_of_skip|].
      assert (m <= a)%Qc as Hma by apply Hmin, list_elem_of_here.
      intros x [->|[->|Hx]%elem_of_cons]%elem_of_cons; [done| |].
      * by apply Qcle_trans with a.
      * by apply Hmin, list_elem_of_further.
    + rewrite bool_decide_eq_false_2 by done.
      destruct (IH q) as (m & Heq & Hmem & Hmin). exists m.
      split; [exact Heq|]. split; [by apply list_elem_of_further|].
      assert (m <= q)%Qc as Hmq by apply Hmin, list_elem_of_here.
      intros x [->|Hx]%elem_of_cons; [|by apply Hmin].
      apply Qcle_trans with q; [done|].
      apply Qclt_le_weak. by apply Qcnot_le_lt.
Qed.

Lemma max_finite (qs : list Qc) (a : Qc) :
  ∃ m, foldl Math.max2 (Fin a) (Fin <$> qs) = Fin m ∧ is_maximum m (a :: qs).
Proof.
  unfold is_maximum. revert a. induction qs as [|q qs IH]; intros a; simpl.
  - exists a. split; [done|]. split; [apply list_elem_of_here|].
    intros x ->%list_elem_of_singleton. apply Qcle_refl.
  - destruct (decide (a <= q)%Qc) as [Hle|Hgt].
    + rewrite bool_decide_eq_true_2 by done.
      destruct (IH q) as (m & Heq & Hmem & Hmax). exists m.
      split; [exact Heq|]. split; [by apply list_elem_of_further|].
      assert (q <= m)%Qc as Hqm by apply Hmax, list_elem_of_here.
      intros x [->|Hx]%elem_of_cons; [|by apply Hmax].
      by apply Qcle_trans with q.
    + rewrite bool_decide_eq_false_2 by done.
      destruct (IH a) as (m & Heq & Hmem & Hmax). exists m.
      split; [exact Heq|]. split; [by apply elem_of_skip|].
      assert (a <= m)%Qc as Ham by apply Hmax, list_elem_of_here.
      intros x [->|[->|Hx]%elem_of_cons]%elem_of_cons; [done| |].
      * apply Qcle_trans with a; [|done].
        apply Qclt_le_weak. by apply Qcnot_le_lt.
      * by apply Hmax, list_elem_of_further.
Qed.

(** On finite samples [Math.min] and [Math.max] pick the least and the
    greatest sample. *)
Lemma Math_min_finite (qs : list Qc) :
  qs ≠ [] → ∃ m, Math.min (Fin <$> qs) = Fin m ∧ is_minimum m qs.
Proof.
  destruct qs as [|q qs]; [done|]. intros _. apply (min_finite qs q).
Qed.

Lemma Math_max_finite (qs : list Qc) :
  qs ≠ [] → ∃ m, Math.max (Fin <$> qs) = Fin m ∧ is_maximum m qs.
Proof.
  destruct qs as [|q qs]; [done|]. intros _. apply (max_finite qs q).
Qed.

Arguments average : simpl never.
Arguments Math.min : simpl never.
Arguments Math.max : simpl never.

(** Curation either finds the twelve metrics or throws the [TypeError]
    of [undefined.reduce]. *)
Lemma curateResults_cases (results : WPRawPerformanceResults) :
  (∃ a1 a2 a3 a4 a5 a6 a7 a8 a9 a10 a11 a12,
      (results !! "serverResponse" = Some a1
       ∧ results !! "firstPaint" = Some a2
       ∧ results !! "domContentLoaded" = Some a3
       ∧ results !! "loaded" = Some a4
       ∧ results !! "firstContentfulPaint" = Some a5
       ∧ results !! "firstBlock" = Some a6)
      ∧ (results !! "type" = Some a7
         ∧ results !! "focus" = Some a8
         ∧ results !! "inserterOpen" = Some a9
         ∧ results !! "inserterSearch" = Some a10
         ∧ results !! "inserterHover" = Some a11
         ∧ results !! "listViewOpen" = Some a12))
  ∨ ((∃ name, name ∈ metric_names ∧ results !! name = None)
     ∧ curateResults results = inl missing_reduce).
Proof.
  unfold curateResults.
  destruct (results !! "serverResponse") as [a1|] eqn:H1;
    [|right; split; [exists "serverResponse"; split; [compute_done|done]|done]].
  destruct (results !! "firstPaint") as [a2|] eqn:H2;
    [|right; split; [exists "firstPaint"; split; [compute_done|done]|done]].
  destruct (results !! "domContentLoaded") as [a3|] eqn:H3;
    [|right; split; [exists "domContentLoaded"; split; [compute_done|done]|done]].
  destruct (results !! "loaded") as [a4|] eqn:H4;
    [|right; split; [exists "loaded"; split; [compute_done|done]|done]].
  destruct (results !! "firstContentfulPaint") as [a5|] eqn:H5;
    [|right; split; [exists "firstContentfulPaint"; split; [compute_done|done]|done]].
  destruct (results !! "firstBlock") as [a6|] eqn:H6;
    [|right; split; [exists "firstBlock"; split; [compute_done|done]|done]].
  destruct (results !! "type") as [a7|] eqn:H7;
    [|right; split; [exists "type"; split; [compute_done|done]|done]].
  destruct (results !! "focus") as [a8|] eqn:H8;
    [|right; split; [exists "focus"; split; [compute_done|done]|done]].
  destruct (results !! "inserterOpen") as [a9|] eqn:H9;
    [|right; split; [exists "inserterOpen"; split; [compute_done|done]|done]].
  destruct (results !! "inserterSearch") as [a10|] eqn:H10;
    [|right; split; [exists "inserterSearch"; split; [compute_done|done]|done]].
  destruct (results !! "inserterHover") as [a11|] eqn:H11;
    [|right; split; [exists "inserterHover"; split; [compute_done|done]|done]].
  destruct (results !! "listViewOpen") as [a12|] eqn:H12;
    [|right; split; [exists "listViewOpen"; split; [compute_done|done]|done]].
  left. by exists a1, a2, a3, a4, a5, a6, a7, a8, a9, a10, a11, a12.
Qed.

Lemma metric_present (results : WPRawPerformanceResults)
    (a1 a2 a3 a4 a5 a6 a7 a8 a9 a10 a11 a12 : list number) (name : string) :
  (results !! "serverResponse" = Some a1
   ∧ results !! "firstPaint" = Some a2
   ∧ results !! "domContentLoaded" = Some a3
   ∧ results !! "loaded" = Some a4
   ∧ results !! "firstContentfulPaint" = Some a5
   ∧ results !! "firstBlock" = Some a6)
  ∧ (results !! "type" = Some a7
     ∧ results !! "focus" = Some a8
     ∧ results !! "inserterOpen" = Some a9
     ∧ results !! "inserterSearch" = Some a10
     ∧ results !! "inserterHover" = Some a11
     ∧ results !! "listViewOpen" = Some a12) →
  name ∈ metric_names → is_Some (results !! name).
Proof.
  intros [(H1 & H2 & H3 & H4 & H5 & H6) (H7 & H8 & H9 & H10 & H11 & H12)] Hname.
  unfold metric_names in Hname.
  repeat (apply elem_of_cons in Hname as [->|Hname]; [by eexists|]).
  by apply elem_of_nil in Hname.
Qed.

Lemma curateResults_throws
    (results : WPRawPerformanceResults) (name : string) :
  name ∈ metric_names →
  results !! name = None →
  curateResults results = inl missing_reduce.
Proof.
  intros Hname Hnone.
  destruct (curateResults_cases results)
    as [(a1 & a2 & a3 & a4 & a5 & a6 & a7 & a8 & a9 & a10 & a11 & a12 & Hall)
       |[_ Herr]]; [|done].
  destruct (metric_present results _ _ _ _ _ _ _ _ _ _ _ _ name Hall Hname)
    as [xs Hxs]. congruence.
Qed.

(** C3 (amended): when a required metric is absent, [curateResults]
    throws, and what it throws is the [TypeError] of calling [reduce] on
    [undefined]; no bundle is returned. *)
Theorem curateResults_missing_metric
    (results : WPRawPerformanceResults) (name : string) :
  name ∈ metric_names →
  results !! name = None →
  curateResults results = inl missing_reduce
  ∧ ∀ curated, curateResults results ≠ inr curated.
Proof.
  intros Hname Hnone.
  pose proof (curateResults_throws results name Hname Hnone) as Herr.
  split; [done|]. intros curated. by rewrite Herr.
Qed.

(** A bundle without ["type"]. *)
Lemma curateResults_missing_metric_witness :
  "type" ∈ metric_names
  ∧ delete "type" (uniform_bundle [of_nat 1]) !! "type" = None
  ∧ curateResults (delete "type" (uniform_bundle [of_nat 1]))
    = inl missing_reduce.
Proof.
  assert (Hname : "type" ∈ metric_names) by compute_done.
  assert (Hnone : delete "type" (uniform_bundle [of_nat 1]) !! "type" = None)
    by apply lookup_delete_eq.
  split_and!; [exact Hname | exact Hnone |].
  exact (proj1 (curateResults_missing_metric _ "type" Hname Hnone)).
Defined.

(** C3, as stated, fails: a bundle that lacks only ["type"] and a bundle
    that lacks only ["focus"] make [curateResults] throw the same error, so
    the error cannot tell which metric is absent. *)
Lemma curateResults_error_is_anonymous :
  curateResults (delete "type" (uniform_bundle [of_nat 1]))
  = inl missing_reduce
  ∧ curateResults (delete "focus" (uniform_bundle [of_nat 1]))
    = inl missing_reduce
  ∧ delete "type" (uniform_bundle [of_nat 1]) !! "focus" ≠ None
  ∧ delete "focus" (uniform_bundle [of_nat 1]) !! "type" ≠ None
  ∧ ¬ ∃ name_of, identifies_missing_metric name_of.
Proof.
  assert (curateResults (delete "type" (uniform_bundle [of_nat 1]))
          = inl missing_reduce) as Htype
    by (apply (curateResults_throws _ "type");
        [compute_done | apply lookup_delete_eq]).
  assert (curateResults (delete "focus" (uniform_bundle [of_nat 1]))
          = inl missing_reduce) as Hfocus
    by (apply (curateResults_throws _ "focus");
        [compute_done | apply lookup_delete_eq]).
  assert (∀ name, name ∈ metric_names →
            delete "type" (uniform_bundle [of_nat 1]) !! name = None →
            name = "type") as Honly_type.
  { intros name Hname. unfold metric_names in Hname.
    repeat (apply elem_of_cons in Hname as [->|Hname];
            [first [ reflexivity | intros H; vm_compute in H; discriminate H ]|]).
    inversion Hname. }
  assert (∀ name, name ∈ metric_names →
            delete "focus" (uniform_bundle [of_nat 1]) !! name = None →
            name = "focus") as Honly_focus.
  { intros name Hname. unfold metric_names in Hname.
    repeat (apply elem_of_cons in Hname as [->|Hname];
            [first [ reflexivity | intros H; vm_compute in H; discriminate H ]|]).
    inversion Hname. }
  split_and!; [done | done | compute_done | compute_done |].
  intros [name_of Hid].
  destruct (Hid (delete "type" (uniform_bundle [of_nat 1])))
    as (e1 & He1 & Hin1 & Hnone1);
    [exists "type"; split; [compute_done | apply lookup_delete_eq]|].
  destruct (Hid (delete "focus" (uniform_bundle [of_nat 1])))
    as (e2 & He2 & Hin2 & Hnone2);
    [exists "focus"; split; [compute_done | apply lookup_delete_eq]|].
  rewrite Htype in He1. rewrite Hfocus in He2.
  injection He1 as <-. injection He2 as <-.
  pose proof (Honly_type _ Hin1 Hnone1) as E1.
  pose proof (Honly_focus _ Hin2 Hnone2) as E2.
  rewrite E1 in E2. discriminate.
Qed.

(** C6, as stated, fails: the average is computed in binary64, and three
    samples [0.1] have the average [0.10000000000000002], which is not
    their arithmetic mean [0.1]. *)
Lemma curateResults_average_rounds :
  lit 0.1 = Fin tenth
  ∧ arithmetic_mean [tenth; tenth; tenth] = tenth
  ∧ match curateResults (uniform_bundle (Fin <$> [tenth; tenth; tenth])) with
    | inr curated =>
        prop curated "type" = Some (lit 0.10000000000000002)
        ∧ prop curated "type"
          ≠ Some (Fin (arithmetic_mean [tenth; tenth; tenth]))
    | inl _ => False
    end.
Proof. split_and!; compute_done. Qed.

(** C6 (amended): with the twelve metrics present and their (finite)
    sample arrays non-empty, [curateResults] returns a bundle with the keys
    of [curated_keys]: under each metric the average of its samples as
    [average] computes it in binary64, which is their arithmetic mean when
    no step of the computation rounds; under [minX] / [maxX] the least and
    the greatest sample for the six metrics of [minmax_names], and no
    [minX] / [maxX] for the other six; samples [[10, 20, 30]] under
    ["type"] give [type: 20], [minType: 10], [maxType: 30]. *)
Theorem curateResults_summary
    (results : WPRawPerformanceResults) (samples : string → list Qc) :
  (∀ name, name ∈ metric_names →
     samples name ≠ [] ∧ results !! name = Some (Fin <$> samples name)) →
  ∃ curated,
    curateResults results = inr curated
    ∧ keys curated = curated_keys
    ∧ (∀ name, name ∈ metric_names →
         prop curated name = Some (average (Fin <$> samples name))
         ∧ (exact_average (samples name) →
            prop curated name = Some (Fin (arithmetic_mean (samples name)))))
    ∧ (∀ name, name ∈ minmax_names →
         ∃ lo hi,
           prop curated (min_key name) = Some (Fin lo)
           ∧ is_minimum lo (samples name)
           ∧ prop curated (max_key name) = Some (Fin hi)
           ∧ is_maximum hi (samples name))
    ∧ (∀ name, name ∈ metric_names → name ∉ minmax_names →
         prop curated (min_key name) = None
         ∧ prop curated (max_key name) = None)
    ∧ (samples "type" = [Q2Qc 10; Q2Qc 20; Q2Qc 30] →
         prop curated "type" = Some (of_nat 20)
         ∧ prop curated "minType" = Some (of_nat 10)
         ∧ prop curated "maxType" = Some (of_nat 30)).
Proof.
  intros Hall.
  assert (∀ name, name ∈ metric_names →
            results !! name = Some (Fin <$> samples name)) as Hget
    by (intros name Hname; by destruct (Hall name Hname)).
  assert (∀ name, name ∈ metric_names → samples name ≠ []) as Hne
    by (intros name Hname; by destruct (Hall name Hname)).
  eexists. split.
  { apply curateResults_present; apply Hget; compute_done. }
  split; [reflexivity|].
  split_and!.
  - intros name Hname. unfold metric_names in Hname.
    repeat (apply elem_of_cons in Hname as [->|Hname];
            [split;
             [by entry_here
             |intros Hexact; entry_here;
              apply average_exact; [apply Hne; compute_done | exact Hexact]]|]).
    inversion Hname.
  - intros name Hname. unfold minmax_names in Hname.
    repeat (apply elem_of_cons in Hname as [->|Hname];
      [lazymatch goal with
       | |- context [is_minimum _ (samples ?n)] =>
           destruct (Math_min_finite (samples n)) as (lo & Hlo & Hmin);
             [apply Hne; compute_done|];
           destruct (Math_max_finite (samples n)) as (hi & Hhi & Hmax);
             [apply Hne; compute_done|];
           exists lo, hi;
           let k := eval vm_compute in (min_key n) in
           change (min_key n) with k;
           let k := eval vm_compute in (max_key n) in
           change (max_key n) with k;
           split_and!; [|exact Hmin| |exact Hmax];
           entry_here; first [exact Hlo | exact Hhi]
       end|]).
    inversion Hname.
  - intros name Hname Hnot. unfold metric_names in Hname.
    repeat (apply elem_of_cons in Hname as [->|Hname];
      [first [ exfalso; apply Hnot; compute_done
             | split; apply prop_None; compute_done ]|]).
    inversion Hname.
  - intros Htype. split_and!; entry_here; rewrite Htype; compute_done.
Qed.

(** A bundle with samples 10, 20, 30 under every metric: no step of
    their average rounds. *)
Lemma curateResults_summary_witness :
  (∀ name, name ∈ metric_names →
     [Q2Qc 10; Q2Qc 20; Q2Qc 30] ≠ []
     ∧ uniform_bundle (Fin <$> [Q2Qc 10; Q2Qc 20; Q2Qc 30]) !! name
       = Some (Fin <$> [Q2Qc 10; Q2Qc 20; Q2Qc 30]))
  ∧ "type" ∈ metric_names
  ∧ exact_average [Q2Qc 10; Q2Qc 20; Q2Qc 30]
  ∧ ∃ curated,
      curateResults (uniform_bundle (Fin <$> [Q2Qc 10; Q2Qc 20; Q2Qc 30]))
      = inr curated
      ∧ prop curated "type"
        = Some (Fin (arithmetic_mean [Q2Qc 10; Q2Qc 20; Q2Qc 30]))
      ∧ prop curated "type" = Some (of_nat 20)
      ∧ prop curated "minType" = Some (of_nat 10)
      ∧ prop curated "maxType" = Some (of_nat 30).
Proof.
  assert (Hall : ∀ name, name ∈ metric_names →
     [Q2Qc 10; Q2Qc 20; Q2Qc 30] ≠ []
     ∧ uniform_bundle (Fin <$> [Q2Qc 10; Q2Qc 20; Q2Qc 30]) !! name
       = Some (Fin <$> [Q2Qc 10; Q2Qc 20; Q2Qc 30])).
  { intros name Hname. split; [discriminate|]. unfold metric_names in Hname.
    repeat (apply elem_of_cons in Hname as [->|Hname]; [reflexivity|]).
    inversion Hname. }
  assert (Htype : "type" ∈ metric_names) by compute_done.
  assert (Hexact : exact_average [Q2Qc 10; Q2Qc 20; Q2Qc 30]) by compute_done.
  split_and!; [exact Hall | exact Htype | exact Hexact |].
  destruct (curateResults_summary
              (uniform_bundle (Fin <$> [Q2Qc 10; Q2Qc 20; Q2Qc 30]))
              (λ _, [Q2Qc 10; Q2Qc 20; Q2Qc 30]) Hall)
    as (curated & Hrun & _ & Hmean & _ & _ & Hexample).
  exists curated. split; [exact Hrun|].
  split; [exact (proj2 (Hmean "type" Htype) Hexact)|].
  by apply Hexample.
Defined.

(** ** Empty sample arrays *)

Lemma invertEntry_cell (W : World) (revision : string)
    (acc : gmap string (gmap string string)) (name : string) (value : number)
    (entry rev : string) :
  cell (invertEntry W revision acc (name, value)) entry rev =
  if decide (entry = name ∧ rev = revision)
  then if isFinite value
       then Some (number_toString W value +:+ " ms")
       else cell acc entry rev
  else cell acc entry rev.
Proof.
  unfold invertEntry, cell.
  destruct (isFinite value) eqn:Hfin; simpl.
  - rewrite andb_true_r.
    set (acc' := if negb (bool_decide (is_Some (acc !! name)))
                 then <[name := ∅]> acc else acc).
    assert (default ∅ (acc' !! name) = default ∅ (acc !! name)) as Hrow.
    { unfold acc'. destruct (acc !! name) as [row|] eqn:Hacc.
      - rewrite bool_decide_eq_true_2 by eauto. simpl. by rewrite Hacc.
      - rewrite bool_decide_eq_false_2 by (intros [? ?]; done). simpl.
        by rewrite lookup_insert_eq. }
    assert (∀ k, k ≠ name → acc' !! k = acc !! k) as Hother.
    { intros k Hk. unfold acc'.
      destruct (negb _); [by rewrite lookup_insert_ne|done]. }
    rewrite Hrow.
    destruct (decide (entry = name)) as [->|Hentry].
    + rewrite lookup_insert_eq. simpl.
      destruct (decide (rev = revision)) as [->|Hrev].
      * rewrite decide_True by done. by rewrite lookup_insert_eq.
      * rewrite decide_False by (intros [_ ?]; done).
        rewrite lookup_insert_ne by done.
        destruct (acc !! name); simpl; [done|apply lookup_empty].
    + rewrite decide_False by (intros [? _]; done).
      rewrite lookup_insert_ne by done. by rewrite Hother.
  - rewrite andb_false_r. by destruct (decide _).
Qed.

Lemma foldl_invertEntry_cell (W : World) (revision : string)
    (es : list (string * number)) (acc : gmap string (gmap string string))
    (entry rev : string) :
  NoDup es.*1 →
  cell (foldl (invertEntry W revision) acc es) entry rev =
  match (list_to_map es : gmap string number) !! entry with
  | Some value =>
      if decide (rev = revision)
      then if isFinite value
           then Some (number_toString W value +:+ " ms")
           else cell acc entry rev
      else cell acc entry rev
  | None => cell acc entry rev
  end.
Proof.
  revert acc. induction es as [|[name value] es IH]; intros acc Hnodup.
  - simpl. by rewrite lookup_empty.
  - change (NoDup (name :: es.*1)) in Hnodup.
    assert (name ∉ es.*1) as Hname by exact (NoDup_cons_1_1 _ _ Hnodup).
    assert (NoDup es.*1) as Hnodup' by exact (NoDup_cons_1_2 _ _ Hnodup).
    change (foldl (invertEntry W revision) acc ((name, value) :: es))
      with (foldl (invertEntry W revision)
              (invertEntry W revision acc (name, value)) es).
    change (list_to_map ((name, value) :: es) : gmap string number)
      with (<[name := value]> (list_to_map es : gmap string number)).
    rewrite IH by exact Hnodup'. rewrite invertEntry_cell.
    destruct (decide (entry = name)) as [->|Hentry].
    + rewrite lookup_insert_eq.
      rewrite (not_elem_of_list_to_map_1 es name) by exact Hname.
      destruct (decide (rev = revision)) as [->|Hrev].
      * by rewrite decide_True.
      * by rewrite decide_False by (intros [_ ?]; done).
    + rewrite lookup_insert_ne by done.
      rewrite decide_False by (intros [? _]; done). done.
Qed.

(** The cells of the console table: a cell is there exactly for a finite
    entry of the result table. *)
Lemma invertResults_cell (W : World)
    (table : gmap string WPPerformanceResults) (entry rev : string) :
  cell (invertResults W table) entry rev =
  val ← table !! rev;
  value ← prop val entry;
  if isFinite value then Some (number_toString W value +:+ " ms") else None.
Proof.
  unfold invertResults.
  apply (map_fold_weak_ind
    (λ acc (table : gmap string WPPerformanceResults),
       cell acc entry rev =
       val ← table !! rev;
       value ← prop val entry;
       if isFinite value
       then Some (number_toString W value +:+ " ms") else None)).
  - unfold cell. by rewrite !lookup_empty.
  - intros revision val m acc Hfresh IH.
    rewrite foldl_invertEntry_cell
      by (change ((entries val).*1) with (keys val); rewrite keys_curated;
          apply curated_keys_NoDup).
    fold (prop val entry).
    destruct (decide (rev = revision)) as [->|Hrev].
    + rewrite lookup_insert_eq. cbn [mbind option_bind].
      destruct (prop val entry) as [value|]; cbn [mbind option_bind].
      * destruct (isFinite value); [done|]. by rewrite IH, Hfresh.
      * by rewrite IH, Hfresh.
    + rewrite lookup_insert_ne by done.
      by destruct (prop val entry).
Qed.

(** C10: with the twelve metrics present, [curateResults] returns a
    bundle even when a sample array is empty: that metric's average is
    [NaN], and for the six metrics with a minimum and a maximum the minimum
    is [Infinity] and the maximum [-Infinity]. Such a value, when all three
    rounds produce it, goes through [median] and [formatTime] unchanged,
    and an entry of the result table that is not finite gets no cell in the
    console table. *)
Theorem curateResults_empty_samples
    (W : World) (results : WPRawPerformanceResults) :
  (∀ name, name ∈ metric_names → is_Some (results !! name)) →
  ∃ curated,
    curateResults results = inr curated
    ∧ (∀ name, name ∈ metric_names → results !! name = Some [] →
         prop curated name = Some NaN)
    ∧ (∀ name, name ∈ minmax_names → results !! name = Some [] →
         prop curated (min_key name) = Some PosInf
         ∧ prop curated (max_key name) = Some NegInf)
    ∧ (∀ value, value ∈ [NaN; PosInf; NegInf] →
         isFinite value = false
         ∧ formatTime (median [value; value; value]) = value)
    ∧ (∀ (table : gmap string WPPerformanceResults)
         (revision entry : string) (val : WPPerformanceResults)
         (value : number),
         table !! revision = Some val →
         prop val entry = Some value →
         isFinite value = false →
         cell (invertResults W table) entry revision = None).
Proof.
  intros Hall.
  destruct (curateResults_cases results)
    as [(a1 & a2 & a3 & a4 & a5 & a6 & a7 & a8 & a9 & a10 & a11 & a12
         & (H1 & H2 & H3 & H4 & H5 & H6) & (H7 & H8 & H9 & H10 & H11 & H12))
       |[(name & Hname & Hnone) _]];
    [|destruct (Hall name Hname) as [xs Hxs]; congruence].
  eexists. split; [by apply curateResults_present|].
  split_and!.
  - intros name Hname Hempty. unfold metric_names in Hname.
    repeat (apply elem_of_cons in Hname as [->|Hname];
            [entry_here;
             match goal with
             | Hk : results !! ?k = Some ?a, He : results !! ?k = Some [] |- _ =>
                 rewrite Hk in He; injection He as ->; reflexivity
             end|]).
    inversion Hname.
  - intros name Hname Hempty. unfold minmax_names in Hname.
    repeat (apply elem_of_cons in Hname as [->|Hname];
            [match goal with
             | Hk : results !! ?k = Some ?a, He : results !! ?k = Some [] |- _ =>
                 rewrite Hk in He; injection He as ->
             end;
             split; entry_here; reflexivity|]).
    inversion Hname.
  - intros value Hvalue.
    repeat (apply elem_of_cons in Hvalue as [->|Hvalue]; [by split|]).
    inversion Hvalue.
  - intros table revision entry val value Hval Hentry Hfin.
    rewrite invertResults_cell, Hval. cbn [mbind option_bind].
    rewrite Hentry. cbn [mbind option_bind]. by rewrite Hfin.
Qed.

(** A bundle whose samples are all empty. *)
Lemma curateResults_empty_samples_witness :
  (∀ name, name ∈ metric_names → is_Some (uniform_bundle [] !! name))
  ∧ ∃ curated,
      curateResults (uniform_bundle []) = inr curated
      ∧ prop curated "type" = Some NaN
      ∧ prop curated "minType" = Some PosInf
      ∧ prop curated "maxType" = Some NegInf.
Proof.
  assert (Hall : ∀ name, name ∈ metric_names →
                   is_Some (uniform_bundle [] !! name)).
  { intros name Hname. unfold metric_names in Hname.
    repeat (apply elem_of_cons in Hname as [->|Hname]; [by eexists|]).
    inversion Hname. }
  split; [exact Hall|].
  destruct (curateResults_empty_samples
              (mkWorld (λ _, true) (λ _, "") (λ _, ∅) (λ _, ∅) (λ _, "")
                 (λ _, "") (λ _, "") "" "" (λ _, ""))
              (uniform_bundle []) Hall)
    as (curated & Hrun & Havg & Hminmax & _).
  exists curated. split; [exact Hrun|].
  assert (Htype : uniform_bundle [] !! "type" = Some []) by reflexivity.
  split; [apply Havg; [compute_done | exact Htype]|].
  apply (Hminmax "type"); [compute_done | exact Htype].
Defined.

(** ** The WordPress version of the environment *)

(** The versions the code's comment and the specification name. *)
Lemma zipVersion_examples :
  zipVersion "5.7" = "5.7"
  ∧ zipVersion "5.7.0" = "5.7"
  ∧ zipVersion "5.7.2" = "5.7.2"
  ∧ zipUrl "6.1.0" = "https://wordpress.org/wordpress-6.1.zip"
  ∧ zipUrl "6.1.2" = "https://wordpress.org/wordpress-6.1.2.zip".
Proof. by split_and!. Qed.

Lemma run_Plus {A} (r : Regex.regex) (fuel : nat) (p : Regex.position)
    (k : Regex.position → option A) :
  Regex.run (Regex.Plus r) (S fuel) p k =
  Regex.run r fuel p (λ p1,
    match Regex.run (Regex.Plus r) fuel p1 k with
    | Some res => Some res
    | None => k p1
    end).
Proof. reflexivity. Qed.

Lemma run_Digit {A} (fuel : nat) (p : Regex.position)
    (k : Regex.position → option A) :
  Regex.run Regex.Digit fuel p k = Regex.step Regex.is_digit p ≫= k.
Proof. reflexivity. Qed.

Lemma step_cons (accepts : ascii → bool) (consumed : list ascii) (c : ascii)
    (rest : list ascii) (cap : option (list ascii)) :
  Regex.step accepts (Regex.mkPosition consumed (c :: rest) cap) =
  if accepts c then Some (Regex.mkPosition (c :: consumed) rest cap) else None.
Proof. reflexivity. Qed.

Lemma step_nil (accepts : ascii → bool) (consumed : list ascii)
    (cap : option (list ascii)) :
  Regex.step accepts (Regex.mkPosition consumed [] cap) = None.
Proof. reflexivity. Qed.

Lemma plus_digit_stops {A} (fuel : nat) (consumed rest : list ascii)
    (cap : option (list ascii)) (k : Regex.position → option A) :
  not_digit_ahead rest →
  Regex.run (Regex.Plus Regex.Digit) fuel
    (Regex.mkPosition consumed rest cap) k = None.
Proof.
  intros Hrest. destruct fuel as [|fuel]; [done|].
  rewrite run_Plus, run_Digit.
  destruct rest as [|c rest]; [by rewrite step_nil|].
  simpl in Hrest. by rewrite step_cons, Hrest.
Qed.

(** [\d+] is greedy: when the rest of the pattern matches after all the
    digits, that is the match. *)
Lemma plus_digit_longest {A} (ds rest consumed : list ascii)
    (cap : option (list ascii)) (fuel : nat)
    (k : Regex.position → option A) (res : A) :
  digits ds → ds ≠ [] → length ds ≤ fuel →
  not_digit_ahead rest →
  k (Regex.mkPosition (reverse ds ++ consumed) rest cap) = Some res →
  Regex.run (Regex.Plus Regex.Digit) fuel
    (Regex.mkPosition consumed (ds ++ rest) cap) k = Some res.
Proof.
  revert consumed fuel.
  induction ds as [|d ds IH]; intros consumed fuel Hds Hne Hfuel Hrest Hk;
    [done|].
  inversion_clear Hds as [|? ? Hd Hds'].
  destruct fuel as [|fuel]; [simpl in Hfuel; lia|].
  change ((d :: ds) ++ rest) with (d :: (ds ++ rest)).
  rewrite run_Plus, run_Digit, step_cons, Hd. cbn [mbind option_bind].
  destruct ds as [|d' ds].
  - change ([] ++ rest) with rest. rewrite plus_digit_stops by done. exact Hk.
  - rewrite (IH (d :: consumed) fuel); [done|done|done|simpl in *; lia|done|].
    rewrite reverse_cons, <- app_assoc in Hk. exact Hk.
Qed.

(** [\d+] fails when the rest of the pattern fails after every non-empty
    prefix of the digits. *)
Lemma plus_digit_none {A} (ds rest consumed : list ascii)
    (cap : option (list ascii)) (fuel : nat)
    (k : Regex.position → option A) :
  digits ds →
  not_digit_ahead rest →
  (∀ n, 1 ≤ n ≤ length ds →
        k (Regex.mkPosition (reverse (take n ds) ++ consumed)
             (drop n ds ++ rest) cap) = None) →
  Regex.run (Regex.Plus Regex.Digit) fuel
    (Regex.mkPosition consumed (ds ++ rest) cap) k = None.
Proof.
  revert consumed fuel.
  induction ds as [|d ds IH]; intros consumed fuel Hds Hrest Hk.
  - by apply plus_digit_stops.
  - inversion_clear Hds as [|? ? Hd Hds'].
    destruct fuel as [|fuel]; [done|].
    change ((d :: ds) ++ rest) with (d :: (ds ++ rest)).
    rewrite run_Plus, run_Digit, step_cons, Hd. cbn [mbind option_bind].
    rewrite (IH (d :: consumed) fuel); [|done|done|].
    + apply (Hk 1). simpl. lia.
    + intros n Hn. specialize (Hk (S n)). simpl in Hk.
      rewrite reverse_cons, <- app_assoc in Hk. apply Hk. lia.
Qed.

Lemma run_Seq {A} (r1 r2 : Regex.regex) (fuel : nat) (p : Regex.position)
    (k : Regex.position → option A) :
  Regex.run (Regex.Seq r1 r2) fuel p k =
  Regex.run r1 fuel p (λ p1, Regex.run r2 fuel p1 k).
Proof. reflexivity. Qed.

Lemma run_Group {A} (r : Regex.regex) (fuel : nat) (p : Regex.position)
    (k : Regex.position → option A) :
  Regex.run (Regex.Group r) fuel p k =
  Regex.run r fuel p (λ p1,
    k (Regex.mkPosition (Regex.consumed p1) (Regex.ahead p1)
         (Some (reverse (take (length (Regex.consumed p1)
                                - length (Regex.consumed p))
                           (Regex.consumed p1)))))).
Proof. reflexivity. Qed.

Lemma run_Char {A} (c : ascii) (fuel : nat) (p : Regex.position)
    (k : Regex.position → option A) :
  Regex.run (Regex.Char c) fuel p k =
  Regex.step (λ c', bool_decide (c' = c)) p ≫= k.
Proof. reflexivity. Qed.

Lemma run_AnyChar {A} (fuel : nat) (p : Regex.position)
    (k : Regex.position → option A) :
  Regex.run Regex.AnyChar fuel p k =
  Regex.step (λ c, negb (Regex.is_line_terminator c)) p ≫= k.
Proof. reflexivity. Qed.

Lemma digit_not_dot (c : ascii) :
  Regex.is_digit c = true → bool_decide (c = "."%char) = false.
Proof. intros Hc. apply bool_decide_eq_false. by intros ->. Qed.

(** The pattern on [X.Y.0]: the match is all of it, the group [X.Y]. *)
Lemma match_patch_zero (X Y : list ascii) :
  digits X → X ≠ [] → digits Y → Y ≠ [] →
  Regex.match_start patch_zero_pattern
    (string_of_list_ascii (X ++ "."%char :: Y ++ ["."%char; "0"%char]))
  = Some (Regex.mkPosition
            ("0"%char :: "."%char :: reverse Y ++ "."%char :: reverse X)
            [] (Some (X ++ "."%char :: Y))).
Proof.
  intros HX HXne HY HYne.
  unfold Regex.match_start, patch_zero_pattern.
  rewrite list_ascii_of_string_of_list_ascii.
  set (fuel := S (length (X ++ "."%char :: Y ++ ["."%char; "0"%char]))).
  assert (length X ≤ fuel ∧ length Y ≤ fuel) as [HfX HfY].
  { unfold fuel. rewrite length_app. simpl. rewrite length_app. lia. }
  rewrite run_Seq, run_Group, run_Seq.
  apply plus_digit_longest; [done..|].
  rewrite run_Seq, run_Char, step_cons. cbn [mbind option_bind].
  rewrite bool_decide_eq_true_2 by done.
  apply plus_digit_longest; [done..|].
  cbn [Regex.consumed Regex.ahead].
  rewrite run_Seq, run_AnyChar, step_cons.
  change (Regex.is_line_terminator ".") with false.
  cbn [negb mbind option_bind].
  rewrite run_Char, step_cons. cbn [mbind option_bind].
  rewrite bool_decide_eq_true_2 by done.
  rewrite app_nil_r, Nat.sub_0_r, take_ge by done.
  rewrite reverse_app, reverse_cons, !reverse_involutive, <- app_assoc.
  done.
Qed.

(** A version [X.Y.0] becomes [X.Y]. *)
Lemma zipVersion_patch_zero (X Y : list ascii) :
  digits X → X ≠ [] → digits Y → Y ≠ [] →
  zipVersion (string_of_list_ascii (X ++ "."%char :: Y ++ ["."%char; "0"%char]))
  = string_of_list_ascii (X ++ "."%char :: Y).
Proof.
  intros HX HXne HY HYne. unfold zipVersion, Regex.replace_with_group.
  rewrite match_patch_zero by done. simpl. by rewrite app_nil_r.
Qed.

Lemma digit_not_zero_dot : bool_decide ("."%char = "0"%char) = false.
Proof. reflexivity. Qed.

Lemma digit_not_terminator (c : ascii) :
  Regex.is_digit c = true → Regex.is_line_terminator c = false.
Proof.
  unfold Regex.is_digit, Regex.is_line_terminator.
  intros [H1 H2]%andb_prop.
  apply Nat.leb_le in H1. apply orb_false_intro; apply Nat.eqb_neq; lia.
Qed.

(** The pattern finds nothing in [X.Y.Z] when [Z] does not begin with
    [0] and [Y] has no [0] from its third digit on. *)
Lemma match_other_patch (X Y Z : list ascii) :
  digits X → digits Y → digits Z →
  head Z ≠ Some "0"%char →
  (∀ i, 2 ≤ i → Y !! i ≠ Some "0"%char) →
  Regex.match_start patch_zero_pattern
    (string_of_list_ascii (X ++ "."%char :: Y ++ "."%char :: Z))
  = None.
Proof.
  intros HX HY HZ HZ0 HY0.
  unfold Regex.match_start, patch_zero_pattern.
  rewrite list_ascii_of_string_of_list_ascii.
  generalize (S (length (X ++ "."%char :: Y ++ "."%char :: Z))). intros fuel.
  rewrite run_Seq, run_Group, run_Seq.
  apply plus_digit_none; [done|done|]. intros n Hn.
  rewrite run_Seq, run_Char.
  destruct (drop n X) as [|c rest] eqn:Hdrop.
  2: { assert (Regex.is_digit c = true) as Hc.
       { pose proof (Forall_drop _ n _ HX) as HF. rewrite Hdrop in HF.
         by inversion HF. }
       change ((c :: rest) ++ ?l) with (c :: (rest ++ l)).
       by rewrite step_cons, digit_not_dot. }
  change ([] ++ ?l) with l. rewrite step_cons.
  rewrite bool_decide_eq_true_2 by done. cbn [mbind option_bind].
  apply plus_digit_none; [done|done|]. intros m Hm.
  cbn [Regex.consumed Regex.ahead].
  rewrite run_Seq, run_AnyChar.
  destruct (drop m Y) as [|c rest] eqn:HdropY.
  - change ([] ++ ?l) with l. rewrite step_cons.
    change (Regex.is_line_terminator ".") with false.
    cbn [negb mbind option_bind]. rewrite run_Char.
    destruct Z as [|z Z']; [by rewrite step_nil|].
    rewrite step_cons, bool_decide_eq_false_2; [done|].
    intros ->. by apply HZ0.
  - assert (Regex.is_digit c = true) as Hc.
    { pose proof (Forall_drop _ m _ HY) as HF. rewrite HdropY in HF.
      by inversion HF. }
    change ((c :: rest) ++ ?l) with (c :: (rest ++ l)).
    rewrite step_cons, (digit_not_terminator c Hc).
    cbn [negb mbind option_bind]. rewrite run_Char.
    destruct rest as [|c' rest'].
    + change ([] ++ ?l) with l. by rewrite step_cons, digit_not_zero_dot.
    + change ((c' :: rest') ++ ?l) with (c' :: (rest' ++ l)).
      rewrite step_cons, bool_decide_eq_false_2; [done|].
      intros ->. apply (HY0 (m + 1)); [lia|].
      by rewrite <- lookup_drop, HdropY.
Qed.

(** A version [X.Y.Z] is left as it is when [Z] does not begin with [0]
    and [Y] has no [0] from its third digit on (in particular when [Y] has
    one or two digits). *)
Lemma zipVersion_other_patch (X Y Z : list ascii) :
  digits X → digits Y → digits Z →
  head Z ≠ Some "0"%char →
  (∀ i, 2 ≤ i → Y !! i ≠ Some "0"%char) →
  zipVersion (string_of_list_ascii (X ++ "."%char :: Y ++ "."%char :: Z))
  = string_of_list_ascii (X ++ "."%char :: Y ++ "."%char :: Z).
Proof.
  intros HX HY HZ HZ0 HY0. unfold zipVersion, Regex.replace_with_group.
  by rewrite match_other_patch.
Qed.

(** C9 does not hold of the code: the [.] of the pattern is not escaped,
    so that in ["6.100.2"] it matches the first [0] of the minor number,
    the pattern matches ["6.100"], and the patch version 2 ends up behind
    minor version 1: the configuration's [core] becomes the URL of
    [wordpress-6.1.2.zip]. *)
Theorem wpVersion_three_digit_minor
    (W : World) (environmentDirectory : string) (h : list call) :
  zipVersion "6.100.2" = "6.1.2"
  ∧ (∀ conf, patchConf "6.100.2" conf !! "core"
             = Some (JString "https://wordpress.org/wordpress-6.1.2.zip"))
  ∧ (completes W (h ++ [ReadJSONFile (environmentDirectory +:+ "/.wp-env.json")])
     = true →
     ∃ written,
       written !! "core"
       = Some (JString "https://wordpress.org/wordpress-6.1.2.zip")
       ∧ snd (useWordPressVersion W (mkOptions None None (Some "6.100.2"))
                environmentDirectory h)
         = h ++ [ ReadJSONFile (environmentDirectory +:+ "/.wp-env.json");
                  WriteFileSync (environmentDirectory +:+ "/.wp-env.json")
                    (StringifiedConf written) ]).
Proof.
  split_and!; [done | intros conf; apply lookup_insert_eq |].
  intros Hread.
  exists (patchConf "6.100.2"
            (parsedConf W
               (h ++ [ReadJSONFile (environmentDirectory +:+ "/.wp-env.json")]))).
  split; [apply lookup_insert_eq|].
  unfold useWordPressVersion, readJSONFile_conf, perform. simpl.
  unfold mbind, M_bind. rewrite Hread.
  case_match; simpl; by rewrite <- app_assoc.
Qed.

(** The version ["6.100.2"] in the world where every call completes. *)
Lemma wpVersion_three_digit_minor_witness :
  completes calm_world ([] ++ [ReadJSONFile ("/env" +:+ "/.wp-env.json")])
  = true
  ∧ ∃ written,
      written !! "core"
      = Some (JString "https://wordpress.org/wordpress-6.1.2.zip")
      ∧ snd (useWordPressVersion calm_world
               (mkOptions None None (Some "6.100.2")) "/env" [])
        = [] ++ [ ReadJSONFile ("/env" +:+ "/.wp-env.json");
                  WriteFileSync ("/env" +:+ "/.wp-env.json")
                    (StringifiedConf written) ].
Proof.
  split; [reflexivity|].
  exact (proj2 (proj2 (wpVersion_three_digit_minor calm_world "/env" []))
           eq_refl).
Defined.

(** ** The guard on the number of refs *)

Lemma resolveRefs_nonempty (env : ProcessEnv) (branches : list string) :
  1 ≤ length (resolveRefs env branches).
Proof.
  unfold resolveRefs.
  destruct (truthy (CI env) && negb (bool_decide (0 < length branches)));
    [simpl; lia|].
  case_bool_decide as Hlen; [simpl; lia|].
  rewrite length_fmap. lia.
Qed.

(** C2 does not hold of the code: the guard tests [refs.length <= 0],
    which no input reaches, since an empty list of branches is replaced by
    [[ 'trunk' ]] (or by the two refs of the CI environment) before the
    test. A single ref goes through: outside CI, [[ 'trunk' ]] (given, or
    the default) is provisioned and both suites are run on it. *)
Theorem single_ref_passes_guard :
  (∀ env branches h,
     checkRefs (resolveRefs env branches) h = (inr (), h))
  ∧ resolveRefs local_env [] = [Some "trunk"]
  ∧ resolveRefs local_env ["trunk"] = [Some "trunk"]
  ∧ let run :=
      runPerformanceTests calm_world local_env ["trunk"] no_options [] in
    returns run (λ results,
      is_Some (results !! "post-editor" ≫= (.!! "trunk"))
      ∧ is_Some (results !! "site-editor" ≫= (.!! "trunk")))
    ∧ run.2 !! 0%nat = Some (AskForConfirmation "Ready to go? ")
    ∧ run.2 !! 1%nat = Some GetRandomTemporaryPath
    ∧ GitRaw "/tmp/xx"
        [Some "fetch"; Some "--depth=1"; Some "origin"; Some "trunk"] ∈ run.2
    ∧ length (filter (λ c, is_start c) run.2) = 6
    ∧ length (filter (λ c, is_stop c) run.2) = 6.
Proof.
  split_and!; [|done|done|].
  - intros env branches h. unfold checkRefs.
    pose proof (resolveRefs_nonempty env branches).
    rewrite bool_decide_eq_false_2 by lia. done.
  - cbv zeta. split_and!; compute_done.
Qed.

(** ** Running a suite on a branch *)

Section Runs.

Context (W : World).

Lemma bind_run {A B} (m : M A) (f : A → M B) (h : list call) :
  (m ≫= f) h =
  match m h with
  | (inl e, h') => (inl e, h')
  | (inr x, h') => f x h'
  end.
Proof. reflexivity. Qed.

Lemma perform_run (c : call) (h : list call) :
  perform W c h =
  if completes W (h ++ [c]) then (inr (), h ++ [c])
  else (inl (Rejected c), h ++ [c]).
Proof. reflexivity. Qed.

(** [runTestSuite] spelled out: it stops at the first call that does
    not complete, and otherwise curates what it read. *)
Lemma runTestSuite_run (testSuite dir : string) (h : list call) :
  runTestSuite W testSuite dir h =
  if completes W (h ++ [testCommand testSuite dir])
  then
    if completes W (h ++ [testCommand testSuite dir;
                          readResults W testSuite dir])
    then (curateResults
            (parsedResults W (h ++ [testCommand testSuite dir;
                                    readResults W testSuite dir])),
          h ++ [testCommand testSuite dir; readResults W testSuite dir])
    else (inl (Rejected (readResults W testSuite dir)),
          h ++ [testCommand testSuite dir; readResults W testSuite dir])
  else (inl (Rejected (testCommand testSuite dir)),
        h ++ [testCommand testSuite dir]).
Proof.
  unfold runTestSuite, runShellScript, readJSONFile_results, lift.
  rewrite bind_run, perform_run. fold (testCommand testSuite dir).
  destruct (completes W (h ++ [testCommand testSuite dir])); [|done].
  rewrite bind_run. fold (readResults W testSuite dir).
  rewrite <- !app_assoc. simpl.
  by destruct (completes W _).
Qed.

(** Where [runTestSuite] leaves the history. *)
Lemma runTestSuite_history (testSuite dir : string) (h : list call) :
  (∀ curated h',
     runTestSuite W testSuite dir h = (inr curated, h') →
     h' = h ++ [testCommand testSuite dir; readResults W testSuite dir])
  ∧ (∀ e h',
       runTestSuite W testSuite dir h = (inl e, h') →
       h' = h ++ [testCommand testSuite dir]
       ∨ h' = h ++ [testCommand testSuite dir; readResults W testSuite dir]).
Proof.
  rewrite runTestSuite_run.
  split; intros ? h' Hrun; repeat case_match; simplify_eq; auto.
Qed.

Lemma runOnBranch_run (dirs : gmap string string) (dir testSuite : string)
    (i : nat) (ref : jsstring)
    (rawResults : list (gmap string WPPerformanceResults)) (h : list call) :
  runOnBranch W dirs dir testSuite i ref rawResults h =
  if completes W (h ++ [startCall dirs ref])
  then
    match runTestSuite W testSuite dir (h ++ [startCall dirs ref]) with
    | (inl e, h') => (inl e, h')
    | (inr curated, h') =>
        match set_row rawResults i (key ref) curated with
        | inl e => (inl e, h')
        | inr rawResults' =>
            if completes W (h' ++ [stopCall dirs ref])
            then (inr rawResults', h' ++ [stopCall dirs ref])
            else (inl (Rejected (stopCall dirs ref)),
                  h' ++ [stopCall dirs ref])
        end
    end
  else (inl (Rejected (startCall dirs ref)), h ++ [startCall dirs ref]).
Proof.
  unfold runOnBranch, runShellScript, lift.
  rewrite bind_run, perform_run. fold (startCall dirs ref).
  destruct (completes W (h ++ [startCall dirs ref])); [|done].
  rewrite bind_run.
  destruct (runTestSuite W testSuite dir (h ++ [startCall dirs ref]))
    as [[e|curated] h']; [done|].
  rewrite bind_run.
  destruct (set_row rawResults i (key ref) curated) as [e|rawResults'];
    [done|].
  rewrite bind_run, perform_run. fold (stopCall dirs ref).
  by destruct (completes W _).
Qed.

Lemma stops_of_execution (dirs : gmap string string)
    (dir testSuite : string) (ref : jsstring) :
  filter (λ c, is_stop c) [startCall dirs ref; testCommand testSuite dir]
  = []
  ∧ filter (λ c, is_stop c)
      [startCall dirs ref; testCommand testSuite dir;
       readResults W testSuite dir]
    = []
  ∧ filter (λ c, is_stop c)
      [startCall dirs ref; testCommand testSuite dir;
       readResults W testSuite dir; stopCall dirs ref]
    = [stopCall dirs ref].
Proof. by split_and!. Qed.

(** C1 (amended): once [wp-env start] has completed, a failure of
    [runTestSuite] reaches the caller at once and [wp-env stop] is not
    run for that execution: the calls made are the start and those of
    [runTestSuite] up to the failing one; when [runTestSuite] returns,
    [wp-env stop] is run, once, right after it. *)
Theorem stop_follows_success_only (dirs : gmap string string)
    (dir testSuite : string) (i : nat) (ref : jsstring)
    (rawResults : list (gmap string WPPerformanceResults))
    (h : list call) :
  is_Some (rawResults !! i) →
  completes W (h ++ [startCall dirs ref]) = true →
  (∀ e h',
     runTestSuite W testSuite dir (h ++ [startCall dirs ref]) = (inl e, h') →
     runOnBranch W dirs dir testSuite i ref rawResults h = (inl e, h')
     ∧ (h' = h ++ [startCall dirs ref; testCommand testSuite dir]
        ∨ h' = h ++ [startCall dirs ref; testCommand testSuite dir;
                     readResults W testSuite dir])
     ∧ length (filter (λ c, is_stop c) h')
       = length (filter (λ c, is_stop c) h))
  ∧ (∀ curated h',
       runTestSuite W testSuite dir (h ++ [startCall dirs ref])
       = (inr curated, h') →
       (runOnBranch W dirs dir testSuite i ref rawResults h).2
       = h ++ [startCall dirs ref; testCommand testSuite dir;
               readResults W testSuite dir; stopCall dirs ref]
       ∧ length (filter (λ c, is_stop c)
                   (runOnBranch W dirs dir testSuite i ref rawResults h).2)
         = S (length (filter (λ c, is_stop c) h))).
Proof.
  intros [row Hrow] Hstart. rewrite runOnBranch_run, Hstart.
  destruct (runTestSuite_history testSuite dir (h ++ [startCall dirs ref]))
    as [Hok Hfail].
  split.
  - intros e h' Hrun. rewrite Hrun. split; [done|].
    assert (h' = h ++ [startCall dirs ref; testCommand testSuite dir]
            ∨ h' = h ++ [startCall dirs ref; testCommand testSuite dir;
                         readResults W testSuite dir]) as Hh'.
    { destruct (Hfail e h' Hrun) as [->| ->]; rewrite <- app_assoc; auto. }
    split; [done|].
    destruct (stops_of_execution dirs dir testSuite ref) as (E2 & E3 & _).
    destruct Hh' as [->| ->]; rewrite list.filter_app, length_app;
      [rewrite E2 | rewrite E3]; simpl; lia.
  - intros curated h' Hrun. rewrite Hrun.
    rewrite (Hok curated h' Hrun).
    unfold set_row. rewrite Hrow. simpl.
    assert (∀ r : result (list (gmap string WPPerformanceResults)) * list call,
              r.2 = ((h ++ [startCall dirs ref])
                     ++ [testCommand testSuite dir; readResults W testSuite dir])
                    ++ [stopCall dirs ref] →
              r.2 = h ++ [startCall dirs ref; testCommand testSuite dir;
                          readResults W testSuite dir; stopCall dirs ref]
              ∧ length (filter (λ c, is_stop c) r.2)
                = S (length (filter (λ c, is_stop c) h))) as Hshape.
    { intros r ->. rewrite <- !app_assoc. split; [done|].
      destruct (stops_of_execution dirs dir testSuite ref) as (_ & _ & E4).
      rewrite list.filter_app, length_app. simpl app.
      rewrite E4. simpl. lia. }
    apply Hshape. by case_match.
Qed.

End Runs.

(** C1, as stated, fails: where the test command fails, the suite
    execution ends with that failure after [wp-env start] and the test
    command, and the whole command ends the same way, one environment
    started and none stopped. *)
Lemma failed_test_leaves_environment_running :
  runOnBranch failing_tests_world {[ "trunk" := "/envs/trunk" ]} "/tests"
    "post-editor" 0 (Some "trunk") [∅] []
  = (inl (Rejected (testCommand "post-editor" "/tests")),
     [ RunShellScript startCommand (Some "/envs/trunk");
       testCommand "post-editor" "/tests" ])
  ∧ let run :=
      runPerformanceTests failing_tests_world local_env ["trunk"] no_options []
    in
    run.1 = inl (Rejected (testCommand "post-editor" "/tmp/xxxxxxxxx/tests"))
    ∧ length (filter (λ c, is_start c) run.2) = 1
    ∧ length (filter (λ c, is_stop c) run.2) = 0.
Proof. cbv zeta. split_and!; by vm_compute. Qed.

(** A suite execution in the world where the test command fails. *)
Lemma stop_follows_success_only_witness :
  is_Some (([∅] : list (gmap string WPPerformanceResults)) !! 0%nat)
  ∧ completes failing_tests_world
      ([] ++ [startCall {[ "trunk" := "/envs/trunk" ]} (Some "trunk")]) = true
  ∧ runOnBranch failing_tests_world {[ "trunk" := "/envs/trunk" ]} "/tests"
      "post-editor" 0 (Some "trunk") [∅] []
    = (inl (Rejected (testCommand "post-editor" "/tests")),
       [ RunShellScript startCommand (Some "/envs/trunk");
         testCommand "post-editor" "/tests" ]).
Proof.
  assert (Hrow : is_Some (([∅] : list (gmap string WPPerformanceResults))
                            !! 0%nat)) by (by eexists).
  assert (Hstart : completes failing_tests_world
            ([] ++ [startCall {[ "trunk" := "/envs/trunk" ]} (Some "trunk")])
          = true) by reflexivity.
  split_and!; [exact Hrow | exact Hstart |].
  refine (proj1 (proj1
    (stop_follows_success_only failing_tests_world
       {[ "trunk" := "/envs/trunk" ]} "/tests" "post-editor" 0 (Some "trunk")
       [∅] [] Hrow Hstart) _ _ _)).
  reflexivity.
Defined.

(** ** The trial loop *)

(** Assignments to a dictionary, read through its own properties. *)
Lemma lookup_assign_ne {A} (object : gmap string A) (name k : string) (value : A) :
  name ≠ k → assign object name value !! k = object !! k.
Proof.
  intros Hne. unfold assign. destruct (decide (name = "__proto__")); [done|].
  by rewrite lookup_insert_ne.
Qed.

Lemma lookup_assign_eq {A} (object : gmap string A) (name : string) (value : A) :
  name ≠ "__proto__" → assign object name value !! name = Some value.
Proof.
  intros Hne. unfold assign. destruct (decide (name = "__proto__")); [done|].
  by rewrite lookup_insert_eq.
Qed.

Lemma lookup_assign_proto {A} (object : gmap string A) (name : string) (value : A) :
  assign object name value !! "__proto__" = object !! "__proto__".
Proof.
  unfold assign. destruct (decide (name = "__proto__")) as [|Hne]; [done|].
  by rewrite lookup_insert_ne.
Qed.

Section Trials.

Context (W : World).
Context (refs : list jsstring) (dirs : gmap string string) (dir : string).

Implicit Types (testSuite : string) (h : list call).
Implicit Types (rawResults : list (gmap string WPPerformanceResults)).

(** A suite execution that returns. *)
Lemma runOnBranch_inr testSuite i ref rawResults rawResults' h h' :
  runOnBranch W dirs dir testSuite i ref rawResults h = (inr rawResults', h') →
  ∃ curated row,
    rawResults !! i = Some row
    ∧ (runTestSuite W testSuite dir (h ++ [startCall dirs ref])).1
      = inr curated
    ∧ rawResults' = <[i := <[key ref := curated]> row]> rawResults
    ∧ h' = h ++ executionCalls W dirs dir testSuite ref.
Proof.
  rewrite runOnBranch_run. intros Hrun.
  destruct (completes W (h ++ [startCall dirs ref])); [|done].
  destruct (runTestSuite W testSuite dir (h ++ [startCall dirs ref]))
    as [[e|curated] h1] eqn:Htest; [done|].
  apply (proj1 (runTestSuite_history W testSuite dir _)) in Htest as Hh1.
  unfold set_row in Hrun.
  destruct (rawResults !! i) as [row|] eqn:Hrow; [|done].
  simpl in Hrun. case_match; [|done]. simplify_eq.
  exists curated, row. split_and!; [done..|].
  unfold executionCalls. by rewrite <- !app_assoc.
Qed.

(** One round: the loop over the refs, for the row [i] of
    [rawResults]. *)
Lemma round_inr testSuite i (refs0 : list jsstring) rawResults rawResults'
    h h' row :
  for_of refs0 (runOnBranch W dirs dir testSuite i) rawResults h
  = (inr rawResults', h') →
  rawResults !! i = Some row →
  h' = h ++ roundCalls W refs0 dirs dir testSuite
  ∧ ∃ row',
      rawResults' = <[i := row']> rawResults
      ∧ (∀ k, (∀ ref, ref ∈ refs0 → key ref ≠ k) → row' !! k = row !! k)
      ∧ (∀ ref, ref ∈ refs0 → is_Some (row' !! key ref))
      ∧ (∀ j ref,
           refs0 !! j = Some ref →
           ∃ curated,
             (runTestSuite W testSuite dir
                (h ++ roundCalls W (take j refs0) dirs dir testSuite
                   ++ [startCall dirs ref])).1 = inr curated
             ∧ ((∀ j' ref', j < j' → refs0 !! j' = Some ref' →
                   key ref' ≠ key ref) →
                row' !! key ref = Some curated)).
Proof.
  revert rawResults h row.
  induction refs0 as [|ref0 rest IH]; intros rawResults h row Hrun Hrow.
  - simpl in Hrun. injection Hrun as <- <-.
    split; [by rewrite app_nil_r|].
    exists row. split_and!.
    + by rewrite list_insert_id.
    + done.
    + intros ref Href. inversion Href.
    + intros j ref Hj. by rewrite lookup_nil in Hj.
  - simpl in Hrun. rewrite bind_run in Hrun.
    destruct (runOnBranch W dirs dir testSuite i ref0 rawResults h)
      as [[e|rawResults1] h1] eqn:Hbody; [done|].
    apply runOnBranch_inr in Hbody
      as (curated & row0 & Hrow0 & Htest & -> & ->).
    rewrite Hrow in Hrow0. injection Hrow0 as <-.
    assert (i < length rawResults) as Hi by by eapply lookup_lt_Some.
    destruct (IH _ _ (<[key ref0 := curated]> row) Hrun)
      as (-> & row' & -> & Hframe & Hdom & Hexec);
      [by rewrite list_lookup_insert_eq|].
    split.
    { unfold roundCalls. simpl. by rewrite <- app_assoc. }
    exists row'. split_and!.
    + by rewrite list_insert_insert_eq.
    + intros k Hk. rewrite Hframe.
      * rewrite lookup_insert_ne; [done|]. apply Hk, list_elem_of_here.
      * intros ref Href. by apply Hk, list_elem_of_further.
    + intros ref [->|Href]%elem_of_cons; [|by apply Hdom].
      destruct (decide (key ref0 ∈ key <$> rest)) as [Hin|Hnotin].
      * apply list_elem_of_fmap in Hin as (ref' & Heq & Href').
        rewrite Heq. by apply Hdom.
      * rewrite Hframe; [by rewrite lookup_insert_eq; eexists|].
        intros ref' Href' Heq. apply Hnotin, list_elem_of_fmap. eauto.
    + intros [|j] ref Hj.
      * injection Hj as <-. exists curated. split.
        { unfold roundCalls at 1. simpl. exact Htest. }
        intros Hlast. rewrite Hframe; [by rewrite lookup_insert_eq|].
        intros ref' [j' Hj']%list_elem_of_lookup.
        apply (Hlast (S j') ref'); [lia | done].
      * destruct (Hexec j ref Hj) as (curated' & Htest' & Hstored).
        exists curated'. split.
        { simpl take. unfold roundCalls in *. simpl.
          rewrite <- !app_assoc in *. exact Htest'. }
        intros Hlast. apply Hstored.
        intros j' ref' Hlt Hj'. apply (Hlast (S j') ref'); [lia | done].
Qed.

(** The three rounds of a suite. *)
Lemma runRounds_inr testSuite rawResults h h' :
  runRounds W refs dirs dir testSuite h = (inr rawResults, h') →
  h' = h ++ trialCalls W refs dirs dir testSuite
  ∧ length rawResults = 3
  ∧ (∀ i row ref,
       rawResults !! i = Some row → ref ∈ refs → is_Some (row !! key ref))
  ∧ (∀ i j ref,
       i < 3 →
       refs !! j = Some ref →
       ∃ curated,
         (runTestSuite W testSuite dir
            (testPoint W refs dirs dir testSuite h i j ref)).1 = inr curated
         ∧ ((∀ j' ref', j < j' → refs !! j' = Some ref' →
               key ref' ≠ key ref) →
            rawResults !! i ≫= (.!! key ref) = Some curated)).
Proof.
  unfold runRounds. simpl seq. intros Hrun.
  simpl in Hrun. rewrite bind_run in Hrun.
  destruct (for_of refs (runOnBranch W dirs dir testSuite 0)
              (array_set [] 0 ∅) h) as [[e|raw1] h1] eqn:H0; [done|].
  apply (round_inr _ _ _ _ _ _ _ ∅) in H0
    as (-> & row0 & -> & _ & Hdom0 & Hexec0); [|done].
  rewrite bind_run in Hrun.
  destruct (for_of refs (runOnBranch W dirs dir testSuite 1) _ _)
    as [[e|raw2] h2] eqn:H1; [done|].
  apply (round_inr _ _ _ _ _ _ _ ∅) in H1
    as (-> & row1 & -> & _ & Hdom1 & Hexec1); [|done].
  rewrite bind_run in Hrun.
  destruct (for_of refs (runOnBranch W dirs dir testSuite 2) _ _)
    as [[e|raw3] h3] eqn:H2; [done|].
  apply (round_inr _ _ _ _ _ _ _ ∅) in H2
    as (-> & row2 & -> & _ & Hdom2 & Hexec2); [|done].
  injection Hrun as <- <-.
  change (<[2:=row2]> (array_set (<[1:=row1]> (array_set (<[0:=row0]>
            (array_set [] 0 ∅)) 1 ∅)) 2 ∅))
    with [row0; row1; row2].
  split_and!.
  - unfold trialCalls. by rewrite <- !app_assoc.
  - done.
  - intros [|[|[|i]]] row ref Hrow Href; simplify_eq/=; auto.
  - intros i j ref Hi Hj. unfold testPoint.
    destruct i as [|[|[|i]]]; [| | |lia]; cbn [replicate concat].
    + destruct (Hexec0 j ref Hj) as (curated & Htest & Hstored).
      exists curated. split; [exact Htest | exact Hstored].
    + destruct (Hexec1 j ref Hj) as (curated & Htest & Hstored).
      exists curated. rewrite app_nil_r. rewrite <- !app_assoc in Htest.
      split; [exact Htest | exact Hstored].
    + destruct (Hexec2 j ref Hj) as (curated & Htest & Hstored).
      exists curated. rewrite app_nil_r. rewrite <- !app_assoc in Htest.
      rewrite <- !app_assoc.
      split; [exact Htest | exact Hstored].
Qed.

(** The value stored for a ref by the median computation. *)
Lemma computeMedians_inr testSuite rawResults ref
    (results results' : gmap string (gmap string WPPerformanceResults))
    (table : gmap string WPPerformanceResults) :
  computeMedians testSuite rawResults ref results = inr results' →
  results !! testSuite = Some table →
  ∃ rows,
    mapM (λ r : gmap string WPPerformanceResults,
            property_of "serverResponse" (r !! key ref)) rawResults
    = inr rows
    ∧ results'
      = <[testSuite :=
            assign table (key ref)
              (mapValues (mapValues (columns rows) median) formatTime)]>
          results.
Proof.
  unfold computeMedians, perRound, set_nested. intros Hrun Htable.
  destruct (mapM _ rawResults) as [e|rows]; [done|].
  simpl in Hrun. rewrite Htable in Hrun. injection Hrun as <-.
  by exists rows.
Qed.

(** The loop that computes the medians, ref by ref. *)
Lemma medians_inr testSuite rawResults (refs0 : list jsstring)
    (results results' : gmap string (gmap string WPPerformanceResults))
    (table : gmap string WPPerformanceResults) h h' :
  for_of refs0
    (λ ref results, lift (computeMedians testSuite rawResults ref results))
    results h = (inr results', h') →
  results !! testSuite = Some table →
  h' = h
  ∧ ∃ table',
      results' = <[testSuite := table']> results
      ∧ (∀ k, (∀ ref, ref ∈ refs0 → key ref ≠ k) → table' !! k = table !! k)
      ∧ table' !! "__proto__" = table !! "__proto__"
      ∧ (∀ ref, ref ∈ refs0 →
           ∃ rows,
             mapM (λ r : gmap string WPPerformanceResults,
                     property_of "serverResponse" (r !! key ref)) rawResults
             = inr rows
             ∧ (key ref ≠ "__proto__" →
                table' !! key ref
                = Some (mapValues (mapValues (columns rows) median)
                          formatTime))).
Proof.
  revert results table h.
  induction refs0 as [|ref0 rest IH]; intros results table h Hrun Htable.
  - simpl in Hrun. injection Hrun as <- <-. split; [done|].
    exists table. split_and!.
    + by rewrite insert_id.
    + done.
    + done.
    + intros ref Href. inversion Href.
  - simpl in Hrun. rewrite bind_run in Hrun. unfold lift at 1 in Hrun.
    destruct (computeMedians testSuite rawResults ref0 results)
      as [e|results1] eqn:Hstep; [done|].
    destruct (computeMedians_inr _ _ _ _ _ _ Hstep Htable)
      as (rows0 & Hrows0 & ->).
    destruct (IH _ _ _ Hrun (lookup_insert_eq _ _ _))
      as (-> & table' & -> & Hframe & Hproto & Hvalue).
    split; [done|]. exists table'. split_and!.
    + by rewrite insert_insert_eq.
    + intros k Hk. rewrite Hframe.
      * apply lookup_assign_ne, Hk, list_elem_of_here.
      * intros ref Href. by apply Hk, list_elem_of_further.
    + rewrite Hproto. apply lookup_assign_proto.
    + intros ref [->|Href]%elem_of_cons; [|by apply Hvalue].
      destruct (decide (key ref0 ∈ key <$> rest)) as [Hin|Hnotin].
      * apply list_elem_of_fmap in Hin as (ref' & Heq & Href').
        rewrite Heq. by apply Hvalue.
      * exists rows0. split; [done|]. intros Hname.
        rewrite Hframe; [by apply lookup_assign_eq|].
        intros ref' Href' Heq. apply Hnotin, list_elem_of_fmap. eauto.
Qed.

(** One suite: its rounds, then its row of the result table. *)
Lemma runSuite_inr testSuite
    (results results' : gmap string (gmap string WPPerformanceResults))
    h h' :
  runSuite W refs dirs dir testSuite results h = (inr results', h') →
  ∃ rawResults table,
    runRounds W refs dirs dir testSuite h = (inr rawResults, h')
    ∧ results' = <[testSuite := table]> results
    ∧ table !! "__proto__" = None
    ∧ (∀ ref, ref ∈ refs →
         ∃ rows,
           mapM (λ r : gmap string WPPerformanceResults,
                   property_of "serverResponse" (r !! key ref)) rawResults
           = inr rows
           ∧ (key ref ≠ "__proto__" →
              table !! key ref
              = Some (mapValues (mapValues (columns rows) median)
                        formatTime))).
Proof.
  unfold runSuite. rewrite bind_run. intros Hrun.
  destruct (runRounds W refs dirs dir testSuite h)
    as [[e|rawResults] h1] eqn:Hrounds; [done|].
  destruct (medians_inr _ _ _ _ _ ∅ _ _ Hrun (lookup_insert_eq _ _ _))
    as (-> & table & -> & _ & Hproto & Hvalue).
  exists rawResults, table. split_and!; [done| |done|done].
  by rewrite insert_insert_eq.
Qed.

(** Both suites. *)
Lemma runTests_inr (results : gmap string (gmap string WPPerformanceResults))
    h h' :
  runTests W refs dirs dir h = (inr results, h') →
  h' = h ++ trialCalls W refs dirs dir "post-editor"
         ++ trialCalls W refs dirs dir "site-editor"
  ∧ ∀ testSuite before,
      (testSuite, before)
      ∈ [ ("post-editor", h);
          ("site-editor", h ++ trialCalls W refs dirs dir "post-editor") ] →
      ∃ rawResults table,
        runRounds W refs dirs dir testSuite before
        = (inr rawResults, before ++ trialCalls W refs dirs dir testSuite)
        ∧ results !! testSuite = Some table
        ∧ table !! "__proto__" = None
        ∧ (∀ ref, ref ∈ refs →
             ∃ rows,
               mapM (λ r : gmap string WPPerformanceResults,
                       property_of "serverResponse" (r !! key ref))
                 rawResults = inr rows
               ∧ (key ref ≠ "__proto__" →
                  table !! key ref
                  = Some (mapValues (mapValues (columns rows) median)
                            formatTime))).
Proof.
  unfold runTests, testSuites. simpl for_of. intros Hrun.
  rewrite bind_run in Hrun.
  destruct (runSuite W refs dirs dir "post-editor" ∅ h)
    as [[e|results1] h1] eqn:Hpost; [done|].
  rewrite bind_run in Hrun.
  destruct (runSuite W refs dirs dir "site-editor" results1 h1)
    as [[e|results2] h2] eqn:Hsite; [done|].
  injection Hrun as <- <-.
  apply runSuite_inr in Hpost
    as (raw1 & table1 & Hrounds1 & -> & Hproto1 & Hvalue1).
  apply runSuite_inr in Hsite
    as (raw2 & table2 & Hrounds2 & -> & Hproto2 & Hvalue2).
  destruct (runRounds_inr _ _ _ _ Hrounds1) as (-> & _).
  destruct (runRounds_inr _ _ _ _ Hrounds2) as (-> & _).
  split; [by rewrite <- app_assoc|].
  intros testSuite before Hin.
  apply elem_of_cons in Hin as [Heq|Hin]; [injection Heq as -> ->|].
  { exists raw1, table1. split_and!; [done| |done|done].
    rewrite lookup_insert_ne by done. apply lookup_insert_eq. }
  apply list_elem_of_singleton in Hin. injection Hin as -> ->.
  exists raw2, table2. split_and!; [done| |done|done].
  apply lookup_insert_eq.
Qed.

(** C5: when the trial loop completes, the calls it made are, for
    ["post-editor"] and then for ["site-editor"], three rounds, each
    round the suite executions of the refs in the order of [refs], the
    same in every round; each of these executions ran [runTestSuite] once
    and its curated result is what the round's accumulator holds for that
    ref (unless the same ref occurs again later in [refs]). *)
Theorem trial_loop_order
    (results : gmap string (gmap string WPPerformanceResults)) h h' :
  runTests W refs dirs dir h = (inr results, h') →
  h' = h ++ trialCalls W refs dirs dir "post-editor"
         ++ trialCalls W refs dirs dir "site-editor"
  ∧ ∀ testSuite before,
      (testSuite, before)
      ∈ [ ("post-editor", h);
          ("site-editor", h ++ trialCalls W refs dirs dir "post-editor") ] →
      ∃ rawResults,
        runRounds W refs dirs dir testSuite before
        = (inr rawResults, before ++ trialCalls W refs dirs dir testSuite)
        ∧ length rawResults = 3
        ∧ ∀ i j ref,
            i < 3 →
            refs !! j = Some ref →
            ∃ curated,
              (runTestSuite W testSuite dir
                 (testPoint W refs dirs dir testSuite before i j ref)).1
              = inr curated
              ∧ ((∀ j' ref', j < j' → refs !! j' = Some ref' →
                    key ref' ≠ key ref) →
                 rawResults !! i ≫= (.!! key ref) = Some curated).
Proof.
  intros Hrun. destruct (runTests_inr _ _ _ Hrun) as [Hh' Hsuites].
  split; [exact Hh'|].
  intros testSuite before Hin.
  destruct (Hsuites testSuite before Hin) as (rawResults & _ & Hrounds & _).
  exists rawResults. split; [exact Hrounds|].
  destruct (runRounds_inr _ _ _ _ Hrounds) as (_ & Hlen & _ & Hexec).
  split; [exact Hlen | exact Hexec].
Qed.



End Trials.

(** The calls of the trial loop for two refs, in the world where every
    call completes. *)
Lemma trial_loop_order_witness :
  returns (runTests calm_world two_refs two_dirs "/tests" []) (λ results,
    (runTests calm_world two_refs two_dirs "/tests" []).2
    = [] ++ trialCalls calm_world two_refs two_dirs "/tests" "post-editor"
         ++ trialCalls calm_world two_refs two_dirs "/tests" "site-editor").
Proof.
  assert (Hok : succeeded (runTests calm_world two_refs two_dirs "/tests" []).1
                = true) by (vm_compute; reflexivity).
  revert Hok.
  destruct (runTests calm_world two_refs two_dirs "/tests" [])
    as [[e|results] h'] eqn:Hrun; intros Hok.
  - discriminate Hok.
  - exists results. split; [reflexivity|].
    exact (proj1 (trial_loop_order calm_world two_refs two_dirs "/tests"
                    results [] h' Hrun)).
Defined.


(** ** The command as a whole *)

(** The table the command ends with is the one its trial loop returned,
    run on the resolved refs. *)
Lemma runPerformanceTests_inr (W : World) (env : ProcessEnv)
    (branches : list string) (options : WPPerformanceCommandOptions)
    (results : gmap string (gmap string WPPerformanceResults))
    (h h' : list call) :
  runPerformanceTests W env branches options h = (inr results, h') →
  ∃ dirs dir before after,
    runTests W (resolveRefs env branches) dirs dir before
    = (inr results, after).
Proof.
  unfold runPerformanceTests. intros Hrun.
  rewrite bind_run in Hrun.
  destruct (when _ _ h) as [[e|[]] h1]; [done|].
  rewrite bind_run in Hrun.
  destruct (checkRefs _ h1) as [[e|[]] h2]; [done|].
  rewrite bind_run in Hrun.
  destruct (prepareTestsDirectory W _ h2)
    as [[e|[[baseDirectory rootDirectory] dir]] h3]; [done|].
  rewrite bind_run in Hrun.
  destruct (for_of _ _ _ h3) as [[e|dirs] h4]; [done|].
  rewrite bind_run in Hrun.
  destruct (runTests W _ dirs dir h4) as [[e|results'] h5] eqn:Htests; [done|].
  rewrite bind_run in Hrun.
  destruct (for_of _ _ _ h5) as [[e|[]] h6]; [done|].
  injection Hrun as <- <-. by exists dirs, dir, h4, h5.
Qed.

(** ** The number model against the primitive floats

    On the sample pairs the four operators of the model return what the
    IEEE 754 operations of the primitive floats return, the results that
    round, overflow or fall into the subnormal range included. *)
Lemma operators_agree_with_floats :
  Forall (λ '(a, b),
            agrees Num.add PrimFloat.add a b = true
            ∧ agrees Num.sub PrimFloat.sub a b = true
            ∧ agrees Num.mul PrimFloat.mul a b = true
            ∧ agrees Num.div PrimFloat.div a b = true) float_samples.
Proof. repeat constructor; vm_compute; reflexivity. Qed.

(** The decimal literals of the model are the floats of the same
    literal. *)
Lemma literals_agree_with_floats :
  lit 12.345 = of_float 12.345 ∧ lit 12.35 = of_float 12.35
  ∧ lit 12.344 = of_float 12.344 ∧ lit 12.34 = of_float 12.34
  ∧ lit 0.015 = of_float 0.015 ∧ lit 0.02 = of_float 0.02
  ∧ lit 0.1 = of_float 0.1
  ∧ lit 0.10000000000000002 = of_float 0.10000000000000002.
Proof. split_and!; compute_done. Qed.

(* ===================================================================== *)
(** * Further properties *)
(* ===================================================================== *)

(** ** More on [formatTime] *)

Lemma of_Z_le (x y : Z) :
  (x ≤ y)%Z → (Q2Qc (inject_Z x) <= Q2Qc (inject_Z y))%Qc.
Proof.
  intros Hxy. unfold Qcle. cbn [this Q2Qc]. apply Qred_le.
  by rewrite <- Zle_Qle.
Qed.

Lemma scaled_le (a b : Qc) :
  (a <= b)%Qc → (a * Q2Qc 100 <= b * Q2Qc 100)%Qc.
Proof. intros Hab. apply Qcmult_le_compat_r; [done | compute_done]. Qed.

Lemma hundredths_le (x y : Z) :
  (x ≤ y)%Z →
  (Q2Qc (inject_Z x) / Q2Qc 100 <= Q2Qc (inject_Z y) / Q2Qc 100)%Qc.
Proof.
  intros Hxy. unfold Qcdiv.
  apply Qcmult_le_compat_r; [by apply of_Z_le | compute_done].
Qed.

(** The integer [Math.round] finds, divided by 100. *)
Lemma hundredths_round (z : Z) :
  (of_Z z / Math.pow10 2)%js
  = Binary64.round (Q2Qc (inject_Z z) / Q2Qc 100)%Qc.
Proof. reflexivity. Qed.

(** X2: [formatTime] keeps the order of finite times: rounding never
    makes the smaller of two times the greater. *)
Theorem formatTime_monotone (a b : Qc) :
  (a <= b)%Qc → ascending (formatTime (Fin a)) (formatTime (Fin b)).
Proof.
  intros Hab. unfold formatTime, ascending.
  change (Fin a * Math.pow10 2)%js with (Binary64.round (a * Q2Qc 100)%Qc).
  change (Fin b * Math.pow10 2)%js with (Binary64.round (b * Q2Qc 100)%Qc).
  pose proof (round_mono _ _ (scaled_le a b Hab)) as Hm.
  pose proof (round_not_NaN (a * Q2Qc 100)%Qc) as Ha.
  pose proof (round_not_NaN (b * Q2Qc 100)%Qc) as Hb.
  destruct (Binary64.round (a * Q2Qc 100)%Qc) as [p| | |],
    (Binary64.round (b * Q2Qc 100)%Qc) as [p'| | |]; try done;
    cbn [Math.round]; rewrite ?hundredths_round.
  - apply round_mono, hundredths_le, Qfloor_resp_le.
    apply bool_decide_eq_true in Hm.
    change (p + Q2Qc (1 # 2) <= p' + Q2Qc (1 # 2))%Qc.
    apply Qcplus_le_compat; [done | apply Qcle_refl].
  - pose proof (round_not_NaN
        (Q2Qc (inject_Z (Qfloor (p + Q2Qc (1 # 2))%Qc)) / Q2Qc 100)%Qc) as H.
    by destruct (Binary64.round _).
  - pose proof (round_not_NaN
        (Q2Qc (inject_Z (Qfloor (p' + Q2Qc (1 # 2))%Qc)) / Q2Qc 100)%Qc) as H.
    by destruct (Binary64.round _).
Qed.

(** The times 12.344 and 12.345. *)
Lemma formatTime_monotone_witness :
  (Q2Qc 12.344 <= Q2Qc 12.345)%Qc
  ∧ ascending (formatTime (Fin (Q2Qc 12.344))) (formatTime (Fin (Q2Qc 12.345))).
Proof.
  assert (H : (Q2Qc 12.344 <= Q2Qc 12.345)%Qc) by compute_done.
  split; [exact H|]. exact (formatTime_monotone _ _ H).
Defined.

(** *** Formatting twice *)

Local Open Scope Q_scope.

(** The relative error of a rounding above the subnormal range is at most
    [2^-53]. *)
Lemma rounded_error (x : Q) :
  0 < x → (-1022 <= Binary64.ilog2 x)%Z →
  x * (1 - (1 # 9007199254740992)) <= Binary64.rounded x
  ∧ Binary64.rounded x <= x * (1 + (1 # 9007199254740992)).
Proof.
  intros Hx Hn. unfold Binary64.rounded. cbv zeta.
  assert (Binary64.exponent x = Binary64.ilog2 x - 52)%Z as He
    by (unfold Binary64.exponent; lia).
  destruct (ilog2_spec x Hx) as [Hlow _].
  assert (2 ^ Binary64.ilog2 x == 2 ^ 52 * 2 ^ Binary64.exponent x) as Hp
    by (rewrite He, <- pow2_plus; f_equiv; lia).
  pose proof (pow2_pos (Binary64.exponent x)) as Hpos.
  destruct (nearest_even_near (x / 2 ^ Binary64.exponent x)) as [Hm1 Hm2].
  assert (x == x / 2 ^ Binary64.exponent x * 2 ^ Binary64.exponent x) as Hx'
    by (field; lra).
  set (P := 2 ^ Binary64.exponent x) in *.
  set (t := x / P) in *.
  set (m := inject_Z (Binary64.nearest_even t)) in *.
  change (2 ^ 52) with (inject_Z (2 ^ 52)) in Hp.
  change (1 # 9007199254740992) with (/ (2 * inject_Z (2 ^ 52))).
  set (c := inject_Z (2 ^ 52)) in *.
  assert (0 < c) as Hc by (subst c; reflexivity).
  clearbody m t P c.
  assert (c <= t) as Ht by nra.
  assert (/ (2 * c) * (2 * c) == 1) as Hinv by (field; lra).
  set (u := / (2 * c)) in *.
  assert (0 < u) as Hu by (subst u; apply Qinv_lt_0_compat; lra).
  clearbody u.
  assert (P <= 2 * u * x) as HP by (rewrite Hx' at 1; nra).
  split; nra.
Qed.

Lemma Qfloor_unique (x : Q) (z : Z) :
  inject_Z z <= x → x < inject_Z z + 1 → Qfloor x = z.
Proof.
  intros Hle Hlt.
  pose proof (Qfloor_le x) as Hf1. pose proof (Qlt_floor x) as Hf2.
  assert (inject_Z (Qfloor x) < inject_Z (z + 1)) as H1
    by (rewrite inject_Z_plus; change (inject_Z 1) with 1; lra).
  assert (inject_Z z < inject_Z (Qfloor x + 1)) as H2 by lra.
  rewrite <- Zlt_Qlt in H1, H2. lia.
Qed.

(** A rounding between two finite roundings is finite. *)
Lemma round_between (lo x hi lo' hi' : Qc) :
  (lo <= x)%Qc → (x <= hi)%Qc →
  Binary64.round lo = Fin lo' → Binary64.round hi = Fin hi' →
  ∃ r, Binary64.round x = Fin r ∧ (lo' <= r)%Qc ∧ (r <= hi')%Qc.
Proof.
  intros Hlo Hhi Elo Ehi.
  pose proof (round_mono _ _ Hlo) as H1. pose proof (round_mono _ _ Hhi) as H2.
  rewrite Elo in H1. rewrite Ehi in H2.
  destruct (Binary64.round x) as [r| | |]; try done.
  exists r. simpl in H1, H2. apply bool_decide_eq_true in H1, H2. done.
Qed.

Lemma round_error (x r : Qc) :
  Binary64.round x = Fin r →
  (2 ^ (-1022) <= x →
   x * (1 - (1 # 9007199254740992)) <= r ∧ r <= x * (1 + (1 # 9007199254740992)))
  ∧ (x <= - 2 ^ (-1022) →
     x * (1 + (1 # 9007199254740992)) <= r ∧ r <= x * (1 - (1 # 9007199254740992))).
Proof.
  intros Hr. pose proof (pow2_pos (-1022)) as Hpos.
  unfold Binary64.round in Hr. pose proof (Qc_sign x) as Hx.
  destruct (x ?= 0)%Qc.
  - subst. change (this 0%Qc) with 0. split; intros; lra.
  - split; [intros; lra|]. intros Hbig.
    pose proof (this_opp x) as Hopp.
    assert (0 < (- x)%Qc) as Hnx by lra.
    rewrite round_positive_rounded in Hr.
    destruct (Qle_bool (2 ^ 1024) (Binary64.rounded (- x)%Qc)); [done|].
    injection Hr as <-.
    destruct (rounded_error (- x)%Qc Hnx) as [H1 H2].
    { apply ilog2_normal. lra. }
    pose proof (this_opp (Q2Qc (Binary64.rounded (- x)%Qc))) as Hr.
    rewrite this_Q2Qc in Hr.
    rewrite Hr.
    set (R := Binary64.rounded (- x)%Qc) in *. clearbody R.
    set (y := this (- x)%Qc) in *. clearbody y.
    set (u := 1 # 9007199254740992) in *. clearbody u.
    assert (y * (1 - u) == - (x * (1 - u))) as E1 by (rewrite Hopp; ring).
    assert (y * (1 + u) == - (x * (1 + u))) as E2 by (rewrite Hopp; ring).
    split; lra.
  - split; [|intros; lra]. intros Hbig.
    rewrite round_positive_rounded in Hr.
    destruct (Qle_bool (2 ^ 1024) (Binary64.rounded x)); [done|].
    injection Hr as <-.
    destruct (rounded_error x Hx) as [H1 H2].
    { by apply ilog2_normal. }
    rewrite this_Q2Qc. done.
Qed.

Local Close Scope Q_scope.

Lemma this_hundredths (z : Z) :
  (this (Q2Qc (inject_Z z) / Q2Qc 100)%Qc * 100 == inject_Z z)%Q.
Proof.
  unfold Qcdiv, Qcmult, Qcinv. rewrite !this_Q2Qc. field.
Qed.

Lemma this_scaled (r : Qc) : (this (r * Q2Qc 100)%Qc == this r * 100)%Q.
Proof. unfold Qcmult. rewrite !this_Q2Qc. reflexivity. Qed.

Lemma Qcle_this (x y : Qc) : (x <= y)%Qc ↔ (this x <= this y)%Q.
Proof. done. Qed.

Lemma formatTime_hundredths (z : Z) :
  (- fixed_bound ≤ z ≤ fixed_bound)%Z →
  formatTime (of_Z z / Math.pow10 2)%js = (of_Z z / Math.pow10 2)%js.
Proof.
  intros [Hlo Hhi].
  destruct (decide (z = 0%Z)) as [->|Hnz]; [compute_done|].
  rewrite hundredths_round.
  set (x := (Q2Qc (inject_Z z) / Q2Qc 100)%Qc).
  set (lo := (Q2Qc (inject_Z (- fixed_bound)) / Q2Qc 100)%Qc).
  set (hi := (Q2Qc (inject_Z fixed_bound) / Q2Qc 100)%Qc).
  destruct (round_between lo x hi lo hi
              (hundredths_le _ _ Hlo) (hundredths_le _ _ Hhi)
              ltac:(compute_done) ltac:(compute_done))
    as (r & Hr & Hr1 & Hr2).
  rewrite Hr.
  pose proof (round_error x r Hr) as [Hpos Hneg].
  pose proof (this_hundredths z) as Hx. fold x in Hx.
  assert (-1000000000000 <= this r)%Q as Hr1' by exact Hr1.
  assert (this r <= 1000000000000)%Q as Hr2' by exact Hr2.
  rewrite Zle_Qle in Hlo, Hhi.
  change (inject_Z (- fixed_bound)) with (-100000000000000)%Q in *.
  change (inject_Z fixed_bound) with (100000000000000)%Q in *.
  assert (2 ^ (-1022) <= 1 # 200)%Q as Htiny by (vm_compute; discriminate).
  assert (formatTime (Fin r) =
          match Binary64.round (r * Q2Qc 100)%Qc with
          | Fin p => (of_Z (Qfloor (p + Q2Qc (1 # 2))%Qc) / Math.pow10 2)%js
          | other => other
          end) as Hformat.
  { unfold formatTime.
    change (Fin r * Math.pow10 2)%js with (Binary64.round (r * Q2Qc 100)%Qc).
    by destruct (Binary64.round (r * Q2Qc 100)%Qc). }
  rewrite Hformat. clear Hformat.
  pose proof (this_scaled r) as Hw.
  destruct (round_between (Q2Qc (inject_Z (- fixed_bound))) (r * Q2Qc 100)%Qc
              (Q2Qc (inject_Z fixed_bound))
              (Q2Qc (inject_Z (- fixed_bound))) (Q2Qc (inject_Z fixed_bound)))
    as (s & Hs & Hs1 & Hs2).
  { apply Qcle_this. rewrite Hw.
    change (this (Q2Qc (inject_Z (- fixed_bound)))) with (-100000000000000)%Q.
    lra. }
  { apply Qcle_this. rewrite Hw.
    change (this (Q2Qc (inject_Z fixed_bound))) with (100000000000000)%Q.
    lra. }
  { compute_done. }
  { compute_done. }
  rewrite Hs, hundredths_round.
  pose proof (round_error _ s Hs) as [Hpos' Hneg'].
  rewrite Hw in Hpos', Hneg'.
  set (tiny := (2 ^ (-1022))%Q) in *. clearbody tiny.
  assert (Qfloor (s + Q2Qc (1 # 2))%Qc = z) as ->; [|exact Hr].
  assert (inject_Z z <= this s + (1 # 2) ∧ this s + (1 # 2) < inject_Z z + 1)%Q
    as [Hz1 Hz2]; [|by apply Qfloor_unique; rewrite this_plus_half].
  destruct (Z.lt_trichotomy z 0) as [Hz|[Hz|Hz]]; [|done|].
  - assert (inject_Z z <= inject_Z (-1))%Q as Hz' by (rewrite <- Zle_Qle; lia).
    change (inject_Z (-1)) with (-1)%Q in Hz'.
    specialize (Hneg ltac:(lra)). specialize (Hneg' ltac:(lra)). lra.
  - assert (inject_Z 1 <= inject_Z z)%Q as Hz' by (rewrite <- Zle_Qle; lia).
    change (inject_Z 1) with 1%Q in Hz'.
    specialize (Hpos ltac:(lra)). specialize (Hpos' ltac:(lra)). lra.
Qed.

(** The bound is needed: further up a formatted time is not a fixed
    point. *)
Lemma formatTime_large :
  formatTime (lit 41302020883375.586) = lit 41302020883375.59
  ∧ formatTime (lit 41302020883375.59) = lit 41302020883375.6
  ∧ lit 41302020883375.59 ≠ lit 41302020883375.6.
Proof. split_and!; compute_done. Qed.

(** X1: [formatTime] is idempotent on the times of at most [10^12]
    milliseconds in magnitude: a time that has been formatted is a fixed
    point, so that formatting it again (as a reader of the result files
    might) changes nothing; [NaN] and the infinities are fixed points
    too. *)
Theorem formatTime_idempotent (x : number) :
  moderate x → formatTime (formatTime x) = formatTime x.
Proof.
  destruct x as [q| | |]; [|done..]. intros [Hlo Hhi].
  destruct (round_between
              (Q2Qc (inject_Z (- fixed_bound))) (q * Q2Qc 100)%Qc
              (Q2Qc (inject_Z fixed_bound))
              (Q2Qc (inject_Z (- fixed_bound))) (Q2Qc (inject_Z fixed_bound)))
    as (p & Hp & Hp1 & Hp2).
  { exact (scaled_le _ _ Hlo). }
  { exact (scaled_le _ _ Hhi). }
  { compute_done. }
  { compute_done. }
  assert (formatTime (Fin q)
          = (of_Z (Qfloor (p + Q2Qc (1 # 2))%Qc) / Math.pow10 2)%js) as ->.
  { unfold formatTime.
    change (Fin q * Math.pow10 2)%js with (Binary64.round (q * Q2Qc 100)%Qc).
    by rewrite Hp. }
  apply formatTime_hundredths. split.
  - change (- fixed_bound)%Z
      with (Qfloor (Q2Qc (inject_Z (- fixed_bound)) + Q2Qc (1 # 2))%Qc).
    apply Qfloor_resp_le.
    change (Q2Qc (inject_Z (- fixed_bound)) + Q2Qc (1 # 2)
            <= p + Q2Qc (1 # 2))%Qc.
    apply Qcplus_le_compat; [done | apply Qcle_refl].
  - change fixed_bound
      with (Qfloor (Q2Qc (inject_Z fixed_bound) + Q2Qc (1 # 2))%Qc).
    apply Qfloor_resp_le.
    change (p + Q2Qc (1 # 2)
            <= Q2Qc (inject_Z fixed_bound) + Q2Qc (1 # 2))%Qc.
    apply Qcplus_le_compat; [done | apply Qcle_refl].
Qed.

(** The time 12.345. *)
Lemma formatTime_idempotent_witness :
  moderate (lit 12.345)
  ∧ formatTime (formatTime (lit 12.345)) = formatTime (lit 12.345).
Proof.
  assert (H : moderate (lit 12.345)) by compute_done.
  split; [exact H|]. exact (formatTime_idempotent _ H).
Defined.

(** ** More on [median] *)

(** X3: the median of an array of odd length is one of its elements,
    whatever the elements ([NaN] included); in particular the value
    reported for three rounds is the value of one of the rounds, never an
    interpolation. *)
Theorem median_odd_is_sample (xs : list number) :
  Nat.odd (length xs) = true → median xs ∈ xs.
Proof.
  intros Hodd.
  assert (xs ≠ []) as Hne by (intros ->; discriminate Hodd).
  pose proof (median_middle xs Hne) as Hmid. cbv zeta in Hmid.
  rewrite Hodd in Hmid. destruct Hmid as (m & Hm & ->).
  apply list_elem_of_lookup_2 in Hm. unfold sort_numeric in Hm.
  by rewrite (merge_sort_Permutation by_difference xs) in Hm.
Qed.

(** Three rounds, one of them without a number. *)
Lemma median_odd_is_sample_witness :
  Nat.odd (length [of_nat 3; NaN; of_nat 2]) = true
  ∧ median [of_nat 3; NaN; of_nat 2] ∈ [of_nat 3; NaN; of_nat 2].
Proof.
  split; [reflexivity|].
  exact (median_odd_is_sample [of_nat 3; NaN; of_nat 2] eq_refl).
Defined.

(** ** More on [curateResults] *)

(** X5: [curateResults] reads the twelve metrics and nothing else: two
    raw bundles that agree on them are curated alike (both to the same
    bundle, or both to the same error), whatever other keys they hold. *)
Theorem curateResults_reads_metrics_only (r1 r2 : WPRawPerformanceResults) :
  (∀ name, name ∈ metric_names → r1 !! name = r2 !! name) →
  curateResults r1 = curateResults r2.
Proof.
  intros Hsame. unfold curateResults.
  rewrite (Hsame "serverResponse"), (Hsame "firstPaint"),
    (Hsame "domContentLoaded"), (Hsame "loaded"),
    (Hsame "firstContentfulPaint"), (Hsame "firstBlock"), (Hsame "type"),
    (Hsame "focus"), (Hsame "inserterOpen"), (Hsame "inserterSearch"),
    (Hsame "inserterHover"), (Hsame "listViewOpen") by compute_done.
  reflexivity.
Qed.

(** A bundle with one more key. *)
Lemma curateResults_reads_metrics_only_witness :
  (∀ name, name ∈ metric_names →
     <["timeToInteractive" := [of_nat 7]]> (uniform_bundle [of_nat 1]) !! name
     = uniform_bundle [of_nat 1] !! name)
  ∧ curateResults
      (<["timeToInteractive" := [of_nat 7]]> (uniform_bundle [of_nat 1]))
    = curateResults (uniform_bundle [of_nat 1]).
Proof.
  assert (Hsame : ∀ name, name ∈ metric_names →
     <["timeToInteractive" := [of_nat 7]]> (uniform_bundle [of_nat 1]) !! name
     = uniform_bundle [of_nat 1] !! name).
  { intros name Hname. apply lookup_insert_ne. intros <-.
    revert Hname. compute_done. }
  split; [exact Hsame|].
  exact (curateResults_reads_metrics_only _ _ Hsame).
Defined.

(** ** More on the version pattern *)

(** The pattern on [X.Y], a character that is neither a digit nor a line
    terminator, [0], and whatever follows: the match ends after the [0],
    the group is [X.Y]. *)
Lemma match_patch_zero_then (X Y rest : list ascii) (c : ascii) :
  digits X → X ≠ [] → digits Y → Y ≠ [] →
  Regex.is_digit c = false → Regex.is_line_terminator c = false →
  Regex.match_start patch_zero_pattern
    (string_of_list_ascii (X ++ "."%char :: Y ++ c :: "0"%char :: rest))
  = Some (Regex.mkPosition
            ("0"%char :: c :: reverse Y ++ "."%char :: reverse X)
            rest (Some (X ++ "."%char :: Y))).
Proof.
  intros HX HXne HY HYne Hc Hterm.
  unfold Regex.match_start, patch_zero_pattern.
  rewrite list_ascii_of_string_of_list_ascii.
  set (fuel := S (length (X ++ "."%char :: Y ++ c :: "0"%char :: rest))).
  assert (length X ≤ fuel ∧ length Y ≤ fuel) as [HfX HfY].
  { unfold fuel. rewrite length_app. simpl. rewrite length_app. lia. }
  rewrite run_Seq, run_Group, run_Seq.
  apply plus_digit_longest; [done..|].
  rewrite run_Seq, run_Char, step_cons. cbn [mbind option_bind].
  rewrite bool_decide_eq_true_2 by done.
  apply plus_digit_longest; [done..|].
  cbn [Regex.consumed Regex.ahead].
  rewrite run_Seq, run_AnyChar, step_cons, Hterm.
  cbn [negb mbind option_bind].
  rewrite run_Char, step_cons. cbn [mbind option_bind].
  rewrite bool_decide_eq_true_2 by done.
  rewrite app_nil_r, Nat.sub_0_r, take_ge by done.
  rewrite reverse_app, reverse_cons, !reverse_involutive, <- app_assoc.
  done.
Qed.

(** X6: a version that begins with [X.Y], one character that is neither
    a digit nor a line terminator, and [0] loses that character and the
    [0], and keeps whatever follows: [6.1.0-RC2] becomes [6.1-RC2]. *)
Theorem zipVersion_drops_patch_zero (X Y rest : list ascii) (c : ascii) :
  digits X → X ≠ [] → digits Y → Y ≠ [] →
  Regex.is_digit c = false → Regex.is_line_terminator c = false →
  zipVersion
    (string_of_list_ascii (X ++ "."%char :: Y ++ c :: "0"%char :: rest))
  = string_of_list_ascii (X ++ "."%char :: Y ++ rest).
Proof.
  intros HX HXne HY HYne Hc Hterm. unfold zipVersion, Regex.replace_with_group.
  rewrite match_patch_zero_then by done.
  cbn [Regex.capture Regex.ahead default from_option id].
  by rewrite <- app_assoc.
Qed.

(** The version [6.1.0-RC2]. *)
Lemma zipVersion_drops_patch_zero_witness :
  digits ["6"%char] ∧ ["6"%char] ≠ []
  ∧ digits ["1"%char] ∧ ["1"%char] ≠ []
  ∧ Regex.is_digit "."%char = false
  ∧ Regex.is_line_terminator "."%char = false
  ∧ zipVersion "6.1.0-RC2" = "6.1-RC2".
Proof.
  assert (H6 : digits ["6"%char]) by (repeat constructor).
  assert (H1 : digits ["1"%char]) by (repeat constructor).
  split_and!; [exact H6 | discriminate | exact H1 | discriminate
              | reflexivity | reflexivity |].
  exact (zipVersion_drops_patch_zero ["6"%char] ["1"%char]
           (list_ascii_of_string "-RC2") "."%char
           H6 ltac:(discriminate) H1 ltac:(discriminate) eq_refl eq_refl).
Defined.

(** What a successful [\d+] has consumed. *)
Lemma plus_digit_some {A} (fuel : nat) (consumed ahead : list ascii)
    (cap : option (list ascii)) (k : Regex.position → option A) (res : A) :
  Regex.run (Regex.Plus Regex.Digit) fuel
    (Regex.mkPosition consumed ahead cap) k = Some res →
  ∃ ds rest,
    ds ≠ [] ∧ digits ds ∧ ahead = ds ++ rest
    ∧ k (Regex.mkPosition (reverse ds ++ consumed) rest cap) = Some res.
Proof.
  revert consumed ahead.
  induction fuel as [|fuel IH]; intros consumed ahead Hrun; [done|].
  rewrite run_Plus, run_Digit in Hrun.
  destruct ahead as [|c rest0]; [by rewrite step_nil in Hrun|].
  rewrite step_cons in Hrun.
  destruct (Regex.is_digit c) eqn:Hc; [|done].
  cbn [mbind option_bind] in Hrun.
  destruct (Regex.run (Regex.Plus Regex.Digit) fuel
              (Regex.mkPosition (c :: consumed) rest0 cap) k)
    as [res'|] eqn:Hmore.
  - injection Hrun as ->.
    destruct (IH _ _ Hmore) as (ds & rest & Hne & Hds & -> & Hk).
    exists (c :: ds), rest. split_and!; [done| |done|].
    + by constructor.
    + by rewrite reverse_cons, <- app_assoc.
  - exists [c], rest0. split_and!; [done| |done|done].
    by repeat constructor.
Qed.

(** Every match of the pattern: [X.Y], one more character, [0]. *)
Lemma match_start_shape (wpVersion : string) (p : Regex.position) :
  Regex.match_start patch_zero_pattern wpVersion = Some p →
  ∃ X Y c,
    digits X ∧ X ≠ [] ∧ digits Y ∧ Y ≠ []
    ∧ Regex.is_line_terminator c = false
    ∧ list_ascii_of_string wpVersion
      = X ++ "."%char :: Y ++ c :: "0"%char :: Regex.ahead p
    ∧ Regex.capture p = Some (X ++ "."%char :: Y).
Proof.
  unfold Regex.match_start, patch_zero_pattern.
  generalize (S (length (list_ascii_of_string wpVersion))). intros fuel.
  rewrite run_Seq, run_Group, run_Seq. intros Hrun.
  apply plus_digit_some in Hrun as (X & rest1 & HXne & HX & Hinput & Hrun).
  rewrite run_Seq, run_Char in Hrun.
  destruct rest1 as [|dot rest2]; [by rewrite step_nil in Hrun|].
  rewrite step_cons in Hrun. case_bool_decide as Hdot; [subst dot|done].
  cbn [mbind option_bind] in Hrun.
  apply plus_digit_some in Hrun as (Y & rest3 & HYne & HY & -> & Hrun).
  cbn [Regex.consumed Regex.ahead] in Hrun.
  rewrite run_Seq, run_AnyChar in Hrun.
  destruct rest3 as [|c rest4]; [by rewrite step_nil in Hrun|].
  rewrite step_cons in Hrun.
  destruct (Regex.is_line_terminator c) eqn:Hterm; [done|].
  cbn [negb mbind option_bind] in Hrun. rewrite run_Char in Hrun.
  destruct rest4 as [|zero rest]; [by rewrite step_nil in Hrun|].
  rewrite step_cons in Hrun. case_bool_decide as Hzero; [subst zero|done].
  cbn [mbind option_bind] in Hrun. injection Hrun as <-.
  exists X, Y, c. split_and!; [done..| |].
  - by rewrite Hinput.
  - cbn [Regex.capture]. f_equal.
    rewrite app_nil_r, Nat.sub_0_r, take_ge by done.
    by rewrite reverse_app, reverse_cons, !reverse_involutive, <- app_assoc.
Qed.

(** X7: the only change [replace] ever makes to a version written in
    ASCII: the version begins with digits, a dot and digits, followed by
    one character and [0], and these last two characters are removed;
    everything else stays. A version that does not begin this way
    (["latest"], ["trunk"], [5.7]) is left as it is. *)
Theorem zipVersion_change_shape (wpVersion : string) :
  ascii_only wpVersion →
  zipVersion wpVersion ≠ wpVersion →
  ∃ X Y c rest,
    digits X ∧ X ≠ [] ∧ digits Y ∧ Y ≠ []
    ∧ Regex.is_line_terminator c = false
    ∧ list_ascii_of_string wpVersion
      = X ++ "."%char :: Y ++ c :: "0"%char :: rest
    ∧ zipVersion wpVersion = string_of_list_ascii (X ++ "."%char :: Y ++ rest).
Proof.
  unfold zipVersion, Regex.replace_with_group.
  destruct (Regex.match_start patch_zero_pattern wpVersion) as [p|] eqn:Hmatch;
    [|done].
  intros _ _.
  destruct (match_start_shape _ _ Hmatch)
    as (X & Y & c & HX & HXne & HY & HYne & Hterm & Hinput & Hcap).
  exists X, Y, c, (Regex.ahead p). split_and!; [done..|].
  rewrite Hcap. cbn [default from_option id]. by rewrite <- app_assoc.
Qed.

(** The version [5.7.0]. *)
Lemma zipVersion_change_shape_witness :
  ascii_only "5.7.0"
  ∧ zipVersion "5.7.0" ≠ "5.7.0"
  ∧ ∃ X Y c rest,
      digits X ∧ X ≠ [] ∧ digits Y ∧ Y ≠ []
      ∧ Regex.is_line_terminator c = false
      ∧ list_ascii_of_string "5.7.0"
        = X ++ "."%char :: Y ++ c :: "0"%char :: rest
      ∧ zipVersion "5.7.0" = string_of_list_ascii (X ++ "."%char :: Y ++ rest).
Proof.
  assert (Hascii : ascii_only "5.7.0") by compute_done.
  assert (H : zipVersion "5.7.0" ≠ "5.7.0") by discriminate.
  split_and!; [exact Hascii | exact H |].
  exact (zipVersion_change_shape "5.7.0" Hascii H).
Defined.

(** ** The preparation of the directories *)

Lemma bind_inr {A B} (m : M A) (f : A → M B) (h h' : list call) (y : B) :
  (m ≫= f) h = (inr y, h') →
  ∃ x h1, m h = (inr x, h1) ∧ f x h1 = (inr y, h').
Proof.
  rewrite bind_run. destruct (m h) as [[e|x] h1]; [done|]. by exists x, h1.
Qed.

Lemma perform_inr (W : World) (c : call) (h h' : list call) (u : ()) :
  perform W c h = (inr u, h') → h' = h ++ [c].
Proof. rewrite perform_run. by case_match; intros [= <-]. Qed.

(** X8: the patch of [.wp-env.json]. Without [options.wpVersion]
    (absent, or the empty string) nothing is read or written. With it, the
    configuration is read first; when the read fails nothing is written;
    otherwise what is written is what was read with [core] set to the URL
    of the zip of that version, every other member kept as it was. *)
Theorem wp_env_patch (W : World) (options : WPPerformanceCommandOptions)
    (environmentDirectory : string) (h : list call) :
  (truthy (wpVersion options) = false →
   useWordPressVersion W options environmentDirectory h = (inr (), h))
  ∧ (∀ version, wpVersion options = Some version → version ≠ "" →
     let confPath := environmentDirectory +:+ "/.wp-env.json" in
     (completes W (h ++ [ReadJSONFile confPath]) = false →
      useWordPressVersion W options environmentDirectory h
      = (inl (Rejected (ReadJSONFile confPath)), h ++ [ReadJSONFile confPath]))
     ∧ (completes W (h ++ [ReadJSONFile confPath]) = true →
        ∃ written,
          (useWordPressVersion W options environmentDirectory h).2
          = h ++ [ ReadJSONFile confPath;
                   WriteFileSync confPath (StringifiedConf written) ]
          ∧ written !! "core"
            = Some (JString ("https://wordpress.org/wordpress-"
                               +:+ zipVersion version +:+ ".zip"))
          ∧ ∀ k, k ≠ "core" →
              written !! k
              = parsedConf W (h ++ [ReadJSONFile confPath]) !! k)).
Proof.
  split.
  - intros Hno. unfold useWordPressVersion. by rewrite Hno.
  - intros version Hversion Hne confPath.
    unfold useWordPressVersion. rewrite Hversion. cbn [truthy default from_option id].
    rewrite bool_decide_eq_false_2 by done. cbn [negb]. fold confPath.
    rewrite bind_run. unfold readJSONFile_conf.
    split; intros Hread; rewrite Hread; [done|].
    exists (patchConf version (parsedConf W (h ++ [ReadJSONFile confPath]))).
    split_and!.
    + rewrite perform_run, <- app_assoc. by case_match.
    + apply lookup_insert_eq.
    + intros k Hk. unfold patchConf. by rewrite lookup_insert_ne.
Qed.

(** The version [6.1.0] in the world where every call completes. *)
Lemma wp_env_patch_witness :
  wpVersion (mkOptions None None (Some "6.1.0")) = Some "6.1.0"
  ∧ "6.1.0" ≠ ""
  ∧ completes calm_world ([] ++ [ReadJSONFile ("/env" +:+ "/.wp-env.json")])
    = true
  ∧ ∃ written,
      (useWordPressVersion calm_world (mkOptions None None (Some "6.1.0"))
         "/env" []).2
      = [] ++ [ ReadJSONFile ("/env" +:+ "/.wp-env.json");
                WriteFileSync ("/env" +:+ "/.wp-env.json")
                  (StringifiedConf written) ]
      ∧ written !! "core"
        = Some (JString ("https://wordpress.org/wordpress-"
                           +:+ zipVersion "6.1.0" +:+ ".zip"))
      ∧ ∀ k, k ≠ "core" →
          written !! k
          = parsedConf calm_world
              ([] ++ [ReadJSONFile ("/env" +:+ "/.wp-env.json")]) !! k.
Proof.
  assert (Hne : "6.1.0" ≠ "") by discriminate.
  split_and!; [reflexivity | exact Hne | reflexivity |].
  exact (proj2 (proj2 (wp_env_patch calm_world
                         (mkOptions None None (Some "6.1.0")) "/env" [])
                  "6.1.0" eq_refl Hne) eq_refl).
Defined.

(** *** The environment directories *)

Lemma prepareEnvironment_inr (W : World)
    (options : WPPerformanceCommandOptions)
    (baseDirectory rootDirectory performanceTestDirectory : string)
    (ref : jsstring) (branchDirectories dirs : gmap string string)
    (h h' : list call) :
  prepareEnvironment W options baseDirectory rootDirectory
    performanceTestDirectory ref branchDirectories h = (inr dirs, h') →
  dirs = assign branchDirectories (key ref)
           (environmentDirectoryOf W rootDirectory ref).
Proof.
  unfold prepareEnvironment. cbv zeta. intros Hrun.
  repeat (apply bind_inr in Hrun as (? & ? & _ & Hrun)).
  by injection Hrun as <- _.
Qed.

Lemma prepareEnvironments_inr (W : World)
    (options : WPPerformanceCommandOptions)
    (baseDirectory rootDirectory performanceTestDirectory : string)
    (refs : list jsstring) (before dirs : gmap string string)
    (h h' : list call) :
  for_of refs
    (prepareEnvironment W options baseDirectory rootDirectory
       performanceTestDirectory) before h = (inr dirs, h') →
  (∀ k, (∀ ref, ref ∈ refs → key ref ≠ k) → dirs !! k = before !! k)
  ∧ dirs !! "__proto__" = before !! "__proto__"
  ∧ (∀ j ref,
       refs !! j = Some ref →
       key ref ≠ "__proto__" →
       (∀ j' ref', j < j' → refs !! j' = Some ref' → key ref' ≠ key ref) →
       dirs !! key ref = Some (environmentDirectoryOf W rootDirectory ref)).
Proof.
  revert before h. induction refs as [|ref0 rest IH]; intros before h Hrun.
  - injection Hrun as <- _. split_and!; [done..|]. intros j ref Hj.
    by rewrite lookup_nil in Hj.
  - cbn [for_of] in Hrun.
    apply bind_inr in Hrun as (dirs1 & h1 & Hbody & Hrun).
    apply prepareEnvironment_inr in Hbody as ->.
    destruct (IH _ _ Hrun) as (Hframe & Hproto & Hlast). split_and!.
    + intros k Hk. rewrite Hframe.
      * apply lookup_assign_ne, Hk, list_elem_of_here.
      * intros ref Href. by apply Hk, list_elem_of_further.
    + rewrite Hproto. apply lookup_assign_proto.
    + intros [|j] ref Hj Hname Hlater.
      * injection Hj as <-. rewrite Hframe; [by apply lookup_assign_eq|].
        intros ref' [j' Hj']%list_elem_of_lookup.
        apply (Hlater (S j') ref'); [lia | done].
      * apply (Hlast j ref Hj Hname). intros j' ref' Hlt Hj'.
        apply (Hlater (S j') ref'); [lia | done].
Qed.

(** The last ref of the list that has the key [k]. *)
Lemma last_with_key (refs : list jsstring) (k : string) :
  k ∈ key <$> refs →
  ∃ j ref,
    refs !! j = Some ref ∧ key ref = k
    ∧ ∀ j' ref', j < j' → refs !! j' = Some ref' → key ref' ≠ k.
Proof.
  induction refs as [|ref0 rest IH]; intros Hk; [inversion Hk|].
  destruct (decide (k ∈ key <$> rest)) as [Hin|Hnotin].
  - destruct (IH Hin) as (j & ref & Hj & Hkey & Hlater).
    exists (S j), ref. split_and!; [done..|].
    intros [|j'] ref' Hlt Hj'; [lia|]. apply (Hlater j' ref'); [lia | done].
  - apply elem_of_cons in Hk as [->|Hk]; [|done].
    exists 0, ref0. split_and!; [done..|].
    intros [|j'] ref' Hlt Hj'; [lia|]. intros Heq. apply Hnotin.
    apply list_elem_of_fmap. exists ref'. split; [done|].
    by eapply list_elem_of_lookup_2.
Qed.

(** X9: when the loop that prepares the environments returns,
    [branchDirectories] has an own entry for exactly the names of the refs
    other than ["__proto__"] (the assignment of a string to the prototype
    accessor is ignored), each the directory
    [rootDirectory/envs/kebabCase( ref' )] of a ref [ref'] of that name;
    where no two refs share a name, each such ref has its own entry, and
    two of them with the same [kebabCase] are given the same directory. *)
Theorem every_ref_gets_a_directory (W : World)
    (options : WPPerformanceCommandOptions)
    (baseDirectory rootDirectory performanceTestDirectory : string)
    (refs : list jsstring) (dirs : gmap string string) (h h' : list call) :
  for_of refs
    (prepareEnvironment W options baseDirectory rootDirectory
       performanceTestDirectory) ∅ h = (inr dirs, h') →
  (∀ k, is_Some (dirs !! k) ↔ k ∈ key <$> refs ∧ k ≠ "__proto__")
  ∧ (∀ ref, ref ∈ refs → key ref ≠ "__proto__" →
       ∃ ref', ref' ∈ refs ∧ key ref' = key ref
               ∧ dirs !! key ref
                 = Some (environmentDirectoryOf W rootDirectory ref'))
  ∧ (NoDup (key <$> refs) →
     ∀ ref, ref ∈ refs → key ref ≠ "__proto__" →
       dirs !! key ref = Some (environmentDirectoryOf W rootDirectory ref))
  ∧ (NoDup (key <$> refs) →
     ∀ ref ref', ref ∈ refs → ref' ∈ refs →
       key ref ≠ "__proto__" → key ref' ≠ "__proto__" →
       kebabCase W ref = kebabCase W ref' →
       dirs !! key ref = dirs !! key ref').
Proof.
  intros Hrun.
  destruct (prepareEnvironments_inr _ _ _ _ _ _ _ _ _ _ Hrun)
    as (Hframe & Hproto & Hlast).
  assert (∀ ref, ref ∈ refs → key ref ≠ "__proto__" →
            ∃ ref', ref' ∈ refs ∧ key ref' = key ref
                    ∧ dirs !! key ref
                      = Some (environmentDirectoryOf W rootDirectory ref'))
    as Hsome.
  { intros ref Href Hname.
    destruct (last_with_key refs (key ref)) as (j & ref' & Hj & Hkey & Hlater).
    { apply list_elem_of_fmap. eauto. }
    exists ref'. split_and!; [by eapply list_elem_of_lookup_2 | done |].
    rewrite <- Hkey. apply (Hlast j ref' Hj).
    - by rewrite Hkey.
    - intros j' ref'' Hlt Hj' Heq. apply (Hlater j' ref'' Hlt Hj').
      exact (eq_trans Heq Hkey). }
  assert (NoDup (key <$> refs) →
          ∀ ref, ref ∈ refs → key ref ≠ "__proto__" →
            dirs !! key ref
            = Some (environmentDirectoryOf W rootDirectory ref)) as Hown.
  { intros Hnodup ref [j Hj]%list_elem_of_lookup Hname.
    apply (Hlast j ref Hj Hname).
    intros j' ref' Hlt Hj' Heq.
    assert (j' = j); [|lia].
    apply (NoDup_lookup _ _ _ (key ref) Hnodup);
      rewrite list_lookup_fmap; [rewrite Hj'; simpl; by f_equal | by rewrite Hj]. }
  split_and!; [|done|done|].
  - intros k. split.
    + intros Hk. split.
      * destruct (decide (k ∈ key <$> refs)) as [|Hnotin]; [done|].
        rewrite Hframe, lookup_empty in Hk; [by destruct Hk|].
        intros ref Href <-. apply Hnotin, list_elem_of_fmap. eauto.
      * intros ->. rewrite Hproto, lookup_empty in Hk. by destruct Hk.
    + intros [(ref & -> & Href)%list_elem_of_fmap Hname].
      destruct (Hsome ref Href Hname) as (ref' & _ & _ & ->). by eexists.
  - intros Hnodup ref ref' Href Href' Hname Hname' Hkebab.
    rewrite (Hown Hnodup ref Href Hname), (Hown Hnodup ref' Href' Hname').
    unfold environmentDirectoryOf. by rewrite Hkebab.
Qed.

(** The refs [trunk] and [__proto__] in the world where every call
    completes: [trunk] has its directory, [__proto__] has no entry. *)
Lemma every_ref_gets_a_directory_witness :
  returns
    (for_of proto_refs
       (prepareEnvironment calm_world no_options "/base" "/root" "/root/tests")
       ∅ [])
    (λ dirs,
       NoDup (key <$> proto_refs)
       ∧ Some "trunk" ∈ proto_refs
       ∧ key (Some "trunk") ≠ "__proto__"
       ∧ dirs !! "trunk"
         = Some (environmentDirectoryOf calm_world "/root" (Some "trunk"))
       ∧ ¬ is_Some (dirs !! "__proto__")).
Proof.
  assert (Hok : succeeded
                  (for_of proto_refs
                     (prepareEnvironment calm_world no_options "/base" "/root"
                        "/root/tests") ∅ []).1 = true)
    by (vm_compute; reflexivity).
  revert Hok.
  destruct (for_of proto_refs
              (prepareEnvironment calm_world no_options "/base" "/root"
                 "/root/tests") ∅ []) as [[e|dirs] h'] eqn:Hrun; intros Hok.
  - discriminate Hok.
  - exists dirs. split; [reflexivity|].
    assert (Hnodup : NoDup (key <$> proto_refs)) by compute_done.
    assert (Htrunk : Some "trunk" ∈ proto_refs) by compute_done.
    assert (Hname : key (Some "trunk") ≠ "__proto__") by discriminate.
    split_and!; [exact Hnodup | exact Htrunk | exact Hname | |].
    + exact (proj1 (proj2 (proj2
               (every_ref_gets_a_directory _ _ _ _ _ _ _ _ _ Hrun)))
               Hnodup (Some "trunk") Htrunk Hname).
    + intros Hsome.
      apply (proj1 (every_ref_gets_a_directory _ _ _ _ _ _ _ _ _ Hrun)) in Hsome.
      destruct Hsome as [_ Hne]. exact (Hne eq_refl).
Defined.

(** *** The tests directory *)

Lemma getRandomTemporaryPath_inr (W : World) (h h' : list call) (x : string) :
  getRandomTemporaryPath W h = (inr x, h') →
  h' = h ++ [GetRandomTemporaryPath].
Proof. by intros [= _ <-]. Qed.

Lemma detached_inr (c : call) (h h' : list call) (u : ()) :
  detached c h = (inr u, h') → h' = h ++ [c].
Proof. by intros [= <-]. Qed.

Lemma fetches_inr (W : World) (baseDirectory : string) (refs : list jsstring)
    (h h' : list call) (u : ()) :
  for_of refs
    (λ ref _,
       gitRaw W baseDirectory
         [Some "fetch"; Some "--depth=1"; Some "origin"; ref]) () h
  = (inr u, h') →
  h' = h ++ (fetchCall baseDirectory <$> refs).
Proof.
  revert h. induction refs as [|ref rest IH]; intros h Hrun.
  - injection Hrun as _ <-. by rewrite app_nil_r.
  - cbn [for_of] in Hrun. apply bind_inr in Hrun as ([] & h1 & Hfetch & Hrun).
    apply perform_inr in Hfetch as ->. rewrite (IH _ Hrun).
    by rewrite <- app_assoc.
Qed.

(** X10: when the preparation of the tests directory returns, the
    calls it made are those of [testsDirectoryCalls]: in the fresh clone,
    one shallow fetch per ref, in the order of the refs, and only then the
    checkout, which is of the first ref; the tests directory is
    [rootDirectory/tests], a copy of that clone. *)
Theorem tests_directory_calls (W : World) (refs : list jsstring)
    (baseDirectory rootDirectory performanceTestDirectory : string)
    (h h' : list call) :
  prepareTestsDirectory W refs h
  = (inr (baseDirectory, rootDirectory, performanceTestDirectory), h') →
  performanceTestDirectory = rootDirectory +:+ "/tests"
  ∧ h' = h ++ testsDirectoryCalls W refs baseDirectory rootDirectory.
Proof.
  unfold prepareTestsDirectory, runShellScript, gitRaw. intros Hrun.
  apply bind_inr in Hrun as (b & h1 & ->%getRandomTemporaryPath_inr & Hrun).
  apply bind_inr in Hrun as ([] & h2 & ->%perform_inr & Hrun).
  apply bind_inr in Hrun as ([] & h3 & ->%detached_inr & Hrun).
  apply bind_inr in Hrun as ([] & h4 & ->%perform_inr & Hrun).
  apply bind_inr in Hrun as ([] & h5 & ->%perform_inr & Hrun).
  apply bind_inr in Hrun as ([] & h6 & ->%fetches_inr & Hrun).
  apply bind_inr in Hrun as ([] & h7 & ->%perform_inr & Hrun).
  apply bind_inr in Hrun as (r & h8 & ->%getRandomTemporaryPath_inr & Hrun).
  cbv zeta in Hrun.
  apply bind_inr in Hrun as ([] & h9 & ->%perform_inr & Hrun).
  apply bind_inr in Hrun as ([] & h10 & ->%perform_inr & Hrun).
  apply bind_inr in Hrun as ([] & h11 & ->%perform_inr & Hrun).
  apply bind_inr in Hrun as ([] & h12 & ->%perform_inr & Hrun).
  injection Hrun as <- <- <- <-. split; [done|].
  unfold testsDirectoryCalls. by rewrite <- !app_assoc.
Qed.

(** Two refs in the world where every call completes. *)
Lemma tests_directory_calls_witness :
  returns (prepareTestsDirectory calm_world two_refs [])
    (λ '(baseDirectory, rootDirectory, performanceTestDirectory),
       (prepareTestsDirectory calm_world two_refs []).2
       = [] ++ testsDirectoryCalls calm_world two_refs baseDirectory
                 rootDirectory).
Proof.
  assert (Hok : succeeded (prepareTestsDirectory calm_world two_refs []).1
                = true) by (vm_compute; reflexivity).
  revert Hok.
  destruct (prepareTestsDirectory calm_world two_refs [])
    as [[e|[[b r] p]] h'] eqn:Hrun; intros Hok.
  - discriminate Hok.
  - exists (b, r, p). split; [reflexivity|].
    exact (proj2 (tests_directory_calls _ _ _ _ _ _ _ Hrun)).
Defined.

(** ** The stages of the command *)

(** *** Computations that conform *)

Section Conformance.

Context (W : World) (Ok Err : list call → Prop).
Hypothesis Ok_nil : Ok [].
Hypothesis Ok_app : ∀ a b, Ok a → Ok b → Ok (a ++ b).
Hypothesis Err_app : ∀ a b, Ok a → Err b → Err (a ++ b).

Lemma conforms_ret {A} (x : A) (h : list call) :
  conforms W Ok Err (mret x) h.
Proof. exists []. split; [by rewrite app_nil_r | exact Ok_nil]. Qed.

Lemma conforms_bind {A B} (m : M A) (f : A → M B) (h : list call) :
  conforms W Ok Err m h →
  (∀ x h', m h = (inr x, h') → conforms W Ok Err (f x) h') →
  conforms W Ok Err (m ≫= f) h.
Proof.
  intros (added & Hh & Hm) Hf. unfold conforms. rewrite bind_run.
  destruct (m h) as [[e|x] h1] eqn:Hrun; simpl in Hh, Hm; subst h1.
  - exists added. by split.
  - destruct (Hf x _ eq_refl) as (added' & Hh' & Hfx).
    exists (added ++ added'). rewrite app_assoc. split; [done|].
    destruct (f x (h ++ added)).1 as [e|y]; [|by apply Ok_app].
    destruct Hfx as [Herr Hfail]. split; [by apply Err_app | done].
Qed.

Lemma conforms_for_of {A S} (Inv : S → Prop) (xs : list A)
    (body : A → S → M S) (s : S) (h : list call) :
  (∀ x s h, x ∈ xs → Inv s → conforms W Ok Err (body x s) h) →
  (∀ x s h s' h', x ∈ xs → Inv s → body x s h = (inr s', h') → Inv s') →
  Inv s →
  conforms W Ok Err (for_of xs body s) h.
Proof.
  revert s h. induction xs as [|x xs IH]; intros s h Hbody Hinv Hs.
  - apply conforms_ret.
  - simpl. apply conforms_bind.
    + apply Hbody; [apply list_elem_of_here | done].
    + intros s' h' Hrun. apply IH.
      * intros y t g Hy. apply Hbody. by apply list_elem_of_further.
      * intros y t g t' g' Hy. apply Hinv. by apply list_elem_of_further.
      * eapply Hinv; [apply list_elem_of_here | exact Hs | exact Hrun].
Qed.

Lemma conforms_perform (c : call) (h : list call) :
  Ok [c] → Err [c] → conforms W Ok Err (perform W c) h.
Proof.
  intros HOk HErr. exists [c]. unfold conforms. rewrite perform_run.
  destruct (completes W (h ++ [c])) eqn:Hc; simpl; [done|].
  split_and!; [done..|]. left. exists c. by rewrite reverse_snoc.
Qed.

Lemma conforms_detached (c : call) (h : list call) :
  Ok [c] → conforms W Ok Err (detached c) h.
Proof. intros HOk. by exists [c]. Qed.

Lemma conforms_getRandomTemporaryPath (h : list call) :
  Ok [GetRandomTemporaryPath] →
  conforms W Ok Err (getRandomTemporaryPath W) h.
Proof. intros HOk. by exists [GetRandomTemporaryPath]. Qed.

Lemma conforms_readJSONFile_conf (fileName : string) (h : list call) :
  Ok [ReadJSONFile fileName] → Err [ReadJSONFile fileName] →
  conforms W Ok Err (readJSONFile_conf W fileName) h.
Proof.
  intros HOk HErr. exists [ReadJSONFile fileName]. unfold readJSONFile_conf.
  destruct (completes W (h ++ [ReadJSONFile fileName])) eqn:Hc; simpl; [done|].
  split_and!; [done..|]. left. eexists. by rewrite reverse_snoc.
Qed.

End Conformance.

(** *** Calls by kind *)

Lemma of_kinds_nil (ks : list kind) : of_kinds ks [].
Proof. constructor. Qed.

Lemma of_kinds_app (ks : list kind) (a b : list call) :
  of_kinds ks a → of_kinds ks b → of_kinds ks (a ++ b).
Proof. intros Ha Hb. by apply Forall_app. Qed.

Lemma of_kinds_one (ks : list kind) (c : call) :
  kind_of c ∈ ks → of_kinds ks [c].
Proof. intros Hc. by repeat constructor. Qed.

Lemma of_kinds_prefix (ks : list kind) (a b : list call) :
  a `prefix_of` b → of_kinds ks b → of_kinds ks a.
Proof. intros [k ->] Hb. by apply Forall_app in Hb as [Ha _]. Qed.

Lemma of_kinds_subseteq (ks ks' : list kind) (calls : list call) :
  ks ⊆ ks' → of_kinds ks calls → of_kinds ks' calls.
Proof. intros Hsub. apply Forall_impl. intros c Hc. by apply Hsub. Qed.

Lemma kind_of_shell (script : string) (cwd : jsstring) :
  script ≠ startCommand → script ≠ stopCommand →
  kind_of (RunShellScript script cwd) = Shell.
Proof.
  intros Hstart Hstop. unfold kind_of, is_start, is_stop.
  by rewrite !bool_decide_eq_false_2.
Qed.

Lemma kind_of_start (c : call) : is_start c = true ↔ kind_of c = Start.
Proof.
  destruct c as [| | |script cwd| | | | |file [conf|table]|]; try done.
  unfold kind_of. destruct (is_start _); [done|].
  by destruct (is_stop _).
Qed.

Lemma kind_of_stop (c : call) : is_stop c = true ↔ kind_of c = Stop.
Proof.
  destruct c as [| | |script cwd| | | | |file [conf|table]|]; try done.
  unfold kind_of. destruct (is_start (RunShellScript script cwd)) eqn:Hstart.
  - split; [|done]. unfold is_start, is_stop in *.
    apply bool_decide_eq_true in Hstart as ->. done.
  - by destruct (is_stop _).
Qed.

Lemma starts_app (a b : list call) : starts (a ++ b) = starts a + starts b.
Proof. unfold starts. by rewrite list.filter_app, length_app. Qed.

Lemma stops_app (a b : list call) : stops (a ++ b) = stops a + stops b.
Proof. unfold stops. by rewrite list.filter_app, length_app. Qed.

Lemma starts_of_kinds (ks : list kind) (calls : list call) :
  Start ∉ ks → of_kinds ks calls → starts calls = 0.
Proof.
  intros Hks Hcalls. unfold starts.
  induction Hcalls as [|c calls Hc _ IH]; [done|].
  rewrite filter_cons. destruct (decide (is_start c)) as [Hstart|_]; [|done].
  apply Is_true_true, kind_of_start in Hstart. by rewrite Hstart in Hc.
Qed.

Lemma stops_of_kinds (ks : list kind) (calls : list call) :
  Stop ∉ ks → of_kinds ks calls → stops calls = 0.
Proof.
  intros Hks Hcalls. unfold stops.
  induction Hcalls as [|c calls Hc _ IH]; [done|].
  rewrite filter_cons. destruct (decide (is_stop c)) as [Hstop|_]; [|done].
  apply Is_true_true, kind_of_stop in Hstop. by rewrite Hstop in Hc.
Qed.

(** *** The preparation *)

Ltac kind_in :=
  lazymatch goal with
  | |- kind_of (RunShellScript _ _) ∈ _ =>
      rewrite kind_of_shell;
      [ | let E := fresh in intros E; vm_compute in E; discriminate E .. ]
  | |- _ => idtac
  end;
  cbn [kind_of];
  repeat first [ apply list_elem_of_here | apply list_elem_of_further ].

(** Goes through a computation made of binds and calls; the loops are
    left. *)
Ltac kinds_auto :=
  cbv zeta;
  lazymatch goal with
  | |- conforms _ _ _ (_ ≫= _) _ =>
      apply conforms_bind;
      [ apply of_kinds_app | apply of_kinds_app | kinds_auto
      | intros ? ? _; kinds_auto ]
  | |- conforms _ _ _ (mret _) _ => apply conforms_ret, of_kinds_nil
  | |- conforms _ _ _ (perform _ _) _ =>
      apply conforms_perform; apply of_kinds_one; kind_in
  | |- conforms _ _ _ (runShellScript _ _ _) _ =>
      apply conforms_perform; apply of_kinds_one; kind_in
  | |- conforms _ _ _ (gitRaw _ _ _) _ =>
      apply conforms_perform; apply of_kinds_one; kind_in
  | |- conforms _ _ _ (detached _) _ =>
      apply conforms_detached; apply of_kinds_one; kind_in
  | |- conforms _ _ _ (getRandomTemporaryPath _) _ =>
      apply conforms_getRandomTemporaryPath; apply of_kinds_one; kind_in
  | |- conforms _ _ _ (readJSONFile_conf _ _) _ =>
      apply conforms_readJSONFile_conf; apply of_kinds_one; kind_in
  | |- _ => idtac
  end.

Lemma prepareTestsDirectory_conforms (W : World) (refs : list jsstring)
    (h : list call) :
  conforms W (of_kinds [Temporary; Git; Shell])
    (of_kinds [Temporary; Git; Shell]) (prepareTestsDirectory W refs) h.
Proof.
  unfold prepareTestsDirectory. kinds_auto.
  apply (conforms_for_of _ _ _ (of_kinds_nil _) (of_kinds_app _)
           (of_kinds_app _) (λ _, True)); [|done..].
  intros ref [] g _ _. kinds_auto.
Qed.

Lemma useWordPressVersion_conforms (W : World)
    (options : WPPerformanceCommandOptions) (environmentDirectory : string)
    (h : list call) :
  conforms W (of_kinds (provisionKinds options))
    (of_kinds (provisionKinds options))
    (useWordPressVersion W options environmentDirectory) h.
Proof.
  unfold useWordPressVersion, provisionKinds.
  destruct (truthy (wpVersion options)); kinds_auto.
Qed.

Lemma provisionKinds_base (options : WPPerformanceCommandOptions) :
  [Temporary; Git; Shell] ⊆ provisionKinds options.
Proof.
  unfold provisionKinds. destruct (truthy _); [|done].
  intros k Hk.
  repeat (apply elem_of_cons in Hk as [->|Hk]; [compute_done|]).
  inversion Hk.
Qed.

Lemma prepareEnvironment_conforms (W : World)
    (options : WPPerformanceCommandOptions)
    (baseDirectory rootDirectory performanceTestDirectory : string)
    (ref : jsstring) (branchDirectories : gmap string string)
    (h : list call) :
  conforms W (of_kinds (provisionKinds options))
    (of_kinds (provisionKinds options))
    (prepareEnvironment W options baseDirectory rootDirectory
       performanceTestDirectory ref branchDirectories) h.
Proof.
  pose proof (provisionKinds_base options) as Hbase.
  unfold prepareEnvironment. kinds_auto; try (apply Hbase; compute_done).
  apply useWordPressVersion_conforms.
Qed.

Lemma checkRefs_run (env : ProcessEnv) (branches : list string)
    (h : list call) :
  checkRefs (resolveRefs env branches) h = (inr (), h).
Proof.
  unfold checkRefs. pose proof (resolveRefs_nonempty env branches).
  by rewrite bool_decide_eq_false_2 by lia.
Qed.

(** *** The trial loop *)

Lemma running_after_app (running : bool) (a b : list call) :
  running_after running (a ++ b)
  = running_after running a ≫= λ running', running_after running' b.
Proof.
  revert running. induction a as [|c a IH]; intros running; [done|].
  cbn [app running_after].
  destruct (is_start c); [destruct running; [done | apply IH]|].
  destruct (is_stop c); [destruct running; [apply IH | done]|].
  apply IH.
Qed.

Lemma running_after_of_kinds (ks : list kind) (running : bool)
    (calls : list call) :
  Start ∉ ks → Stop ∉ ks → of_kinds ks calls →
  running_after running calls = Some running.
Proof.
  intros Hstart Hstop Hcalls.
  induction Hcalls as [|c calls Hc _ IH]; [done|]. cbn [running_after].
  destruct (is_start c) eqn:Es.
  { apply kind_of_start in Es. by rewrite Es in Hc. }
  destruct (is_stop c) eqn:Ep; [|done].
  apply kind_of_stop in Ep. by rewrite Ep in Hc.
Qed.

Lemma trialsOk_nil : trialsOk [].
Proof. split; [apply of_kinds_nil | done]. Qed.

Lemma trialsOk_app (a b : list call) :
  trialsOk a → trialsOk b → trialsOk (a ++ b).
Proof.
  unfold trialsOk, all_stopped. intros [Ha Hsa] [Hb Hsb].
  split; [by apply of_kinds_app|]. by rewrite running_after_app, Hsa.
Qed.

Lemma trialsErr_app (a b : list call) :
  trialsOk a → trialsErr b → trialsErr (a ++ b).
Proof.
  unfold trialsOk, trialsErr, all_stopped, one_running_at_most.
  intros [Ha Hsa] [Hb Hsb].
  split; [by apply of_kinds_app|]. by rewrite running_after_app, Hsa.
Qed.

Lemma curateResults_inl (results : WPRawPerformanceResults) (e : exn) :
  curateResults results = inl e →
  e = missing_reduce
  ∧ ∃ name, name ∈ metric_names ∧ results !! name = None.
Proof.
  intros Hrun.
  destruct (curateResults_cases results)
    as [(a1 & a2 & a3 & a4 & a5 & a6 & a7 & a8 & a9 & a10 & a11 & a12
         & (H1 & H2 & H3 & H4 & H5 & H6) & (H7 & H8 & H9 & H10 & H11 & H12))
       |[Hmissing Herr]].
  - rewrite (curateResults_present results a1 a2 a3 a4 a5 a6 a7 a8 a9 a10
               a11 a12) in Hrun by done. discriminate Hrun.
  - split; [congruence | done].
Qed.

Lemma failure_rejected (W : World) (h : list call) (c : call) :
  completes W (h ++ [c]) = false → failure W (Rejected c) (h ++ [c]).
Proof. intros Hc. left. exists c. by rewrite reverse_snoc. Qed.

Lemma head_reverse_after (h before : list call) (c : call) :
  head (reverse (h ++ before ++ [c])) = Some c.
Proof. by rewrite app_assoc, reverse_snoc. Qed.

Lemma failure_rejected_after (W : World) (h before : list call) (c : call) :
  completes W (h ++ before ++ [c]) = false →
  failure W (Rejected c) (h ++ before ++ [c]).
Proof. rewrite app_assoc. apply failure_rejected. Qed.

Section TrialConformance.

Context (W : World).
Context (refs : list jsstring) (dirs : gmap string string) (dir : string).

Lemma execution_counts (testSuite : string) (ref : jsstring) :
  (starts [startCall dirs ref] = 1 ∧ stops [startCall dirs ref] = 0)
  ∧ (starts [startCall dirs ref; testCommand testSuite dir] = 1
     ∧ stops [startCall dirs ref; testCommand testSuite dir] = 0)
  ∧ (starts [startCall dirs ref; testCommand testSuite dir;
             readResults W testSuite dir] = 1
     ∧ stops [startCall dirs ref; testCommand testSuite dir;
              readResults W testSuite dir] = 0)
  ∧ (starts (executionCalls W dirs dir testSuite ref) = 1
     ∧ stops (executionCalls W dirs dir testSuite ref) = 1).
Proof. by split_and!. Qed.

Lemma execution_running (testSuite : string) (ref : jsstring) :
  running_after false [startCall dirs ref] = Some true
  ∧ running_after false [startCall dirs ref; testCommand testSuite dir]
    = Some true
  ∧ running_after false
      [startCall dirs ref; testCommand testSuite dir;
       readResults W testSuite dir] = Some true
  ∧ running_after false (executionCalls W dirs dir testSuite ref)
    = Some false.
Proof. by split_and!. Qed.

Lemma runOnBranch_conforms (testSuite : string) (i : nat) (ref : jsstring)
    (rawResults : list (gmap string WPPerformanceResults)) (h : list call) :
  is_Some (rawResults !! i) →
  conforms W trialsOk trialsErr
    (runOnBranch W dirs dir testSuite i ref rawResults) h.
Proof.
  intros [row Hrow]. unfold conforms.
  rewrite runOnBranch_run, runTestSuite_run.
  destruct (execution_running testSuite ref) as (R1 & R2 & R3 & R4).
  unfold trialsOk, trialsErr, all_stopped, one_running_at_most.
  destruct (completes W (h ++ [startCall dirs ref])) eqn:Hstart.
  2: { exists [startCall dirs ref]. split; [done|]. cbn [fst snd].
       split; [split; [by repeat constructor|by rewrite R1]|].
       by apply failure_rejected. }
  destruct (completes W ((h ++ [startCall dirs ref])
              ++ [testCommand testSuite dir])) eqn:Htest.
  2: { exists [startCall dirs ref; testCommand testSuite dir].
       split; [by rewrite <- app_assoc|]. cbn [fst snd].
       split; [split; [by repeat constructor|by rewrite R2]|].
       apply (failure_rejected_after W _ [_]). by rewrite app_assoc. }
  assert ((h ++ [startCall dirs ref])
          ++ [testCommand testSuite dir; readResults W testSuite dir]
          = h ++ [startCall dirs ref; testCommand testSuite dir]
              ++ [readResults W testSuite dir]) as Eread
    by (by rewrite <- !app_assoc).
  rewrite !Eread.
  destruct (completes W (h ++ [startCall dirs ref; testCommand testSuite dir]
                           ++ [readResults W testSuite dir])) eqn:Hread.
  2: { exists [startCall dirs ref; testCommand testSuite dir;
               readResults W testSuite dir].
       split; [done|]. cbn [fst snd].
       split; [split; [by repeat constructor|by rewrite R3]|].
       by apply (failure_rejected_after W _ [_; _]). }
  destruct (curateResults _) as [e|curated] eqn:Hcurate.
  { exists [startCall dirs ref; testCommand testSuite dir;
            readResults W testSuite dir].
    split; [done|]. cbn [fst snd].
    split; [split; [by repeat constructor|by rewrite R3]|].
    apply curateResults_inl in Hcurate as (-> & name & Hname & Hnone).
    right. split; [done|]. split; [|by exists name].
    eexists. apply (head_reverse_after h [_; _]). }
  unfold set_row. rewrite Hrow. cbn [mbind result_bind mret result_ret].
  exists (executionCalls W dirs dir testSuite ref).
  assert ((h ++ [startCall dirs ref; testCommand testSuite dir]
             ++ [readResults W testSuite dir]) ++ [stopCall dirs ref]
          = h ++ executionCalls W dirs dir testSuite ref) as Estop
    by (unfold executionCalls; by rewrite <- !app_assoc).
  rewrite !Estop.
  destruct (completes W (h ++ executionCalls W dirs dir testSuite ref))
    eqn:Hstop; cbn [fst snd].
  - split; [done|]. split; [by repeat constructor | done].
  - split; [done|].
    split; [split; [by repeat constructor|by rewrite R4]|].
    by apply (failure_rejected_after W _ [_; _; _]).
Qed.

Lemma round_conforms (testSuite : string) (i : nat)
    (rawResults : list (gmap string WPPerformanceResults)) (h : list call) :
  is_Some (rawResults !! i) →
  conforms W trialsOk trialsErr
    (for_of refs (runOnBranch W dirs dir testSuite i) rawResults) h.
Proof.
  intros Hrow.
  apply (conforms_for_of W trialsOk trialsErr trialsOk_nil trialsOk_app
           trialsErr_app (λ r, is_Some (r !! i))); [| |done].
  - intros ref r g _ Hr. by apply runOnBranch_conforms.
  - intros ref r g r' g' _ [row Hr] Hrun.
    apply runOnBranch_inr in Hrun as (curated & row0 & Hrow0 & _ & -> & _).
    rewrite list_lookup_insert_eq by (by eapply lookup_lt_Some). by eexists.
Qed.

Lemma runRounds_conforms (testSuite : string) (h : list call) :
  conforms W trialsOk trialsErr (runRounds W refs dirs dir testSuite) h.
Proof.
  unfold runRounds. simpl seq. cbn [for_of].
  apply (conforms_bind W _ _ trialsOk_app trialsErr_app);
    [apply round_conforms; by eexists|].
  intros raw1 h1 H0.
  apply (round_inr _ _ _ _ _ _ _ _ _ _ ∅) in H0 as (-> & row0 & -> & _);
    [|done].
  apply (conforms_bind W _ _ trialsOk_app trialsErr_app);
    [apply round_conforms; by eexists|].
  intros raw2 h2 H1.
  apply (round_inr _ _ _ _ _ _ _ _ _ _ ∅) in H1 as (-> & row1 & -> & _);
    [|done].
  apply (conforms_bind W _ _ trialsOk_app trialsErr_app);
    [apply round_conforms; by eexists|].
  intros raw3 h3 _. apply conforms_ret, trialsOk_nil.
Qed.

(** Where every round has an entry for the ref, its medians are
    computed. *)
Lemma computeMedians_total (testSuite : string)
    (rawResults : list (gmap string WPPerformanceResults)) (ref : jsstring)
    (results : gmap string (gmap string WPPerformanceResults)) :
  (∀ i row, rawResults !! i = Some row → is_Some (row !! key ref)) →
  is_Some (results !! testSuite) →
  ∃ results', computeMedians testSuite rawResults ref results = inr results'.
Proof.
  intros Hdom [table Htable]. unfold computeMedians, perRound, set_nested.
  assert (∃ rows,
            mapM (λ r : gmap string WPPerformanceResults,
                    property_of "serverResponse" (r !! key ref)) rawResults
            = inr rows) as [rows ->].
  { induction rawResults as [|r rest IH]; [by eexists|].
    destruct (Hdom 0 r eq_refl) as [c Hc].
    destruct IH as [rows Hrows].
    { intros i row Hi. apply (Hdom (S i) row Hi). }
    exists (c :: rows). simpl. rewrite Hc. simpl. by rewrite Hrows. }
  simpl. rewrite Htable. by eexists.
Qed.

Lemma runSuite_conforms (testSuite : string)
    (results : gmap string (gmap string WPPerformanceResults))
    (h : list call) :
  conforms W trialsOk trialsErr
    (runSuite W refs dirs dir testSuite results) h.
Proof.
  unfold runSuite. cbv zeta.
  apply (conforms_bind W _ _ trialsOk_app trialsErr_app);
    [apply runRounds_conforms|].
  intros rawResults h' Hrounds.
  apply runRounds_inr in Hrounds as (_ & _ & Hdom & _).
  apply (conforms_for_of W trialsOk trialsErr trialsOk_nil trialsOk_app
           trialsErr_app (λ r, is_Some (r !! testSuite))).
  - intros ref r g Href Hr.
    destruct (computeMedians_total testSuite rawResults ref r) as [r' Hr'];
      [by eauto | done |].
    exists []. unfold lift. rewrite Hr'. simpl.
    split; [by rewrite app_nil_r | apply trialsOk_nil].
  - intros ref r g r' g' _ [table Hr] Hrun. unfold lift in Hrun.
    injection Hrun as Hrun _.
    destruct (computeMedians_inr _ _ _ _ _ _ Hrun Hr) as (rows & _ & ->).
    rewrite lookup_insert_eq. by eexists.
  - rewrite lookup_insert_eq. by eexists.
Qed.

Lemma runTests_conforms (h : list call) :
  conforms W trialsOk trialsErr (runTests W refs dirs dir) h.
Proof.
  unfold runTests.
  apply (conforms_for_of W trialsOk trialsErr trialsOk_nil trialsOk_app
           trialsErr_app (λ _, True)); [|done..].
  intros testSuite results g _ _. apply runSuite_conforms.
Qed.

Lemma round_counts (testSuite : string) (refs0 : list jsstring) :
  starts (roundCalls W refs0 dirs dir testSuite) = length refs0
  ∧ stops (roundCalls W refs0 dirs dir testSuite) = length refs0.
Proof.
  unfold roundCalls. induction refs0 as [|ref rest [IHs IHp]]; [done|].
  cbn [fmap list_fmap concat length].
  destruct (execution_counts testSuite ref) as (_ & _ & _ & [S4 P4]).
  rewrite starts_app, stops_app, S4, P4.
  change (starts (concat (executionCalls W dirs dir testSuite <$> rest))
          = length rest) in IHs.
  change (stops (concat (executionCalls W dirs dir testSuite <$> rest))
          = length rest) in IHp.
  by rewrite IHs, IHp.
Qed.

Lemma trial_counts (testSuite : string) :
  starts (trialCalls W refs dirs dir testSuite) = 3 * length refs
  ∧ stops (trialCalls W refs dirs dir testSuite) = 3 * length refs.
Proof.
  unfold trialCalls. destruct (round_counts testSuite refs) as [Hs Hp].
  rewrite !starts_app, !stops_app, Hs, Hp. lia.
Qed.

End TrialConformance.

(** *** The reports *)

Lemma report_kinds (W : World)
    (results : gmap string (gmap string WPPerformanceResults))
    (testSuite : string) :
  of_kinds [Report] (reportCalls W results testSuite).
Proof.
  unfold reportCalls. destruct (results !! testSuite); repeat constructor.
Qed.

(** Reporting one suite that the table has. *)
Lemma reportSuite_run (W : World)
    (results : gmap string (gmap string WPPerformanceResults))
    (testSuite : string) (table : gmap string WPPerformanceResults)
    (h : list call) :
  results !! testSuite = Some table →
  reportSuite W results testSuite () h =
  (if completes W (h ++ reportCalls W results testSuite)
   then inr ()
   else inl (Rejected (WriteFileSync (resultsFile W testSuite)
                         (StringifiedResults table))),
   h ++ reportCalls W results testSuite).
Proof.
  intros Htable. unfold reportSuite, reportCalls, resultsFile. rewrite Htable.
  cbv [lift detached perform mbind M_bind mret result_ret].
  rewrite <- !app_assoc. cbn [app]. by case_match.
Qed.

Lemma reports_run (W : World)
    (results : gmap string (gmap string WPPerformanceResults))
    (h : list call) :
  is_Some (results !! "post-editor") →
  is_Some (results !! "site-editor") →
  ∃ reports,
    (for_of testSuites (reportSuite W results) () h).2 = h ++ reports
    ∧ reports `prefix_of` reportCalls W results "post-editor"
                          ++ reportCalls W results "site-editor"
    ∧ match (for_of testSuites (reportSuite W results) () h).1 with
      | inr _ =>
          reports = reportCalls W results "post-editor"
                    ++ reportCalls W results "site-editor"
      | inl e => failure W e (h ++ reports)
      end.
Proof.
  intros [t1 Hpost] [t2 Hsite]. unfold testSuites. cbn [for_of].
  rewrite bind_run, (reportSuite_run _ _ _ t1) by done.
  destruct (completes W (h ++ reportCalls W results "post-editor")) eqn:H1.
  - rewrite bind_run, (reportSuite_run _ _ _ t2) by done.
    exists (reportCalls W results "post-editor"
            ++ reportCalls W results "site-editor").
    rewrite (app_assoc h).
    destruct (completes W ((h ++ reportCalls W results "post-editor")
                ++ reportCalls W results "site-editor")) eqn:H2;
      cbn [fst snd mret M_ret].
    + done.
    + split_and!; [done..|].
      revert H2. unfold reportCalls at 2 4. rewrite Hsite. intros H2.
      by apply (failure_rejected_after W _ [_]).
  - exists (reportCalls W results "post-editor"). cbn [fst snd].
    split_and!; [done | by apply prefix_app_r |].
    revert H1. unfold reportCalls. rewrite Hpost. intros H1.
    by apply (failure_rejected_after W _ [_]).
Qed.

(** *** The command, stage by stage *)

Lemma trialsOk_Err (calls : list call) : trialsOk calls → trialsErr calls.
Proof.
  unfold trialsOk, trialsErr, all_stopped, one_running_at_most.
  intros [Hkinds Hcount]. split; [done | by rewrite Hcount].
Qed.

Lemma trialsErr_nil : trialsErr [].
Proof. apply trialsOk_Err, trialsOk_nil. Qed.

(** The prompt: made outside CI only; the command goes on when it is
    accepted. *)
Lemma prompt_run (W : World) (env : ProcessEnv) (h : list call) :
  when (negb (truthy (CI env))) (askForConfirmation W "Ready to go? ") h
  = (inr (), h ++ promptCalls env)
  ∨ (truthy (CI env) = false
     ∧ completes W (h ++ [AskForConfirmation "Ready to go? "]) = false
     ∧ when (negb (truthy (CI env))) (askForConfirmation W "Ready to go? ") h
       = (inl (Rejected (AskForConfirmation "Ready to go? ")),
          h ++ promptCalls env)).
Proof.
  unfold promptCalls. destruct (truthy (CI env)); cbn [negb when].
  - left. by rewrite app_nil_r.
  - unfold askForConfirmation. rewrite perform_run.
    destruct (completes W _) eqn:Hprompt; [by left | by right].
Qed.

(** The command, stage by stage: what each stage adds to the history,
    whether the command returns or throws. *)
Lemma runPerformanceTests_stages (W : World) (env : ProcessEnv)
    (branches : list string) (options : WPPerformanceCommandOptions)
    (h : list call) :
  ∃ provision trials reports,
    (runPerformanceTests W env branches options h).2
    = h ++ promptCalls env ++ provision ++ trials ++ reports
    ∧ of_kinds (provisionKinds options) provision
    ∧ trialsErr trials
    ∧ of_kinds [Report] reports
    ∧ match (runPerformanceTests W env branches options h).1 with
      | inl e =>
          failure W e (h ++ promptCalls env ++ provision ++ trials ++ reports)
      | inr results =>
          ∃ dirs dir,
            runTests W (resolveRefs env branches) dirs dir
              (h ++ promptCalls env ++ provision)
            = (inr results, h ++ promptCalls env ++ provision ++ trials)
            ∧ all_stopped trials
            ∧ reports = reportCalls W results "post-editor"
                        ++ reportCalls W results "site-editor"
      end
    ∧ (reports ≠ [] →
       ∃ dirs dir results,
         runTests W (resolveRefs env branches) dirs dir
           (h ++ promptCalls env ++ provision)
         = (inr results, h ++ promptCalls env ++ provision ++ trials)
         ∧ reports `prefix_of` reportCalls W results "post-editor"
                               ++ reportCalls W results "site-editor").
Proof.
  unfold runPerformanceTests. cbv zeta. rewrite bind_run.
  destruct (prompt_run W env h) as [->|(Hci & Hdeclined & ->)].
  2: { exists [], [], []. rewrite !app_nil_r. cbn [fst snd].
       split_and!; [done | constructor | apply trialsErr_nil | constructor
                   | | done].
       unfold promptCalls. rewrite Hci. by apply failure_rejected. }
  rewrite bind_run, checkRefs_run, bind_run.
  set (h1 := h ++ promptCalls env).
  set (refs := resolveRefs env branches).
  destruct (prepareTestsDirectory_conforms W refs h1) as (a & Ha & Hma).
  destruct (prepareTestsDirectory W refs h1)
    as [[e|[[baseDirectory rootDirectory] dir]] h2];
    cbn [fst snd] in Ha, Hma; subst h2.
  { destruct Hma as [Hkinds Hfail].
    exists a, [], []. rewrite !app_nil_r. cbn [fst snd]. unfold h1 in *.
    rewrite <- !app_assoc in *.
    split_and!; [done | | apply trialsErr_nil | apply of_kinds_nil | done
                | done].
    by apply (of_kinds_subseteq _ _ _ (provisionKinds_base options)). }
  apply (of_kinds_subseteq _ _ _ (provisionKinds_base options)) in Hma.
  rewrite bind_run.
  destruct (conforms_for_of W _ _ (of_kinds_nil (provisionKinds options))
              (of_kinds_app _) (of_kinds_app _) (λ _, True) refs
              (prepareEnvironment W options baseDirectory rootDirectory dir)
              ∅ (h1 ++ a)) as (b & Hb & Hmb); [|done..|].
  { intros ref s g _ _. apply prepareEnvironment_conforms. }
  destruct (for_of refs _ ∅ (h1 ++ a)) as [[e|dirs] h3];
    cbn [fst snd] in Hb, Hmb; subst h3.
  { destruct Hmb as [Hkinds Hfail].
    exists (a ++ b), [], []. rewrite !app_nil_r. cbn [fst snd]. unfold h1 in *.
    rewrite <- !app_assoc in *.
    split_and!; [done | | apply trialsErr_nil | apply of_kinds_nil | done
                | done].
    by apply of_kinds_app. }
  rewrite bind_run.
  destruct (runTests_conforms W refs dirs dir ((h1 ++ a) ++ b))
    as (t & Ht & Hmt).
  destruct (runTests W refs dirs dir ((h1 ++ a) ++ b))
    as [[e|results] h4] eqn:Htests; cbn [fst snd] in Ht, Hmt; subst h4.
  { destruct Hmt as [Htrials Hfail].
    exists (a ++ b), t, []. rewrite !app_nil_r. cbn [fst snd]. unfold h1 in *.
    rewrite <- !app_assoc in *.
    split_and!; [done | by apply of_kinds_app | done | apply of_kinds_nil
                | done | done]. }
  destruct (runTests_inr _ _ _ _ _ _ _ Htests) as [_ Hsuites].
  destruct (Hsuites "post-editor" _ ltac:(apply list_elem_of_here))
    as (_ & t1 & _ & Ht1 & _).
  destruct (Hsuites "site-editor" _
              ltac:(apply list_elem_of_further, list_elem_of_here))
    as (_ & t2 & _ & Ht2 & _).
  destruct (reports_run W results (((h1 ++ a) ++ b) ++ t))
    as (reports & Hr & Hprefix & Hmr); [by eexists..|].
  rewrite bind_run.
  assert (runTests W refs dirs dir (h ++ promptCalls env ++ a ++ b)
          = (inr results, h ++ promptCalls env ++ (a ++ b) ++ t)) as Htests'.
  { unfold h1 in Htests. by rewrite <- !app_assoc in *. }
  exists (a ++ b), t, reports.
  destruct (for_of testSuites (reportSuite W results) ()
              (((h1 ++ a) ++ b) ++ t)) as [[e|[]] h5];
    cbn [fst snd mret M_ret] in *; subst h5; unfold h1 in *;
    rewrite <- !app_assoc in *.
  - split_and!; [done | by apply of_kinds_app | by apply trialsOk_Err | | done
                | by exists dirs, dir, results ].
    apply (of_kinds_prefix _ _ _ Hprefix).
    apply of_kinds_app; apply report_kinds.
  - split_and!; [done | by apply of_kinds_app | by apply trialsOk_Err |
                | exists dirs, dir; split_and!; [done | by destruct Hmt | done]
                | by exists dirs, dir, results; rewrite Hmr ].
    rewrite Hmr. apply of_kinds_app; apply report_kinds.
Qed.

(** *** What the command never does *)

Lemma kinds_exclude (ks : list kind) (k : kind) (calls : list call) :
  k ∉ ks → of_kinds ks calls → Forall (λ c, kind_of c ≠ k) calls.
Proof.
  intros Hk. apply Forall_impl. intros c Hc E. by rewrite E in Hc.
Qed.

Lemma provisionKinds_elem (options : WPPerformanceCommandOptions) (k : kind) :
  k ∈ provisionKinds options → k ∈ [Temporary; Git; Shell; Read; Configure].
Proof.
  unfold provisionKinds. destruct (truthy _); [done|].
  intros Hk. repeat (apply elem_of_cons in Hk as [->|Hk]; [compute_done|]).
  inversion Hk.
Qed.

(** X11: the prompt is made outside CI only, and first: the calls of a
    run are the prompt (outside CI) and, after it, calls none of which is
    a prompt; when the user declines, the command ends with that rejection
    and has made no other call. *)
Theorem prompt_only_outside_CI (W : World) (env : ProcessEnv)
    (branches : list string) (options : WPPerformanceCommandOptions)
    (h : list call) :
  (∃ rest,
     (runPerformanceTests W env branches options h).2
     = h ++ promptCalls env ++ rest
     ∧ Forall (λ c, kind_of c ≠ Prompt) rest)
  ∧ (truthy (CI env) = false →
     completes W (h ++ [AskForConfirmation "Ready to go? "]) = false →
     runPerformanceTests W env branches options h
     = (inl (Rejected (AskForConfirmation "Ready to go? ")),
        h ++ [AskForConfirmation "Ready to go? "])).
Proof.
  split.
  - destruct (runPerformanceTests_stages W env branches options h)
      as (provision & trials & reports & Hh & Hprov & [Htrials _] & Hrep & _).
    exists (provision ++ trials ++ reports). split; [done|].
    repeat apply Forall_app_2.
    + apply (kinds_exclude [Temporary; Git; Shell; Read; Configure]);
        [compute_done|].
      exact (of_kinds_subseteq _ _ _ (provisionKinds_elem options) Hprov).
    + by apply (kinds_exclude trialKinds); [compute_done|].
    + by apply (kinds_exclude [Report]); [compute_done|].
  - intros Hci Hdeclined. unfold runPerformanceTests. cbv zeta.
    rewrite bind_run.
    destruct (prompt_run W env h) as [Hrun|(_ & _ & ->)].
    + exfalso. revert Hrun. rewrite Hci. cbn [negb when].
      unfold askForConfirmation. rewrite perform_run, Hdeclined. discriminate.
    + unfold promptCalls. by rewrite Hci.
Qed.

(** X12: whenever the command throws, what it throws is a [failure]:
    the rejection of the very last call it made (no call is made after one
    that failed), or the [TypeError] of [curateResults] on the result file it
    has just read, which lacks a metric. It never throws the [Error] of the
    guard on the number of refs. *)
Theorem command_fails_at_last_call (W : World) (env : ProcessEnv)
    (branches : list string) (options : WPPerformanceCommandOptions)
    (h h' : list call) (e : exn) :
  runPerformanceTests W env branches options h = (inl e, h') →
  failure W e h' ∧ ∀ message, e ≠ Error message.
Proof.
  intros Hrun.
  destruct (runPerformanceTests_stages W env branches options h)
    as (provision & trials & reports & Hh & _ & _ & _ & Hfail & _).
  rewrite Hrun in Hh, Hfail. cbn [fst snd] in Hh, Hfail. subst h'.
  split; [done|]. intros message ->.
  by destruct Hfail as [(c & Hc & _)|[Hc _]].
Qed.

(** X13: at most one environment runs at a time. In every run, to the
    end or not, the [wp-env start] and [wp-env stop] calls alternate,
    beginning with a start, so that at most one environment is left
    running; when the command returns none is, and it has started and
    stopped an environment six times per ref (two suites, three rounds). *)
Theorem one_environment_at_a_time (W : World) (env : ProcessEnv)
    (branches : list string) (options : WPPerformanceCommandOptions)
    (h : list call) :
  ∃ added,
    (runPerformanceTests W env branches options h).2 = h ++ added
    ∧ one_running_at_most added
    ∧ (succeeded (runPerformanceTests W env branches options h).1 = true →
       all_stopped added
       ∧ starts added = 6 * length (resolveRefs env branches)
       ∧ stops added = 6 * length (resolveRefs env branches)).
Proof.
  destruct (runPerformanceTests_stages W env branches options h)
    as (provision & trials & reports & Hh & Hprov & [Htrials Hone] & Hrep
        & Hrun & _).
  assert (of_kinds [Temporary; Git; Shell; Read; Configure] provision)
    as Hprov'.
  { exact (of_kinds_subseteq _ _ _ (provisionKinds_elem options) Hprov). }
  assert (of_kinds [Prompt] (promptCalls env)) as Hprompt.
  { unfold promptCalls. destruct (truthy _); repeat constructor. }
  assert (running_after false
            (promptCalls env ++ provision ++ trials ++ reports)
          = running_after false trials) as Hrunning.
  { rewrite running_after_app, (running_after_of_kinds [Prompt])
      by (done || compute_done).
    cbn [mbind option_bind].
    rewrite running_after_app,
      (running_after_of_kinds [Temporary; Git; Shell; Read; Configure])
      by (done || compute_done).
    cbn [mbind option_bind]. rewrite running_after_app.
    destruct (running_after false trials) as [r'|]; [|done].
    cbn [mbind option_bind].
    by rewrite (running_after_of_kinds [Report]) by (done || compute_done). }
  exists (promptCalls env ++ provision ++ trials ++ reports).
  split; [done|]. split.
  { unfold one_running_at_most. by rewrite Hrunning. }
  intros Hok. destruct (runPerformanceTests W env branches options h).1
    as [e|results]; [done|].
  destruct Hrun as (dirs & dir & Htests & Hstopped & _).
  split.
  { unfold all_stopped. by rewrite Hrunning. }
  apply runTests_inr in Htests as [Htrials' _].
  rewrite <- !app_assoc in Htrials'.
  do 3 apply app_inv_head in Htrials'. subst trials.
  destruct (trial_counts W (resolveRefs env branches) dirs dir "post-editor")
    as [S1 P1].
  destruct (trial_counts W (resolveRefs env branches) dirs dir "site-editor")
    as [S2 P2].
  rewrite !starts_app, !stops_app, S1, S2, P1, P2.
  rewrite (starts_of_kinds [Prompt]), (stops_of_kinds [Prompt])
    by (done || compute_done).
  rewrite (starts_of_kinds [Temporary; Git; Shell; Read; Configure]),
    (stops_of_kinds [Temporary; Git; Shell; Read; Configure])
    by (done || compute_done).
  rewrite (starts_of_kinds [Report]), (stops_of_kinds [Report])
    by (done || compute_done).
  lia.
Qed.

(** One ref in the world where every call completes. *)
Lemma one_environment_at_a_time_witness :
  succeeded (runPerformanceTests calm_world local_env ["trunk"] no_options []).1
  = true
  ∧ ∃ added,
      (runPerformanceTests calm_world local_env ["trunk"] no_options []).2
      = [] ++ added
      ∧ all_stopped added
      ∧ starts added = 6 * length (resolveRefs local_env ["trunk"])
      ∧ stops added = 6 * length (resolveRefs local_env ["trunk"]).
Proof.
  assert (Hok : succeeded (runPerformanceTests calm_world local_env ["trunk"]
                             no_options []).1 = true)
    by (vm_compute; reflexivity).
  split; [exact Hok|].
  destruct (one_environment_at_a_time calm_world local_env ["trunk"]
              no_options []) as (added & Hh & _ & Hreturned).
  exists added. split; [exact Hh | exact (Hreturned Hok)].
Defined.

(** The user declines. *)
Lemma prompt_only_outside_CI_witness :
  truthy (CI local_env) = false
  ∧ completes declining_world ([] ++ [AskForConfirmation "Ready to go? "])
    = false
  ∧ runPerformanceTests declining_world local_env ["trunk"] no_options []
    = (inl (Rejected (AskForConfirmation "Ready to go? ")),
       [] ++ [AskForConfirmation "Ready to go? "]).
Proof.
  split_and!; [reflexivity | reflexivity |].
  exact (proj2 (prompt_only_outside_CI declining_world local_env ["trunk"]
                  no_options []) eq_refl eq_refl).
Defined.

(** The user declines. *)
Lemma command_fails_at_last_call_witness :
  runPerformanceTests declining_world local_env ["trunk"] no_options []
  = (inl (Rejected (AskForConfirmation "Ready to go? ")),
     [AskForConfirmation "Ready to go? "])
  ∧ failure declining_world (Rejected (AskForConfirmation "Ready to go? "))
      [AskForConfirmation "Ready to go? "].
Proof.
  assert (Hrun : runPerformanceTests declining_world local_env ["trunk"]
                   no_options []
                 = (inl (Rejected (AskForConfirmation "Ready to go? ")),
                    [AskForConfirmation "Ready to go? "])) by reflexivity.
  split; [exact Hrun|].
  exact (proj1 (command_fails_at_last_call _ _ _ _ _ _ _ Hrun)).
Defined.

Lemma head_reverse_app (a b : list call) :
  b ≠ [] → ∃ c, head (reverse (a ++ b)) = Some c ∧ c ∈ b.
Proof.
  intros Hb. destruct (reverse b) as [|c rest] eqn:Hrev.
  - apply (f_equal reverse) in Hrev. by rewrite reverse_involutive in Hrev.
  - exists c. rewrite reverse_app, Hrev. split; [done|].
    apply elem_of_reverse. rewrite Hrev. apply list_elem_of_here.
Qed.

(** X14: when the command returns, the last four calls it made are
    the reports: for ["post-editor"] and then for ["site-editor"], the
    console table of the suite's row of the table it returns, then the
    write of that same row to the suite's result file; nothing was reported
    before them. *)
Theorem reports_on_success (W : World) (env : ProcessEnv)
    (branches : list string) (options : WPPerformanceCommandOptions)
    (h h' : list call)
    (results : gmap string (gmap string WPPerformanceResults)) :
  runPerformanceTests W env branches options h = (inr results, h') →
  ∃ before post site,
    results !! "post-editor" = Some post
    ∧ results !! "site-editor" = Some site
    ∧ Forall (λ c, kind_of c ≠ Report) before
    ∧ h' = h ++ before
           ++ [ ConsoleTable (invertResults W post);
                WriteFileSync (resultsFile W "post-editor")
                  (StringifiedResults post);
                ConsoleTable (invertResults W site);
                WriteFileSync (resultsFile W "site-editor")
                  (StringifiedResults site) ].
Proof.
  intros Hrun.
  destruct (runPerformanceTests_stages W env branches options h)
    as (provision & trials & reports & Hh & Hprov & [Htrials _] & _ & Hok & _).
  rewrite Hrun in Hh, Hok. cbn [fst snd] in Hh, Hok. subst h'.
  destruct Hok as (dirs & dir & Htests & _ & ->).
  destruct (runTests_inr _ _ _ _ _ _ _ Htests) as [_ Hsuites].
  destruct (Hsuites "post-editor" _ ltac:(apply list_elem_of_here))
    as (_ & post & _ & Hpost & _).
  destruct (Hsuites "site-editor" _
              ltac:(apply list_elem_of_further, list_elem_of_here))
    as (_ & site & _ & Hsite & _).
  exists (promptCalls env ++ provision ++ trials), post, site.
  split_and!; [done | done | |].
  - repeat apply Forall_app_2.
    + unfold promptCalls. destruct (truthy (CI env)); by repeat constructor.
    + apply (kinds_exclude [Temporary; Git; Shell; Read; Configure]);
        [compute_done|].
      exact (of_kinds_subseteq _ _ _ (provisionKinds_elem options) Hprov).
    + by apply (kinds_exclude trialKinds); [compute_done|].
  - unfold reportCalls. rewrite Hpost, Hsite. by rewrite <- !app_assoc.
Qed.

(** One ref in the world where every call completes. *)
Lemma reports_on_success_witness :
  returns (runPerformanceTests calm_world local_env ["trunk"] no_options [])
    (λ results,
       ∃ before post site,
         results !! "post-editor" = Some post
         ∧ results !! "site-editor" = Some site
         ∧ (runPerformanceTests calm_world local_env ["trunk"] no_options []).2
           = [] ++ before
             ++ [ ConsoleTable (invertResults calm_world post);
                  WriteFileSync (resultsFile calm_world "post-editor")
                    (StringifiedResults post);
                  ConsoleTable (invertResults calm_world site);
                  WriteFileSync (resultsFile calm_world "site-editor")
                    (StringifiedResults site) ]).
Proof.
  assert (Hok : succeeded (runPerformanceTests calm_world local_env ["trunk"]
                             no_options []).1 = true)
    by (vm_compute; reflexivity).
  revert Hok.
  destruct (runPerformanceTests calm_world local_env ["trunk"] no_options [])
    as [[e|results] h'] eqn:Hrun; intros Hok.
  - discriminate Hok.
  - exists results. split; [reflexivity|].
    destruct (reports_on_success _ _ _ _ _ _ _ Hrun)
      as (before & post & site & Hpost & Hsite & _ & Hh').
    exists before, post, site.
    split_and!; [exact Hpost | exact Hsite | exact Hh'].
Defined.

(** X15: a run that fails before the reports has reported nothing: when
    the command throws and what it throws is not the rejection of a report
    itself, no console table was printed and no result file written. *)
Theorem failed_run_reports_nothing (W : World) (env : ProcessEnv)
    (branches : list string) (options : WPPerformanceCommandOptions)
    (h h' : list call) (e : exn) :
  runPerformanceTests W env branches options h = (inl e, h') →
  (∀ c, e = Rejected c → kind_of c ≠ Report) →
  ∃ added, h' = h ++ added ∧ Forall (λ c, kind_of c ≠ Report) added.
Proof.
  intros Hrun He.
  destruct (runPerformanceTests_stages W env branches options h)
    as (provision & trials & reports & Hh & Hprov & [Htrials _] & Hrep
        & Hfail & _).
  rewrite Hrun in Hh, Hfail. cbn [fst snd] in Hh, Hfail. subst h'.
  exists (promptCalls env ++ provision ++ trials ++ reports).
  split; [done|].
  destruct (decide (reports = [])) as [->|Hne].
  { repeat apply Forall_app_2; [| | |constructor].
    - unfold promptCalls. destruct (truthy (CI env)); by repeat constructor.
    - apply (kinds_exclude [Temporary; Git; Shell; Read; Configure]);
        [compute_done|].
      exact (of_kinds_subseteq _ _ _ (provisionKinds_elem options) Hprov).
    - by apply (kinds_exclude trialKinds); [compute_done|]. }
  exfalso.
  destruct (head_reverse_app (h ++ promptCalls env ++ provision ++ trials)
              reports Hne) as (c & Hlast & Hc).
  rewrite <- !app_assoc in Hlast.
  assert (kind_of c = Report) as Hkind.
  { unfold of_kinds in Hrep. rewrite Forall_forall in Hrep.
    apply list_elem_of_In in Hc. specialize (Hrep c Hc).
    by apply list_elem_of_singleton in Hrep. }
  destruct Hfail as [(c' & -> & Hc' & _)|(_ & [fileName Hread] & _)].
  - rewrite Hlast in Hc'. injection Hc' as <-. by apply (He c).
  - rewrite Hlast in Hread. injection Hread as ->. discriminate Hkind.
Qed.

(** The user declines. *)
Lemma failed_run_reports_nothing_witness :
  runPerformanceTests declining_world local_env ["trunk"] no_options []
  = (inl (Rejected (AskForConfirmation "Ready to go? ")),
     [AskForConfirmation "Ready to go? "])
  ∧ (∀ c, Rejected (AskForConfirmation "Ready to go? ") = Rejected c →
          kind_of c ≠ Report)
  ∧ ∃ added,
      [AskForConfirmation "Ready to go? "] = [] ++ added
      ∧ Forall (λ c, kind_of c ≠ Report) added.
Proof.
  assert (Hrun : runPerformanceTests declining_world local_env ["trunk"]
                   no_options []
                 = (inl (Rejected (AskForConfirmation "Ready to go? ")),
                    [AskForConfirmation "Ready to go? "])) by reflexivity.
  assert (He : ∀ c, Rejected (AskForConfirmation "Ready to go? ") = Rejected c
                    → kind_of c ≠ Report).
  { intros c Hc. injection Hc as <-. discriminate. }
  split_and!; [exact Hrun | exact He |].
  exact (failed_run_reports_nothing _ _ _ _ _ _ _ Hrun He).
Defined.

(** X16: without [options.wpVersion] (absent, or the empty string) no
    run, to the end or not, calls [fs.writeFileSync] with a configuration:
    the [.wp-env.json] that the [cp] of lines 265-274 puts into every
    environment directory is left as copied, never patched. *)
Theorem configuration_not_patched_without_wpVersion (W : World)
    (env : ProcessEnv) (branches : list string)
    (options : WPPerformanceCommandOptions) (h : list call) :
  truthy (wpVersion options) = false →
  ∃ added,
    (runPerformanceTests W env branches options h).2 = h ++ added
    ∧ Forall (λ c, kind_of c ≠ Configure) added.
Proof.
  intros Hno.
  destruct (runPerformanceTests_stages W env branches options h)
    as (provision & trials & reports & Hh & Hprov & [Htrials _] & Hrep & _).
  exists (promptCalls env ++ provision ++ trials ++ reports).
  split; [done|]. unfold provisionKinds in Hprov. rewrite Hno in Hprov.
  repeat apply Forall_app_2.
  - unfold promptCalls. destruct (truthy (CI env)); by repeat constructor.
  - by apply (kinds_exclude [Temporary; Git; Shell]); [compute_done|].
  - by apply (kinds_exclude trialKinds); [compute_done|].
  - by apply (kinds_exclude [Report]); [compute_done|].
Qed.

(** The empty string as version. *)
Lemma configuration_not_patched_without_wpVersion_witness :
  truthy (wpVersion (mkOptions None None (Some ""))) = false
  ∧ ∃ added,
      (runPerformanceTests calm_world local_env ["trunk"]
         (mkOptions None None (Some "")) []).2 = [] ++ added
      ∧ Forall (λ c, kind_of c ≠ Configure) added.
Proof.
  split; [reflexivity|].
  exact (configuration_not_patched_without_wpVersion calm_world local_env
           ["trunk"] (mkOptions None None (Some "")) [] eq_refl).
Defined.

(** ** The result table *)

Lemma runSuite_dom (W : World) (refs : list jsstring)
    (dirs : gmap string string) (dir testSuite : string)
    (results results' : gmap string (gmap string WPPerformanceResults))
    (h h' : list call) :
  runSuite W refs dirs dir testSuite results h = (inr results', h') →
  ∃ table,
    results' = <[testSuite := table]> results
    ∧ ∀ k, is_Some (table !! k) ↔ k ∈ key <$> refs ∧ k ≠ "__proto__".
Proof.
  unfold runSuite. cbv zeta. intros Hrun.
  apply bind_inr in Hrun as (rawResults & h1 & _ & Hrun).
  destruct (medians_inr _ _ _ _ _ ∅ _ _ Hrun (lookup_insert_eq _ _ _))
    as (_ & table & -> & Hframe & Hproto & Hvalue).
  exists table. split; [by rewrite insert_insert_eq|].
  intros k. split.
  - intros Hk. split.
    + destruct (decide (k ∈ key <$> refs)) as [|Hnotin]; [done|].
      rewrite Hframe, lookup_empty in Hk; [by destruct Hk|].
      intros ref Href <-. apply Hnotin, list_elem_of_fmap. eauto.
    + intros ->. rewrite Hproto, lookup_empty in Hk. by destruct Hk.
  - intros [(ref & -> & Href)%list_elem_of_fmap Hname].
    destruct (Hvalue ref Href) as (rows & _ & Hentry).
    rewrite (Hentry Hname). by eexists.
Qed.

(** X17: the table a completed trial loop returns has a row for
    ["post-editor"] and for ["site-editor"] and for nothing else, and each
    row has an own entry for the names of the refs other than
    ["__proto__"] and for nothing else (a name listed twice has one entry;
    the assignment for a ref named ["__proto__"] goes to the prototype
    accessor and leaves no entry). *)
Theorem table_has_exactly_suites_and_refs (W : World) (refs : list jsstring)
    (dirs : gmap string string) (dir : string)
    (results : gmap string (gmap string WPPerformanceResults))
    (h h' : list call) :
  runTests W refs dirs dir h = (inr results, h') →
  (∀ testSuite, is_Some (results !! testSuite) ↔ testSuite ∈ testSuites)
  ∧ ∀ testSuite table,
      results !! testSuite = Some table →
      ∀ k, is_Some (table !! k) ↔ k ∈ key <$> refs ∧ k ≠ "__proto__".
Proof.
  unfold runTests, testSuites. cbn [for_of]. intros Hrun.
  apply bind_inr in Hrun as (results1 & h1 & Hpost & Hrun).
  apply bind_inr in Hrun as (results2 & h2 & Hsite & Hrun).
  injection Hrun as <- _.
  apply runSuite_dom in Hpost as (post & -> & Hpost).
  apply runSuite_dom in Hsite as (site & -> & Hsite).
  split.
  - intros testSuite. rewrite !elem_of_cons, elem_of_nil.
    destruct (decide (testSuite = "site-editor")) as [->|Hs].
    { rewrite lookup_insert_eq. split; [auto | by eexists]. }
    rewrite lookup_insert_ne by done.
    destruct (decide (testSuite = "post-editor")) as [->|Hp].
    { rewrite lookup_insert_eq. split; [auto | by eexists]. }
    rewrite lookup_insert_ne, lookup_empty by done.
    split; [by intros [? ?] | by intros [?|[?|[]]]].
  - intros testSuite table Htable.
    destruct (decide (testSuite = "site-editor")) as [->|Hs].
    { rewrite lookup_insert_eq in Htable. by injection Htable as <-. }
    rewrite lookup_insert_ne in Htable by done.
    destruct (decide (testSuite = "post-editor")) as [->|Hp].
    { rewrite lookup_insert_eq in Htable. by injection Htable as <-. }
    by rewrite lookup_insert_ne, lookup_empty in Htable.
Qed.

(** The refs [trunk] and [__proto__] in the world where every call
    completes: both suites have a row, with an entry for [trunk] and none
    for [__proto__]. *)
Lemma table_has_exactly_suites_and_refs_witness :
  returns (runTests calm_world proto_refs proto_dirs "/tests" [])
    (λ results,
       (∀ testSuite, is_Some (results !! testSuite) ↔ testSuite ∈ testSuites)
       ∧ ∃ table,
           results !! "post-editor" = Some table
           ∧ is_Some (table !! "trunk")
           ∧ ¬ is_Some (table !! "__proto__")).
Proof.
  assert (Hok : succeeded
                  (runTests calm_world proto_refs proto_dirs "/tests" []).1
                = true) by (vm_compute; reflexivity).
  revert Hok.
  destruct (runTests calm_world proto_refs proto_dirs "/tests" [])
    as [[e|results] h'] eqn:Hrun; intros Hok.
  - discriminate Hok.
  - exists results. split; [reflexivity|].
    destruct (table_has_exactly_suites_and_refs _ _ _ _ _ _ _ Hrun)
      as [Hsuites Hrows].
    split; [exact Hsuites|].
    assert (Hpost : is_Some (results !! "post-editor"))
      by (apply Hsuites; compute_done).
    destruct Hpost as [table Htable].
    exists table. split; [exact Htable|]. split.
    + apply (Hrows _ _ Htable). split; [compute_done | discriminate].
    + intros Hsome. apply (Hrows _ _ Htable) in Hsome.
      destruct Hsome as [_ Hne]. exact (Hne eq_refl).
Defined.

(** ** The console table *)

Lemma invertEntry_rows (W : World) (revision : string)
    (acc : gmap string (gmap string string)) (e : string * number) :
  (∀ entry row, acc !! entry = Some row → row ≠ ∅) →
  ∀ entry row, invertEntry W revision acc e !! entry = Some row → row ≠ ∅.
Proof.
  intros Hacc entry row. destruct e as [name value]. unfold invertEntry.
  destruct (isFinite value); [|rewrite andb_false_r; apply Hacc].
  rewrite andb_true_r.
  destruct (decide (entry = name)) as [->|Hentry].
  - rewrite lookup_insert_eq. intros [= <-]. apply insert_non_empty.
  - rewrite lookup_insert_ne by done.
    destruct (negb _); [rewrite lookup_insert_ne by done|]; apply Hacc.
Qed.

Lemma invertResults_rows (W : World)
    (table : gmap string WPPerformanceResults) (entry : string)
    (row : gmap string string) :
  invertResults W table !! entry = Some row → row ≠ ∅.
Proof.
  revert entry row. unfold invertResults.
  apply (map_fold_weak_ind
    (λ acc (_ : gmap string WPPerformanceResults),
       ∀ entry row, acc !! entry = Some row → row ≠ ∅)).
  - intros entry row. by rewrite lookup_empty.
  - intros revision val m acc _ IH.
    generalize (entries val). intros es. revert acc IH.
    induction es as [|e es IHes]; intros acc IH; [done|].
    cbn [foldl]. apply IHes. by apply invertEntry_rows.
Qed.

(** X18: the table handed to [console.table]: a finite value of the
    result table appears as that number followed by [" ms"], under its
    metric and its revision; every cell comes from such a value; and no row
    is empty: a row is a key of a curated bundle under which some revision
    has a finite value. *)
Theorem console_table_cells (W : World)
    (table : gmap string WPPerformanceResults) :
  (∀ revision val entry value,
     table !! revision = Some val →
     prop val entry = Some value →
     isFinite value = true →
     cell (invertResults W table) entry revision
     = Some (number_toString W value +:+ " ms"))
  ∧ (∀ entry revision text,
       cell (invertResults W table) entry revision = Some text →
       ∃ val value,
         table !! revision = Some val
         ∧ prop val entry = Some value
         ∧ isFinite value = true
         ∧ text = number_toString W value +:+ " ms")
  ∧ (∀ entry row,
       invertResults W table !! entry = Some row →
       entry ∈ curated_keys ∧ ∃ revision, is_Some (row !! revision)).
Proof.
  assert (∀ entry revision text,
            cell (invertResults W table) entry revision = Some text →
            ∃ val value,
              table !! revision = Some val
              ∧ prop val entry = Some value
              ∧ isFinite value = true
              ∧ text = number_toString W value +:+ " ms") as Hcell.
  { intros entry revision text. rewrite invertResults_cell.
    destruct (table !! revision) as [val|]; [|done].
    cbn [mbind option_bind].
    destruct (prop val entry) as [value|] eqn:Hentry; [|done].
    cbn [mbind option_bind].
    destruct (isFinite value) eqn:Hfin; [|done].
    intros [= <-]. exists val, value.
    split_and!; [reflexivity | exact Hentry | exact Hfin | reflexivity]. }
  split_and!; [|exact Hcell|].
  - intros revision val entry value Hval Hentry Hfin.
    rewrite invertResults_cell, Hval. cbn [mbind option_bind].
    rewrite Hentry. cbn [mbind option_bind]. by rewrite Hfin.
  - intros entry row Hrow.
    pose proof (invertResults_rows W table entry row Hrow) as Hne.
    apply map_choose in Hne as (revision & text & Htext).
    destruct (Hcell entry revision text) as (val & value & _ & Hentry & _).
    { unfold cell. rewrite Hrow. exact Htext. }
    split; [|by exists revision; eexists].
    apply prop_Some in Hentry. rewrite <- (keys_curated val).
    apply list_elem_of_fmap. by exists (entry, value).
Qed.

(** One revision, the value 5 under every key. *)
Lemma console_table_cells_witness :
  ({[ "trunk" := uniform_results (of_nat 5) ]}
     : gmap string WPPerformanceResults) !! "trunk"
  = Some (uniform_results (of_nat 5))
  ∧ prop (uniform_results (of_nat 5)) "type" = Some (of_nat 5)
  ∧ isFinite (of_nat 5) = true
  ∧ cell (invertResults calm_world {[ "trunk" := uniform_results (of_nat 5) ]})
      "type" "trunk"
    = Some (number_toString calm_world (of_nat 5) +:+ " ms").
Proof.
  assert (Hval : ({[ "trunk" := uniform_results (of_nat 5) ]}
                    : gmap string WPPerformanceResults) !! "trunk"
                 = Some (uniform_results (of_nat 5)))
    by apply lookup_singleton_eq.
  assert (Hentry : prop (uniform_results (of_nat 5)) "type"
                   = Some (of_nat 5)) by (entry_here; reflexivity).
  split_and!; [exact Hval | exact Hentry | reflexivity |].
  exact (proj1 (console_table_cells calm_world _) _ _ _ _ Hval Hentry eq_refl).
Defined.

(** ** The options *)

(** X19: of the options only [wpVersion] has an effect: two runs whose
    options differ in [ci] or [testsBranch] alone make the same calls and
    end the same way (the tests are those of the first ref, see X10). *)
Theorem only_wpVersion_is_read (W : World) (env : ProcessEnv)
    (branches : list string) (options options' : WPPerformanceCommandOptions) :
  wpVersion options = wpVersion options' →
  runPerformanceTests W env branches options
  = runPerformanceTests W env branches options'.
Proof.
  destruct options as [c t v], options' as [c' t' v'].
  cbn [wpVersion]. by intros ->.
Qed.

(** A tests branch is given, and changes nothing. *)
Lemma only_wpVersion_is_read_witness :
  wpVersion (mkOptions (Some true) (Some "try/tests") None)
  = wpVersion no_options
  ∧ runPerformanceTests calm_world local_env ["trunk"]
      (mkOptions (Some true) (Some "try/tests") None)
    = runPerformanceTests calm_world local_env ["trunk"] no_options.
Proof.
  split; [reflexivity|].
  exact (only_wpVersion_is_read calm_world local_env ["trunk"]
           (mkOptions (Some true) (Some "try/tests") None) no_options eq_refl).
Defined.
